(** * codexia: the event reducer of [useCodexEvents]

    A shallow embedding of the hook [useCodexEvents] (the React hook that
    listens to the [codex-events] feed and turns each event into calls on the
    conversation store), followed by the properties of its stream buffers,
    its flush scheduler, its turn lifecycle and its diff set.

    The development also covers what stands around the hook: the listener
    that feeds it, [safeInvoke] with the auth store, the UI store, and the
    pure parts of the chat components that render the messages of the hook
    ([normalizeMessage], the dispatch of [Message], [parseExecContent] and
    [parseUnifiedDiff]).

    Conventions of the embedding.
    - A JavaScript string is a [string]; text that is not ASCII is held as
      its UTF-8 bytes.  A JavaScript [Map<string, _>] is a [gmap string _]
      (the hook never iterates over its maps, so insertion order is not
      observable) and the [Set<string>] of diffs is a [gset string].
    - The [useRef] cells of the hook are the fields of [HookState].  The
      objects the hook calls but does not own (the conversation store, the
      approval callback, the [StreamController], the frame scheduler of the
      platform) are kept as logs of the calls made on them, in call order.
    - [Date.now()], [new Date()] and [Math.random()] are inputs of each
      event ([Ambient]); [console.log] is not modelled.
    - The listener drops a [session_configured] event of another session
      and hands every other event to [handleCodexEvent]; since that event
      only logs, the states of the hook are those of [handleCodexEvent] run
      on the feed.
    - An awaited command is given by how it ends ([Outcome]): the value it
      resolves to, or what it rejects with.
    - A regular expression is the function that finds its matches; the
      patterns are matched on the UTF-8 bytes of the text. *)

From Stdlib Require Import ZArith String Ascii List.
From Stdlib Require Import DecimalString DecimalZ.
From stdpp Require Import gmap strings list fin_maps.

Open Scope Z_scope.

(** ** JavaScript values *)

Module Js.

(** The line feed of the template strings. *)
Definition nl : string := String (ascii_of_N 10) EmptyString.

(** [`${n}`] for an integer [n]. *)
Definition showZ (z : Z) : string := NilZero.string_of_int (Z.to_int z).

(** Truthiness of a string: every string but [''] is truthy. *)
Definition truthy (s : string) : bool :=
  match s with
  | EmptyString => false
  | String _ _ => true
  end.

(** [(x || '').toString()] for an optional string field. *)
Definition orEmpty (x : option string) : string := default EmptyString x.

(** [(x || [])] for an optional array field. *)
Definition orNil {A} (x : option (list A)) : list A := default [] x.

(** [xs.join(sep)]. *)
Definition join (sep : string) (xs : list string) : string :=
  String.concat sep xs.

(** [a || b] on strings. *)
Definition orElse (a b : string) : string := if truthy a then a else b.

End Js.

(** ** The platform's text decoder

    [new TextDecoder().decode(new Uint8Array(chunk))]: the UTF-8 decoder of
    the Encoding standard in its default mode (malformed input is replaced
    by U+FFFD, a leading byte order mark is dropped). *)

Module Utf8.

(** The decoder's registers: the code point being assembled, the
    continuation bytes still needed, and the bounds of the next one. *)
Record Dec := {
  cp : Z;
  needed : Z;
  lower : Z;
  upper : Z;
}.

Definition idle : Dec := {| cp := 0; needed := 0; lower := 128; upper := 191 |}.

Definition replacement : Z := 65533.

(** A byte met with no sequence open: the code points it emits and the
    registers after it. *)
Definition lead (b : Z) : list Z * Dec :=
  if b <=? 127 then ([b], idle)
  else if (194 <=? b) && (b <=? 223) then
    ([], {| cp := Z.land b 31; needed := 1; lower := 128; upper := 191 |})
  else if (224 <=? b) && (b <=? 239) then
    ([], {| cp := Z.land b 15; needed := 2;
            lower := if b =? 224 then 160 else 128;
            upper := if b =? 237 then 159 else 191 |})
  else if (240 <=? b) && (b <=? 244) then
    ([], {| cp := Z.land b 7; needed := 3;
            lower := if b =? 240 then 144 else 128;
            upper := if b =? 244 then 143 else 191 |})
  else ([replacement], idle).

Fixpoint go (d : Dec) (bs : list Z) : list Z :=
  match bs with
  | [] => if needed d =? 0 then [] else [replacement]
  | b :: rest =>
      if needed d =? 0 then
        let '(out, d') := lead b in out ++ go d' rest
      else if (lower d <=? b) && (b <=? upper d) then
        let c := Z.lor (Z.shiftl (cp d) 6) (Z.land b 63) in
        if needed d =? 1 then c :: go idle rest
        else go {| cp := c; needed := needed d - 1; lower := 128; upper := 191 |} rest
      else
        (* the sequence is cut short: U+FFFD, and the byte is read again *)
        let '(out, d') := lead b in replacement :: out ++ go d' rest
  end.

(** [new Uint8Array(chunk)]: each number is taken modulo 256. *)
Definition toUint8 (chunk : list Z) : list Z := map (fun n => n mod 256) chunk.

Definition dropBom (bs : list Z) : list Z :=
  match bs with
  | 239 :: 187 :: 191 :: rest => rest
  | _ => bs
  end.

(** A code point written back as UTF-8 bytes. *)
Definition encode (c : Z) : list Z :=
  if c <=? 127 then [c]
  else if c <=? 2047 then
    [Z.lor 192 (Z.shiftr c 6); Z.lor 128 (Z.land c 63)]
  else if c <=? 65535 then
    [Z.lor 224 (Z.shiftr c 12); Z.lor 128 (Z.land (Z.shiftr c 6) 63);
     Z.lor 128 (Z.land c 63)]
  else
    [Z.lor 240 (Z.shiftr c 18); Z.lor 128 (Z.land (Z.shiftr c 12) 63);
     Z.lor 128 (Z.land (Z.shiftr c 6) 63); Z.lor 128 (Z.land c 63)].

Definition bytesToString (bs : list Z) : string :=
  string_of_list_ascii (map (fun b => ascii_of_N (Z.to_N b)) bs).

Definition decode (chunk : list Z) : string :=
  bytesToString (concat (map encode (go idle (dropBom (toUint8 chunk))))).

End Utf8.

(** ** Events

    [CodexEvent = { id, msg }] with [msg] a union tagged by [msg.type].
    The declarations of [@/types/codex] are not among the sources: each tag
    carries the fields the handler reads, typed by their use there.  A field
    the handler reads through [|| ''] or [|| []] is optional; a number is an
    integer; the payload of an approval request is passed on as it is. *)

Record PlanItem := { status : string; step : string }.

Inductive EventMsg :=
| session_configured (session_id : string)
| turn_started
| task_started
| task_complete
| turn_complete
| turn_aborted
| agent_message (message : option string)
| agent_message_delta (delta : option string)
| agent_reasoning_delta (delta : option string)
| agent_reasoning_raw_content_delta (delta : option string)
| agent_reasoning (text : option string)
| agent_reasoning_raw_content (text : option string)
| agent_reasoning_section_break
| token_count
| token_count_update
| plan_update (plan : option (list PlanItem))
| turn_diff (unified_diff : option string)
| exec_approval_request (command : list string) (cwd : string)
| patch_approval_request (patch : string) (files : list string)
| apply_patch_approval_request (patch : string) (files : list string)
| exec_command_begin (call_id : string) (command : option (list string))
    (cwd : option string)
| exec_command_output_delta (call_id : string) (chunk : option (list Z))
| exec_command_end (call_id : string) (exit_code : Z)
| patch_apply_begin
| patch_apply_end (success : bool)
| error (message : string)
| shutdown_complete
| background_event (message : string)
| unhandled (type : string).

Record CodexEvent := { id : string; msg : EventMsg }.

(** ** Messages and the calls made on the collaborators *)

Inductive MessageType := user | agent | system.
Inductive Role := role_user | role_assistant | role_system.

Record ChatMessage := {
  cm_id : string;
  cm_type : MessageType;
  cm_content : string;
  cm_timestamp : Z;
  cm_isStreaming : option bool;
}.

(** The object [addMessageToStore] hands to the store: it carries no
    [isStreaming] field. *)
Record ConversationMessage := {
  msg_id : string;
  role : Role;
  content : string;
  timestamp : Z;
}.

(** The partial fields of [updateMessage]. *)
Record MessagePatch := {
  patch_content : option string;
  patch_isStreaming : option bool;
}.

Inductive StoreCall :=
| CreateConversation (title mode sid : string)
| AddMessage (sid : string) (m : ConversationMessage)
| UpdateMessage (sid mid : string) (p : MessagePatch)
| SetSessionLoading (sid : string) (loading : bool).

Inductive ApprovalRequest :=
| ExecApproval (rid : string) (command : list string) (cwd : string)
| PatchApproval (rid : string) (patch : string) (files : list string).

(** Calls on the [StreamController] of [@/utils/streamController], which is
    not among the sources.  The hook builds it with no argument and hands it
    neither its maps nor a sink, so its calls are logged and change nothing
    else. *)
Inductive ControllerCall :=
| ScClearAll
| ScFinalize (flush : bool).

(** ** The state of the hook *)

Record StreamEntry := { messageId : string; buffer : string }.

Inductive Which := which_agent | which_reasoning.

#[global] Instance Which_eq_dec : EqDecision Which.
Proof. solve_decision. Defined.

Definition FlushKey : Type := Which * string.

Record HookState := {
  (* the refs of the hook *)
  currentStreamingMessageId : option string;
  currentStreamingBuffer : string;
  agentStreams : gmap string StreamEntry;
  reasoningStreams : gmap string StreamEntry;
  agentFlush : gmap string Z;
  reasoningFlush : gmap string Z;
  execStreams : gmap string StreamEntry;
  shownDiffs : gset string;
  (* the collaborators *)
  controllerCalls : list ControllerCall;
  storeCalls : list StoreCall;
  approvalCalls : list ApprovalRequest;
  (* the platform's frame scheduler: the callbacks handed to
     [requestAnimationFrame] that have not run yet, oldest first, and the
     next handle it gives out *)
  frameCallbacks : list (Z * FlushKey);
  nextHandle : Z;
}.

Definition initialState : HookState := {|
  currentStreamingMessageId := None;
  currentStreamingBuffer := EmptyString;
  agentStreams := ∅;
  reasoningStreams := ∅;
  agentFlush := ∅;
  reasoningFlush := ∅;
  execStreams := ∅;
  shownDiffs := ∅;
  controllerCalls := [];
  storeCalls := [];
  approvalCalls := [];
  frameCallbacks := [];
  nextHandle := 1;
|}.

(** What a render closes over: the props, the store's [conversations]
    (only their ids are read) and the platform's decoder, which answers
    [None] when it throws. *)
Record Env := {
  sessionId : string;
  conversations : list string;
  textDecode : list Z -> option string;
}.

(** The readings of the clock and of [Math.random] while one event is
    handled: [Date.now()], [new Date().getTime()], and
    [Math.random().toString(36).substring(2, 11)]. *)
Record Ambient := {
  date_now : Z;
  new_date : Z;
  random_suffix : string;
}.

(** The environment of a web view that has [TextDecoder]. *)
Definition browserEnv (sid : string) (convs : list string) : Env :=
  {| sessionId := sid; conversations := convs;
     textDecode := fun chunk => Some (Utf8.decode chunk) |}.

(** *** Assignments to the refs and calls on the collaborators *)

Definition set_currentStreamingMessageId (v : option string) (st : HookState) : HookState :=
  {| currentStreamingMessageId := v;
     currentStreamingBuffer := currentStreamingBuffer st;
     agentStreams := agentStreams st; reasoningStreams := reasoningStreams st;
     agentFlush := agentFlush st; reasoningFlush := reasoningFlush st;
     execStreams := execStreams st; shownDiffs := shownDiffs st;
     controllerCalls := controllerCalls st; storeCalls := storeCalls st;
     approvalCalls := approvalCalls st;
     frameCallbacks := frameCallbacks st; nextHandle := nextHandle st |}.

Definition set_currentStreamingBuffer (v : string) (st : HookState) : HookState :=
  {| currentStreamingMessageId := currentStreamingMessageId st;
     currentStreamingBuffer := v;
     agentStreams := agentStreams st; reasoningStreams := reasoningStreams st;
     agentFlush := agentFlush st; reasoningFlush := reasoningFlush st;
     execStreams := execStreams st; shownDiffs := shownDiffs st;
     controllerCalls := controllerCalls st; storeCalls := storeCalls st;
     approvalCalls := approvalCalls st;
     frameCallbacks := frameCallbacks st; nextHandle := nextHandle st |}.

Definition set_agentStreams (v : gmap string StreamEntry) (st : HookState) : HookState :=
  {| currentStreamingMessageId := currentStreamingMessageId st;
     currentStreamingBuffer := currentStreamingBuffer st;
     agentStreams := v; reasoningStreams := reasoningStreams st;
     agentFlush := agentFlush st; reasoningFlush := reasoningFlush st;
     execStreams := execStreams st; shownDiffs := shownDiffs st;
     controllerCalls := controllerCalls st; storeCalls := storeCalls st;
     approvalCalls := approvalCalls st;
     frameCallbacks := frameCallbacks st; nextHandle := nextHandle st |}.

Definition set_reasoningStreams (v : gmap string StreamEntry) (st : HookState) : HookState :=
  {| currentStreamingMessageId := currentStreamingMessageId st;
     currentStreamingBuffer := currentStreamingBuffer st;
     agentStreams := agentStreams st; reasoningStreams := v;
     agentFlush := agentFlush st; reasoningFlush := reasoningFlush st;
     execStreams := execStreams st; shownDiffs := shownDiffs st;
     controllerCalls := controllerCalls st; storeCalls := storeCalls st;
     approvalCalls := approvalCalls st;
     frameCallbacks := frameCallbacks st; nextHandle := nextHandle st |}.

Definition set_agentFlush (v : gmap string Z) (st : HookState) : HookState :=
  {| currentStreamingMessageId := currentStreamingMessageId st;
     currentStreamingBuffer := currentStreamingBuffer st;
     agentStreams := agentStreams st; reasoningStreams := reasoningStreams st;
     agentFlush := v; reasoningFlush := reasoningFlush st;
     execStreams := execStreams st; shownDiffs := shownDiffs st;
     controllerCalls := controllerCalls st; storeCalls := storeCalls st;
     approvalCalls := approvalCalls st;
     frameCallbacks := frameCallbacks st; nextHandle := nextHandle st |}.

Definition set_reasoningFlush (v : gmap string Z) (st : HookState) : HookState :=
  {| currentStreamingMessageId := currentStreamingMessageId st;
     currentStreamingBuffer := currentStreamingBuffer st;
     agentStreams := agentStreams st; reasoningStreams := reasoningStreams st;
     agentFlush := agentFlush st; reasoningFlush := v;
     execStreams := execStreams st; shownDiffs := shownDiffs st;
     controllerCalls := controllerCalls st; storeCalls := storeCalls st;
     approvalCalls := approvalCalls st;
     frameCallbacks := frameCallbacks st; nextHandle := nextHandle st |}.

Definition set_execStreams (v : gmap string StreamEntry) (st : HookState) : HookState :=
  {| currentStreamingMessageId := currentStreamingMessageId st;
     currentStreamingBuffer := currentStreamingBuffer st;
     agentStreams := agentStreams st; reasoningStreams := reasoningStreams st;
     agentFlush := agentFlush st; reasoningFlush := reasoningFlush st;
     execStreams := v; shownDiffs := shownDiffs st;
     controllerCalls := controllerCalls st; storeCalls := storeCalls st;
     approvalCalls := approvalCalls st;
     frameCallbacks := frameCallbacks st; nextHandle := nextHandle st |}.

Definition set_shownDiffs (v : gset string) (st : HookState) : HookState :=
  {| currentStreamingMessageId := currentStreamingMessageId st;
     currentStreamingBuffer := currentStreamingBuffer st;
     agentStreams := agentStreams st; reasoningStreams := reasoningStreams st;
     agentFlush := agentFlush st; reasoningFlush := reasoningFlush st;
     execStreams := execStreams st; shownDiffs := v;
     controllerCalls := controllerCalls st; storeCalls := storeCalls st;
     approvalCalls := approvalCalls st;
     frameCallbacks := frameCallbacks st; nextHandle := nextHandle st |}.

Definition callController (c : ControllerCall) (st : HookState) : HookState :=
  {| currentStreamingMessageId := currentStreamingMessageId st;
     currentStreamingBuffer := currentStreamingBuffer st;
     agentStreams := agentStreams st; reasoningStreams := reasoningStreams st;
     agentFlush := agentFlush st; reasoningFlush := reasoningFlush st;
     execStreams := execStreams st; shownDiffs := shownDiffs st;
     controllerCalls := controllerCalls st ++ [c]; storeCalls := storeCalls st;
     approvalCalls := approvalCalls st;
     frameCallbacks := frameCallbacks st; nextHandle := nextHandle st |}.

Definition callStore (c : StoreCall) (st : HookState) : HookState :=
  {| currentStreamingMessageId := currentStreamingMessageId st;
     currentStreamingBuffer := currentStreamingBuffer st;
     agentStreams := agentStreams st; reasoningStreams := reasoningStreams st;
     agentFlush := agentFlush st; reasoningFlush := reasoningFlush st;
     execStreams := execStreams st; shownDiffs := shownDiffs st;
     controllerCalls := controllerCalls st; storeCalls := storeCalls st ++ [c];
     approvalCalls := approvalCalls st;
     frameCallbacks := frameCallbacks st; nextHandle := nextHandle st |}.

Definition onApprovalRequest (r : ApprovalRequest) (st : HookState) : HookState :=
  {| currentStreamingMessageId := currentStreamingMessageId st;
     currentStreamingBuffer := currentStreamingBuffer st;
     agentStreams := agentStreams st; reasoningStreams := reasoningStreams st;
     agentFlush := agentFlush st; reasoningFlush := reasoningFlush st;
     execStreams := execStreams st; shownDiffs := shownDiffs st;
     controllerCalls := controllerCalls st; storeCalls := storeCalls st;
     approvalCalls := approvalCalls st ++ [r];
     frameCallbacks := frameCallbacks st; nextHandle := nextHandle st |}.

Definition set_frame (q : list (Z * FlushKey)) (n : Z) (st : HookState) : HookState :=
  {| currentStreamingMessageId := currentStreamingMessageId st;
     currentStreamingBuffer := currentStreamingBuffer st;
     agentStreams := agentStreams st; reasoningStreams := reasoningStreams st;
     agentFlush := agentFlush st; reasoningFlush := reasoningFlush st;
     execStreams := execStreams st; shownDiffs := shownDiffs st;
     controllerCalls := controllerCalls st; storeCalls := storeCalls st;
     approvalCalls := approvalCalls st;
     frameCallbacks := q; nextHandle := n |}.

Definition streamsOf (w : Which) (st : HookState) : gmap string StreamEntry :=
  match w with
  | which_agent => agentStreams st
  | which_reasoning => reasoningStreams st
  end.

Definition flagsOf (w : Which) (st : HookState) : gmap string Z :=
  match w with
  | which_agent => agentFlush st
  | which_reasoning => reasoningFlush st
  end.

Definition set_streams (w : Which) (v : gmap string StreamEntry) : HookState -> HookState :=
  match w with
  | which_agent => set_agentStreams v
  | which_reasoning => set_reasoningStreams v
  end.

Definition set_flags (w : Which) (v : gmap string Z) : HookState -> HookState :=
  match w with
  | which_agent => set_agentFlush v
  | which_reasoning => set_reasoningFlush v
  end.

Definition setSessionLoading (sid : string) (b : bool) : HookState -> HookState :=
  callStore (SetSessionLoading sid b).

Definition updateMessage (sid mid : string) (p : MessagePatch) : HookState -> HookState :=
  callStore (UpdateMessage sid mid p).

Definition contentPatch (c : string) : MessagePatch :=
  {| patch_content := Some c; patch_isStreaming := None |}.

Definition finalPatch (c : string) : MessagePatch :=
  {| patch_content := Some c; patch_isStreaming := Some false |}.

(** ** The hook *)

Section Hook.

Variable env : Env.

Let sid : string := sessionId env.

(** [addMessageToStore]: the conversation is created when the render's
    [conversations] has none with the session's id; the message keeps its
    id, content and time and gets a role for its type. *)
Definition roleOf (t : MessageType) : Role :=
  match t with
  | user => role_user
  | agent => role_assistant
  | system => role_system
  end.

Definition addMessageToStore (m : ChatMessage) (st : HookState) : HookState :=
  let st :=
    if bool_decide (sid ∈ conversations env) then st
    else callStore (CreateConversation "New Chat" "agent" sid) st in
  callStore
    (AddMessage sid {| msg_id := cm_id m; role := roleOf (cm_type m);
                       content := cm_content m;
                       timestamp := cm_timestamp m |}) st.

(** [scheduleFlush]: nothing when the key is flagged; else the callback is
    handed to the frame scheduler and its handle is put in the flags.  The
    cancelling closure it returns is dropped by both callers. *)
Definition scheduleFlush (which : Which) (i : string) (st : HookState) : HookState :=
  if bool_decide (is_Some (flagsOf which st !! i)) then st
  else
    let handle := nextHandle st in
    let st := set_frame (frameCallbacks st ++ [(handle, (which, i))]) (handle + 1) st in
    set_flags which (<[i := handle]> (flagsOf which st)) st.

(** The callback given to [requestAnimationFrame]: it reads the buffer
    when it runs. *)
Definition flushCallback (which : Which) (i : string) (st : HookState) : HookState :=
  let st := set_flags which (delete i (flagsOf which st)) st in
  match streamsOf which st !! i with
  | Some e => updateMessage sid (messageId e) (contentPatch (buffer e)) st
  | None => st
  end.

Definition truthyOpt (o : option string) : bool :=
  match o with
  | Some s => Js.truthy s
  | None => false
  end.

(** The two delta cases ([agent_message_delta] on the agent maps with
    ['-agent-'] ids, both reasoning deltas on the reasoning maps with
    ['-reasoning-'] ids) are the same code. *)
Definition deltaCase (which : Which) (label : string) (a : Ambient)
    (i : string) (d : option string) (st : HookState) : HookState :=
  let delta := Js.orEmpty d in
  let '(e, st) :=
    match streamsOf which st !! i with
    | Some e => (e, st)
    | None =>
        let mid := sid +:+ label +:+ Js.showZ (date_now a) in
        let e := {| messageId := mid; buffer := "" |} in
        let st := set_streams which (<[i := e]> (streamsOf which st)) st in
        (e, addMessageToStore
              {| cm_id := mid; cm_type := agent; cm_content := "";
                 cm_timestamp := new_date a; cm_isStreaming := Some true |} st)
    end in
  if Js.truthy delta then
    let st :=
      set_streams which
        (<[i := {| messageId := messageId e; buffer := buffer e +:+ delta |}]>
           (streamsOf which st)) st in
    scheduleFlush which i st
  else st.

Definition reasoningFinalCase (a : Ambient) (i : string) (t : option string)
    (st : HookState) : HookState :=
  let text := Js.orEmpty t in
  let st :=
    match reasoningStreams st !! i with
    | Some e =>
        let b := Js.orElse text (buffer e) in
        let st := updateMessage sid (messageId e) (finalPatch b) st in
        set_reasoningStreams (delete i (reasoningStreams st)) st
    | None =>
        if Js.truthy text then
          addMessageToStore
            {| cm_id := sid +:+ "-reasoning-" +:+ Js.showZ (date_now a);
               cm_type := agent; cm_content := text;
               cm_timestamp := new_date a; cm_isStreaming := None |} st
        else st
    end in
  setSessionLoading sid false st.

Definition handleCodexEvent (a : Ambient) (event : CodexEvent) (st : HookState)
    : HookState :=
  match msg event with
  | session_configured _ => st
  | turn_started =>
      let st := callController ScClearAll st in
      let st := set_currentStreamingMessageId None st in
      let st := set_currentStreamingBuffer "" st in
      let st := set_shownDiffs ∅ st in
      setSessionLoading sid true st
  | task_started =>
      let st := setSessionLoading sid true st in
      let st := callController ScClearAll st in
      set_currentStreamingMessageId None st
  | task_complete =>
      let st := setSessionLoading sid false st in
      if truthyOpt (currentStreamingMessageId st) then
        let st := callController (ScFinalize true) st in
        set_currentStreamingMessageId None st
      else st
  | turn_complete =>
      let st := setSessionLoading sid false st in
      let st :=
        if truthyOpt (currentStreamingMessageId st) then
          let st := callController (ScFinalize true) st in
          set_currentStreamingMessageId None st
        else st in
      set_shownDiffs ∅ st
  | turn_aborted =>
      let st :=
        addMessageToStore
          {| cm_id := sid +:+ "-turn-abort-" +:+ Js.showZ (date_now a);
             cm_type := system; cm_content := "Turn aborted";
             cm_timestamp := new_date a; cm_isStreaming := None |} st in
      let st := setSessionLoading sid false st in
      let st := callController ScClearAll st in
      let st := set_currentStreamingMessageId None st in
      let st := set_currentStreamingBuffer "" st in
      set_shownDiffs ∅ st
  | agent_message m =>
      let i := id event in
      let text := Js.orEmpty m in
      let existing := agentStreams st !! i in
      if negb (Js.truthy text) then st
      else
        let emit (st : HookState) :=
          let mid := sid +:+ "-agent-" +:+ Js.showZ (date_now a) in
          let st :=
            set_agentStreams
              (<[i := {| messageId := mid; buffer := text |}]> (agentStreams st)) st in
          addMessageToStore
            {| cm_id := mid; cm_type := agent; cm_content := text;
               cm_timestamp := new_date a; cm_isStreaming := None |} st in
        match existing with
        | None => emit st
        | Some e =>
            let prev := Js.orElse (buffer e) "" in
            if bool_decide (text ≠ prev) then emit st else st
        end
  | agent_message_delta d => deltaCase which_agent "-agent-" a (id event) d st
  | agent_reasoning_delta d
  | agent_reasoning_raw_content_delta d =>
      deltaCase which_reasoning "-reasoning-" a (id event) d st
  | agent_reasoning t
  | agent_reasoning_raw_content t => reasoningFinalCase a (id event) t st
  | agent_reasoning_section_break =>
      let i := id event in
      match reasoningStreams st !! i with
      | Some e =>
          let b := buffer e +:+ Js.nl +:+ Js.nl in
          let st :=
            set_reasoningStreams
              (<[i := {| messageId := messageId e; buffer := b |}]>
                 (reasoningStreams st)) st in
          updateMessage sid (messageId e) (contentPatch b) st
      | None => st
      end
  | token_count => st
  | token_count_update => st
  | plan_update p =>
      let lines :=
        map (fun p => "- [" +:+ status p +:+ "] " +:+ step p) (Js.orNil p) in
      addMessageToStore
        {| cm_id := sid +:+ "-plan-" +:+ Js.showZ (date_now a);
           cm_type := system;
           cm_content := Js.join Js.nl ("Plan update:" :: lines);
           cm_timestamp := new_date a; cm_isStreaming := None |} st
  | turn_diff u =>
      let raw := Js.orEmpty u in
      if negb (Js.truthy raw) then st
      else if bool_decide (raw ∈ shownDiffs st) then st
      else
        let st := set_shownDiffs ({[raw]} ∪ shownDiffs st) st in
        addMessageToStore
          {| cm_id := sid +:+ "-diff-" +:+ Js.showZ (date_now a);
             cm_type := system;
             cm_content := "```diff" +:+ Js.nl +:+ raw +:+ Js.nl +:+ "```";
             cm_timestamp := new_date a; cm_isStreaming := None |} st
  | exec_approval_request command cwd =>
      onApprovalRequest (ExecApproval (id event) command cwd) st
  | patch_approval_request patch files
  | apply_patch_approval_request patch files =>
      onApprovalRequest (PatchApproval (id event) patch files) st
  | exec_command_begin callId cmd cwd =>
      let command := Js.join " " (Js.orNil cmd) in
      let headerLines :=
        (if truthyOpt cwd then ["cwd: " +:+ Js.orEmpty cwd] else [])
          ++ ["$ " +:+ command] in
      let mid := sid +:+ "-exec-" +:+ callId +:+ "-" +:+ Js.showZ (date_now a) in
      let text := Js.join Js.nl headerLines +:+ Js.nl in
      let st :=
        addMessageToStore
          {| cm_id := mid; cm_type := system; cm_content := text;
             cm_timestamp := new_date a; cm_isStreaming := Some true |} st in
      let st :=
        set_execStreams
          (<[callId := {| messageId := mid; buffer := text |}]> (execStreams st)) st in
      setSessionLoading sid true st
  | exec_command_output_delta callId chunk =>
      match execStreams st !! callId with
      | Some e =>
          let text :=
            match textDecode env (Js.orNil chunk) with
            | Some t => t
            | None => Js.join "," (map Js.showZ (Js.orNil chunk))
            end in
          let next := buffer e +:+ text in
          let st :=
            set_execStreams
              (<[callId := {| messageId := messageId e; buffer := next |}]>
                 (execStreams st)) st in
          updateMessage sid (messageId e) (contentPatch next) st
      | None => st
      end
  | exec_command_end callId code =>
      let st :=
        match execStreams st !! callId with
        | Some e =>
            let next := buffer e +:+ Js.nl +:+ "exit " +:+ Js.showZ code in
            let st := updateMessage sid (messageId e) (finalPatch next) st in
            set_execStreams (delete callId (execStreams st)) st
        | None => st
        end in
      setSessionLoading sid false st
  | patch_apply_begin =>
      let st :=
        addMessageToStore
          {| cm_id := sid +:+ "-patch-begin-" +:+ Js.showZ (date_now a);
             cm_type := system; cm_content := "Applying patch…";
             cm_timestamp := new_date a; cm_isStreaming := None |} st in
      setSessionLoading sid true st
  | patch_apply_end ok =>
      let st :=
        addMessageToStore
          {| cm_id := sid +:+ "-patch-end-" +:+ Js.showZ (date_now a);
             cm_type := system;
             cm_content := "Patch apply " +:+ (if ok then "ok" else "failed");
             cm_timestamp := new_date a; cm_isStreaming := None |} st in
      setSessionLoading sid false st
  | error m =>
      let st :=
        addMessageToStore
          {| cm_id := sid +:+ "-error-" +:+ Js.showZ (date_now a) +:+ "-"
                        +:+ random_suffix a;
             cm_type := system; cm_content := "Error: " +:+ m;
             cm_timestamp := new_date a; cm_isStreaming := None |} st in
      setSessionLoading sid false st
  | shutdown_complete =>
      let st := callController ScClearAll st in
      set_currentStreamingMessageId None st
  | background_event _ => st
  | unhandled _ => st
  end.

End Hook.

(** ** The event loop

    The hook reacts to one input at a time: an event of the feed, or the
    frame scheduler running a callback it was handed.  A callback runs at
    most once and only while it is queued. *)

Fixpoint takeCallback (h : Z) (q : list (Z * FlushKey))
    : option (FlushKey * list (Z * FlushKey)) :=
  match q with
  | [] => None
  | (h', k) :: q' =>
      if bool_decide (h' = h) then Some (k, q')
      else
        match takeCallback h q' with
        | Some (k', r) => Some (k', (h', k) :: r)
        | None => None
        end
  end.

Definition fire (env : Env) (h : Z) (st : HookState) : HookState :=
  match takeCallback h (frameCallbacks st) with
  | Some ((which, i), q) =>
      flushCallback env which i (set_frame q (nextHandle st) st)
  | None => st
  end.

(** One animation frame: every callback queued when the frame starts runs,
    oldest first. *)
Definition animationFrame (env : Env) (st : HookState) : HookState :=
  fold_left (fun st h => fire env h st) (map fst (frameCallbacks st)) st.

Inductive Input :=
| InEvent (a : Ambient) (e : CodexEvent)
| InFire (h : Z)
| InFrame.

Definition react (env : Env) (st : HookState) (i : Input) : HookState :=
  match i with
  | InEvent a e => handleCodexEvent env a e st
  | InFire h => fire env h st
  | InFrame => animationFrame env st
  end.

Definition run (env : Env) (inputs : list Input) (st : HookState) : HookState :=
  fold_left (react env) inputs st.

(** ** The conversation store

    The store is [../stores/ConversationStore], which is not among the
    sources; the hook only calls it.  What a session shows after a log of
    calls is replayed on the store as the spec gives its interface. *)

(** Modelled from the spec: a transcript entry of the conversation store,
    which is not among the sources: the fields of the message handed to
    [appendEntry] and the [isStreaming] field that [updateEntry] may set. *)
Record Entry := {
  entry_id : string;
  entry_role : Role;
  entry_content : string;
  entry_timestamp : Z;
  entry_isStreaming : option bool;
}.

(** Modelled from the spec: what the store, which is not among the sources,
    holds for one session: the transcript in append order and the loading
    flag. *)
Record StoreView := {
  transcript : list Entry;
  loading : bool;
}.

(** Modelled from the spec: [updateEntry]'s merge of partial fields into an
    entry of the store, which is not among the sources: a field that is
    given replaces the entry's, the others stay. *)
Definition applyPatch (p : MessagePatch) (e : Entry) : Entry :=
  {| entry_id := entry_id e; entry_role := entry_role e;
     entry_content := default (entry_content e) (patch_content p);
     entry_timestamp := entry_timestamp e;
     entry_isStreaming :=
       match patch_isStreaming p with
       | Some b => Some b
       | None => entry_isStreaming e
       end |}.

(** Modelled from the spec: the conversation store
    ([../stores/ConversationStore], not among the sources), as the spec
    gives its interface: [appendEntry] adds an entry at the end of the
    session's transcript, [updateEntry] merges the partial fields into the
    entries of the session that have the id (the last write wins),
    [setLoading] sets the session's loading flag.  [storeView sid calls] is
    what session [sid] shows after the calls. *)
Definition storeCall (sid : string) (v : StoreView) (c : StoreCall) : StoreView :=
  match c with
  | CreateConversation _ _ _ => v
  | AddMessage s m =>
      if bool_decide (s = sid) then
        {| transcript :=
             transcript v ++
               [{| entry_id := msg_id m; entry_role := role m;
                   entry_content := content m; entry_timestamp := timestamp m;
                   entry_isStreaming := None |}];
           loading := loading v |}
      else v
  | UpdateMessage s mid p =>
      if bool_decide (s = sid) then
        {| transcript :=
             map (fun e => if bool_decide (entry_id e = mid) then applyPatch p e else e)
               (transcript v);
           loading := loading v |}
      else v
  | SetSessionLoading s b =>
      if bool_decide (s = sid) then {| transcript := transcript v; loading := b |}
      else v
  end.

(** Modelled from the spec: the store, which is not among the sources,
    starts a session with an empty transcript that is not loading. *)
Definition storeView (sid : string) (calls : list StoreCall) : StoreView :=
  fold_left (storeCall sid) calls {| transcript := []; loading := false |}.

(** The [updateMessage] calls of a log, and its [addMessage] calls. *)
Definition isUpdate (c : StoreCall) : bool :=
  match c with
  | UpdateMessage _ _ _ => true
  | _ => false
  end.

Definition isAdd (c : StoreCall) : bool :=
  match c with
  | AddMessage _ _ => true
  | _ => false
  end.

Definition updatesOf (calls : list StoreCall) : list StoreCall :=
  List.filter isUpdate calls.

Definition addsOf (calls : list StoreCall) : list StoreCall :=
  List.filter isAdd calls.

(** Shorthand for the events of the claims. *)
Definition ev (i : string) (m : EventMsg) : CodexEvent := {| id := i; msg := m |}.

Definition amb (t : Z) : Ambient :=
  {| date_now := t; new_date := t; random_suffix := "k3x9q2m1z" |}.

(** ** The listener

    [useEffect] subscribes to the [codex-events] channel unless the session
    id is empty; the callback drops an event that names another session and
    hands the others to [handleCodexEvent]. *)

(** [getEventSessionId]: only [session_configured] names a session. *)
Definition getEventSessionId (event : CodexEvent) : option string :=
  match msg event with
  | session_configured session_id => Some session_id
  | _ => None
  end.

(** [s.slice(n)]. *)
Fixpoint sliceFrom (n : nat) (s : string) : string :=
  match n, s with
  | O, _ => s
  | S n', String _ s' => sliceFrom n' s'
  | S _, EmptyString => EmptyString
  end.

(** [s.replace(pat, rep)] for a string pattern and a replacement without
    [$]: the first occurrence of [pat] is replaced. *)
Fixpoint replaceFirst (pat rep s : string) : string :=
  if String.prefix pat s then rep +:+ sliceFrom (String.length pat) s
  else
    match s with
    | EmptyString => EmptyString
    | String c s' => String c (replaceFirst pat rep s')
    end.

Definition ourSessionId (env : Env) : string :=
  replaceFirst "codex-event-" "" (sessionId env).

(** The test of the callback: [eventSessionId && eventSessionId !==
    ourSessionId]. *)
Definition namesOtherSession (env : Env) (event : CodexEvent) : bool :=
  match getEventSessionId event with
  | Some s => Js.truthy s && bool_decide (s <> ourSessionId env)
  | None => false
  end.

(** The callback given to [listen]. *)
Definition onCodexEvent (env : Env) (a : Ambient) (event : CodexEvent)
    (st : HookState) : HookState :=
  if namesOtherSession env event then st
  else handleCodexEvent env a event st.

(** An event of the channel reaching the hook: nothing listens when the
    session id is empty. *)
Definition deliver (env : Env) (a : Ambient) (event : CodexEvent)
    (st : HookState) : HookState :=
  if negb (Js.truthy (sessionId env)) then st
  else onCodexEvent env a event st.

(** ** String methods *)

(** [s.startsWith(p)]. *)
Definition startsWith (p s : string) : bool := String.prefix p s.

(** [s.includes(p)]. *)
Fixpoint includes (p s : string) : bool :=
  String.prefix p s
  || match s with
     | EmptyString => false
     | String _ s' => includes p s'
     end.

(** [s.split(sep)] for a separator of one character. *)
Fixpoint splitOn (sep : ascii) (s : string) : list string :=
  match s with
  | EmptyString => [EmptyString]
  | String c s' =>
      if bool_decide (c = sep) then EmptyString :: splitOn sep s'
      else
        match splitOn sep s' with
        | x :: r => String c x :: r
        | [] => [String c EmptyString]
        end
  end.

(** ** [safeInvoke] of [tauriMock.ts]

    The outcome of [invoke] is an input: the value it resolves to, or what
    it rejects with, seen through [error?.message] and [String(error)]. *)

Record Thrown := {
  thrown_message : option string;
  thrown_string : string;
}.

Inductive Outcome (A : Type) :=
| Resolved (value : A)
| Rejected (err : Thrown).
Arguments Resolved {A} value.
Arguments Rejected {A} err.

(** The double quote. *)
Definition dquote : string := String "034" EmptyString.

Definition outsideTauriMessage (command : string) : string :=
  "Tauri command " +:+ dquote +:+ command +:+ dquote
    +:+ " called outside Tauri context. Run 'bun tauri dev' for full functionality.".

(** [new Error(text)], seen through [message] and [String]. *)
Definition newError (text : string) : Thrown :=
  {| thrown_message := Some text;
     thrown_string := if Js.truthy text then "Error: " +:+ text else "Error" |}.

(** [safeInvoke]: [isTauriContext] is what [isTauriContext()] answers.  A
    rejection is thrown again as [new Error(message)]. *)
Definition safeInvoke {A} (isTauriContext : bool) (command : string)
    (outcome : Outcome A) : Outcome A :=
  match outcome with
  | Resolved v => Resolved v
  | Rejected err =>
      let message :=
        match thrown_message err with
        | Some m => if Js.truthy m then m else thrown_string err
        | None => thrown_string err
        end in
      let text :=
        if includes "IPC" message || includes "tauri" message || negb isTauriContext
        then outsideTauriMessage command
        else message in
      Rejected (newError text)
  end.

(** ** The auth store *)

Inductive AuthType := auth_none | auth_api_key | auth_chatgpt.

#[global] Instance AuthType_eq_dec : EqDecision AuthType.
Proof. solve_decision. Defined.

Record AuthState := {
  auth_type : AuthType;
  email : option string;
  plan : option string;
  valid : option bool;
  isLoading : bool;
  auth_error : option string;
}.

Definition initialAuth : AuthState :=
  {| auth_type := auth_none; email := None; plan := None; valid := None;
     isLoading := false; auth_error := None |}.

(** [{ ...state.auth, isLoading: l, error: e }]. *)
Definition withStatus (l : bool) (e : option string) (auth : AuthState) : AuthState :=
  {| auth_type := auth_type auth; email := email auth; plan := plan auth;
     valid := valid auth; isLoading := l; auth_error := e |}.

(** [{ type: t, isLoading: false }] with the optional fields given. *)
Definition freshAuth (t : AuthType) (e p : option string) (v : option bool)
    (err : option string) : AuthState :=
  {| auth_type := t; email := e; plan := p; valid := v;
     isLoading := false; auth_error := err |}.

(** [`${error?.message}`]. *)
Definition showMessage (m : option string) : string := default "undefined" m.

(** The browser-mode error of [checkAuthStatus]. *)
Definition browserModeError : string :=
  "Authentication not available in browser mode. Run `bun tauri dev` for full functionality.".

(** [checkAuthStatus], given how [safeInvoke('get_auth_status')] ends. *)
Definition checkAuthStatus (outcome : Outcome (option string)) (auth : AuthState)
    : AuthState :=
  let auth := withStatus true None auth in
  match outcome with
  | Resolved status =>
      if negb (truthyOpt status) then freshAuth auth_none None None None None
      else
        let status := Js.orEmpty status in
        if bool_decide (status = "api_key") then
          freshAuth auth_api_key None None None None
        else if startsWith "chatgpt:" status then
          let parts := splitOn ":" status in
          if bool_decide (length parts = 3%nat) then
            freshAuth auth_chatgpt (parts !! 1%nat) (parts !! 2%nat) (Some true) None
          else if bool_decide (parts !! 1%nat = Some "invalid") then
            freshAuth auth_chatgpt None None (Some false) None
          else freshAuth auth_chatgpt None None (Some true) None
        else auth
  | Rejected err =>
      if match thrown_message err with
         | Some m => includes "outside Tauri context" m
         | None => false
         end
      then
        freshAuth auth_none None None None (Some browserModeError)
      else
        withStatus false
          (Some ("Failed to check authentication status: "
                   +:+ showMessage (thrown_message err))) auth
  end.

(** [logout], given how [safeInvoke('logout_command')] ends. *)
Definition logout {A} (outcome : Outcome A) (auth : AuthState) : AuthState :=
  let auth := withStatus true None auth in
  match outcome with
  | Resolved _ => freshAuth auth_none None None None None
  | Rejected _ => withStatus false (Some "Failed to logout") auth
  end.

(** [loginWithApiKey], given how the two commands end; the second is only
    invoked when the first resolves. *)
Definition loginWithApiKey {A} (login : Outcome A) (status : Outcome (option string))
    (auth : AuthState) : AuthState :=
  let auth := withStatus true None auth in
  match login with
  | Resolved _ => checkAuthStatus status auth
  | Rejected _ => withStatus false (Some "Failed to save API key") auth
  end.

(** [useIsAuthenticated]. *)
Definition isAuthenticated (auth : AuthState) : bool :=
  negb (bool_decide (auth_type auth = auth_none))
  && (negb (bool_decide (auth_type auth = auth_chatgpt))
      || negb (bool_decide (valid auth = Some false))).

(** ** The UI store

    [activeExecs] and [activePatches] are JavaScript numbers that start at 0
    and move by one: they are integers between 0 and 2^53, where [n - 1] is
    exact and [n + 1] is exact below 2^53 and gives 2^53 back at 2^53. *)

Record TokenUsage := {
  input_tokens : option Z;
  cached_input_tokens : option Z;
  output_tokens : option Z;
  reasoning_output_tokens : option Z;
  total_tokens : option Z;
}.

Record UiState := {
  showReasoning : bool;
  activeExecs : Z;
  activePatches : Z;
  tokenUsage : option TokenUsage;
}.

Definition initialUi : UiState :=
  {| showReasoning := false; activeExecs := 0; activePatches := 0;
     tokenUsage := None |}.

(** [n + 1] for an integer [n] of the range. *)
Definition plusOne (n : Z) : Z := if n <? 2 ^ 53 then n + 1 else n.

(** [Math.max(0, n - 1)] for an integer [n] of the range. *)
Definition minusOne (n : Z) : Z := Z.max 0 (n - 1).

Inductive UiAction :=
| toggleReasoning
| setShowReasoning (v : bool)
| incExec
| decExec
| incPatch
| decPatch
| setTokenUsage (u : TokenUsage).

Definition uiAct (s : UiState) (action : UiAction) : UiState :=
  match action with
  | toggleReasoning =>
      {| showReasoning := negb (showReasoning s); activeExecs := activeExecs s;
         activePatches := activePatches s; tokenUsage := tokenUsage s |}
  | setShowReasoning v =>
      {| showReasoning := v; activeExecs := activeExecs s;
         activePatches := activePatches s; tokenUsage := tokenUsage s |}
  | incExec =>
      {| showReasoning := showReasoning s; activeExecs := plusOne (activeExecs s);
         activePatches := activePatches s; tokenUsage := tokenUsage s |}
  | decExec =>
      {| showReasoning := showReasoning s; activeExecs := minusOne (activeExecs s);
         activePatches := activePatches s; tokenUsage := tokenUsage s |}
  | incPatch =>
      {| showReasoning := showReasoning s; activeExecs := activeExecs s;
         activePatches := plusOne (activePatches s); tokenUsage := tokenUsage s |}
  | decPatch =>
      {| showReasoning := showReasoning s; activeExecs := activeExecs s;
         activePatches := minusOne (activePatches s); tokenUsage := tokenUsage s |}
  | setTokenUsage u =>
      {| showReasoning := showReasoning s; activeExecs := activeExecs s;
         activePatches := activePatches s; tokenUsage := Some u |}
  end.

Definition uiRun (actions : list UiAction) (s : UiState) : UiState :=
  fold_left uiAct actions s.

(** ** String methods of the components

    A string is its UTF-8 bytes, as the decoder produces it; the patterns
    below are matched on these bytes, which finds the same matches as on the
    characters since UTF-8 is self-synchronizing. *)

Definition bytesOf (bs : list N) : string :=
  string_of_list_ascii (map ascii_of_N bs).

(** The white space and the line terminators of ECMAScript: what [\s]
    matches and what [trim] removes. *)
Definition whiteSpace : list string :=
  Eval cbv in
    map bytesOf
      [[9]; [10]; [11]; [12]; [13]; [32]; [194; 160]; [225; 154; 128];
       [226; 128; 128]; [226; 128; 129]; [226; 128; 130]; [226; 128; 131];
       [226; 128; 132]; [226; 128; 133]; [226; 128; 134]; [226; 128; 135];
       [226; 128; 136]; [226; 128; 137]; [226; 128; 138]; [226; 128; 168];
       [226; 128; 169]; [226; 128; 175]; [226; 129; 159]; [227; 128; 128];
       [239; 187; 191]]%N.

(** The line terminators: where [^] and [$] of a multiline regular
    expression match. *)
Definition lineTerminator : list string :=
  Eval cbv in map bytesOf [[10]; [13]; [226; 128; 168]; [226; 128; 169]]%N.

(** The length of the string of [ws] that [s] starts with, 0 when it starts
    with none. *)
Fixpoint widthOf (ws : list string) (s : string) : nat :=
  match ws with
  | [] => 0%nat
  | w :: ws' => if String.prefix w s then String.length w else widthOf ws' s
  end.

(** [s] without the strings of [ws] it starts with; [k] bytes of the one
    being removed are left. *)
Fixpoint skipOf (ws : list string) (k : nat) (s : string) : string :=
  match s with
  | EmptyString => EmptyString
  | String _ s' =>
      match k with
      | S k' => skipOf ws k' s'
      | O =>
          match widthOf ws s with
          | O => s
          | S w => skipOf ws w s'
          end
      end
  end.

Definition reverseString (s : string) : string :=
  string_of_list_ascii (rev (list_ascii_of_string s)).

Definition whiteSpaceReversed : list string :=
  Eval cbv in map reverseString whiteSpace.

(** [s.trimStart()], [s.trimEnd()] and [s.trim()]. *)
Definition trimStart (s : string) : string := skipOf whiteSpace 0 s.

Definition trimEnd (s : string) : string :=
  reverseString (skipOf whiteSpaceReversed 0 (reverseString s)).

Definition trim (s : string) : string := trimEnd (trimStart s).

(** [s.split(/\r?\n/)]. *)
Fixpoint splitLines (s : string) : list string :=
  match s with
  | EmptyString => [EmptyString]
  | String c s' =>
      let line :=
        match splitLines s' with
        | x :: r => String c x :: r
        | [] => [String c EmptyString]
        end in
      if bool_decide (c = "010"%char) then EmptyString :: splitLines s'
      else if bool_decide (c = "013"%char) then
        match s' with
        | String c' s'' =>
            if bool_decide (c' = "010"%char) then EmptyString :: splitLines s''
            else line
        | EmptyString => line
        end
      else line
  end.

(** [\d]. *)
Definition isDigit (c : ascii) : bool :=
  ((48 <=? N_of_ascii c) && (N_of_ascii c <=? 57))%N.

(** What [\d*] matches at the head of [s]. *)
Fixpoint takeDigits (s : string) : string :=
  match s with
  | EmptyString => EmptyString
  | String c s' => if isDigit c then String c (takeDigits s') else EmptyString
  end.

(** [parseInt(s, 10)] for a string [s] of the form [-?\d+]. *)
Definition parseInt10 (s : string) : option Z :=
  Z.of_int <$> NilZero.int_of_string s.

(** ** [parseExecContent] of [ExecBlock.tsx] *)

(** [l.match(/^exit\s+(-?\d+)/)]: the group of a match. *)
Definition matchExit (l : string) : option string :=
  if startsWith "exit" l then
    let r := sliceFrom 4 l in
    match widthOf whiteSpace r with
    | O => None
    | S _ =>
        let r := trimStart r in
        let sign := if startsWith "-" r then "-" else "" in
        let digits := takeDigits (sliceFrom (String.length sign) r) in
        if Js.truthy digits then Some (sign +:+ digits) else None
    end
  else None.

Record ExecContent := {
  parsed_cwd : option string;
  parsed_cmdLine : option string;
  parsed_output : string;
  parsed_exitCode : option Z;
}.

(** The loop [for (let i = lines.length - 1; i >= startIdx; i--)], entered
    with [i = n - 1]: the exit code found, and the lines left. *)
Fixpoint exitScan (startIdx n : nat) (lines : list string)
    : option Z * list string :=
  match n with
  | O => (None, lines)
  | S i =>
      if (i <? startIdx)%nat then (None, lines)
      else
        let l := trim (default EmptyString (lines !! i)) in
        if negb (Js.truthy l) then exitScan startIdx i lines
        else
          match matchExit l with
          | Some m => (parseInt10 m, delete i lines)
          | None => (None, lines)
          end
  end.

Definition parseExecContent (content : string) : ExecContent :=
  let lines := splitLines content in
  let '(cwd, startIdx) :=
    match lines !! 0%nat with
    | Some l =>
        if startsWith "cwd: " l then (Some (sliceFrom 5 l), 1%nat)
        else (None, 0%nat)
    | None => (None, 0%nat)
    end in
  let '(cmdLine, startIdx) :=
    match lines !! startIdx with
    | Some l =>
        if startsWith "$ " l then (Some (sliceFrom 2 l), S startIdx)
        else (None, startIdx)
    | None => (None, startIdx)
    end in
  let '(exitCode, lines) := exitScan startIdx (length lines) lines in
  {| parsed_cwd := cwd; parsed_cmdLine := cmdLine;
     parsed_output := Js.join Js.nl (drop startIdx lines);
     parsed_exitCode := exitCode |}.

(** ** [normalizeMessage] of [MessageList.tsx]

    A message of the list is a codex message, which has a [type], or a
    message of the conversation store, which has a [role].  The fields
    [model] and [workingDirectory] are passed through and left out here. *)

Record NormalizedMessage := {
  nm_id : string;
  nm_role : Role;
  nm_content : string;
  nm_timestamp : Z;
  nm_isStreaming : bool;
}.

Inductive UnifiedMessage :=
| codexMessage (m : ChatMessage)
| chatMessage (m : ConversationMessage).

Definition normalizeMessage (m : UnifiedMessage) : NormalizedMessage :=
  match m with
  | codexMessage m =>
      {| nm_id := cm_id m;
         nm_role := match cm_type m with
                    | user => role_user
                    | agent => role_assistant
                    | system => role_system
                    end;
         nm_content := cm_content m;
         nm_timestamp := cm_timestamp m;
         nm_isStreaming := default false (cm_isStreaming m) |}
  | chatMessage m =>
      {| nm_id := msg_id m; nm_role := role m; nm_content := content m;
         nm_timestamp := timestamp m; nm_isStreaming := false |}
  end.

(** ** The dispatch of [Message.tsx] *)

(** What a message is rendered with. *)
Inductive Block :=
| block_none
| block_environment
| block_exec
| block_diff
| block_markdown.

Definition isEnvironmentContext (content : string) : bool :=
  startsWith "<environment_context>" content.

(** [role === 'system' && /(^cwd: |\n\$ |^\$ )/.test(content)]. *)
Definition isExecLike (r : Role) (content : string) : bool :=
  match r with
  | role_system =>
      startsWith "cwd: " content || includes (Js.nl +:+ "$ ") content
      || startsWith "$ " content
  | _ => false
  end.

(** [$] of a multiline regular expression at the head of [s]. *)
Definition atLineEnd (s : string) : bool :=
  negb (Js.truthy s) || negb (widthOf lineTerminator s =? 0)%nat.

(** Three backquotes and [$] at the head of [s]. *)
Definition fenceHere (s : string) : bool :=
  startsWith "```" s && atLineEnd (sliceFrom 3 s).

(** Three backquotes and [$] somewhere in [s]. *)
Fixpoint closesFence (s : string) : bool :=
  fenceHere s
  || match s with
     | EmptyString => false
     | String _ s' => closesFence s'
     end.

(** [```diff[\s\S]*```$] at the head of [s]. *)
Definition opensFence (s : string) : bool :=
  startsWith "```diff" s && closesFence (sliceFrom 7 s).

(** The same right after a line terminator somewhere in [s]. *)
Fixpoint fenceAfterTerminator (s : string) : bool :=
  match widthOf lineTerminator s with
  | O => false
  | S w => opensFence (sliceFrom (S w) s)
  end
  || match s with
     | EmptyString => false
     | String _ s' => fenceAfterTerminator s'
     end.

(** [/^```diff[\s\S]*```$/m.test(s)]. *)
Definition fencedDiff (s : string) : bool := opensFence s || fenceAfterTerminator s.

Definition isDiffBlock (content : string) : bool :=
  fencedDiff (trim content) || startsWith "diff --git " content.

Definition messageBlock (m : NormalizedMessage) : Block :=
  if negb (Js.truthy (nm_content m)) then block_none
  else if isEnvironmentContext (nm_content m) then block_environment
  else if isExecLike (nm_role m) (nm_content m) then block_exec
  else if isDiffBlock (nm_content m) then block_diff
  else block_markdown.

(** ** [parseUnifiedDiff] of [DiffBlock.tsx] *)

(** The byte [c], read after the bytes [b1] and [b2], ends a line
    terminator: the position after it is one where [^] of a multiline
    regular expression matches. *)
Definition endsTerminator (b1 b2 c : ascii) : bool :=
  bool_decide (c = "010"%char) || bool_decide (c = "013"%char)
  || (bool_decide (b1 = "226"%char) && bool_decide (b2 = "128"%char)
      && (bool_decide (c = "168"%char) || bool_decide (c = "169"%char))).

(** [s.replace(/^```diff\n?/m, '')]: the first opening fence at the start of
    a line is removed, with the line feed after it.  [atStart] tells whether
    a line starts here; [b1] and [b2] are the two bytes before. *)
Fixpoint removeOpenFence (atStart : bool) (b1 b2 : ascii) (s : string) : string :=
  if atStart && startsWith "```diff" s then
    let r := sliceFrom 7 s in
    if startsWith Js.nl r then sliceFrom 1 r else r
  else
    match s with
    | EmptyString => EmptyString
    | String c s' => String c (removeOpenFence (endsTerminator b1 b2 c) b2 c s')
    end.

(** [s.replace(/\n?```$/m, '')]: the first three backquotes at the end of a
    line are removed, with the line feed before them. *)
Fixpoint removeCloseFence (s : string) : string :=
  if startsWith Js.nl s && fenceHere (sliceFrom 1 s) then sliceFrom 4 s
  else if fenceHere s then sliceFrom 3 s
  else
    match s with
    | EmptyString => EmptyString
    | String c s' => String c (removeCloseFence s')
    end.

(** The lines the loop of [parseUnifiedDiff] reads. *)
Definition diffLines (raw : string) : list string :=
  splitLines (removeCloseFence (removeOpenFence true "000" "000" (trim raw))).

Record FileDiff := {
  diff_header : string;
  diff_hunks : list string;
  diff_add : Z;
  diff_del : Z;
}.

Definition isFileHeader (line : string) : bool := startsWith "diff --git " line.

Definition isAdded (line : string) : bool :=
  startsWith "+" line && negb (startsWith "+++" line).

Definition isRemoved (line : string) : bool :=
  startsWith "-" line && negb (startsWith "---" line).

(** One turn of the loop on [files] and [current]. *)
Definition diffLine (st : list FileDiff * option FileDiff) (line : string)
    : list FileDiff * option FileDiff :=
  let '(files, current) := st in
  if isFileHeader line then
    (match current with
     | Some c => files ++ [c]
     | None => files
     end,
     Some {| diff_header := line; diff_hunks := []; diff_add := 0; diff_del := 0 |})
  else
    match current with
    | Some c =>
        (files,
         Some {| diff_header := diff_header c;
                 diff_hunks := diff_hunks c ++ [line];
                 diff_add := if isAdded line then diff_add c + 1 else diff_add c;
                 diff_del := if isRemoved line then diff_del c + 1 else diff_del c |})
    | None => (files, None)
    end.

(** [if (current) files.push(current)]. *)
Definition pushCurrent (st : list FileDiff * option FileDiff) : list FileDiff :=
  match st.2 with
  | Some c => st.1 ++ [c]
  | None => st.1
  end.

Definition parseDiffLines (lines : list string) : list FileDiff :=
  pushCurrent (fold_left diffLine lines ([], None)).

Definition parseUnifiedDiff (raw : string) : list FileDiff :=
  parseDiffLines (diffLines raw).

(** ** The auth status of [AuthDialog.tsx]

    The dialog keeps a status of its own, read from the same command as the
    auth store reads its state from. *)

Record AuthStatus := {
  status_type : AuthType;
  status_email : option string;
  status_plan : option string;
  status_valid : option bool;
}.

Record DialogState := {
  authStatus : AuthStatus;
  dialog_error : option string;
}.

Definition initialDialog : DialogState :=
  {| authStatus := {| status_type := auth_none; status_email := None;
                      status_plan := None; status_valid := None |};
     dialog_error := None |}.

Definition setAuthStatus (s : AuthStatus) (d : DialogState) : DialogState :=
  {| authStatus := s; dialog_error := dialog_error d |}.

(** [checkAuthStatus] of the dialog, given how
    [safeInvoke('get_auth_status')] ends. *)
Definition dialogCheckAuthStatus (outcome : Outcome (option string))
    (d : DialogState) : DialogState :=
  match outcome with
  | Resolved status =>
      if negb (truthyOpt status) then
        setAuthStatus {| status_type := auth_none; status_email := None;
                         status_plan := None; status_valid := None |} d
      else
        let status := Js.orEmpty status in
        if bool_decide (status = "api_key") then
          setAuthStatus {| status_type := auth_api_key; status_email := None;
                           status_plan := None; status_valid := None |} d
        else if startsWith "chatgpt:" status then
          let parts := splitOn ":" status in
          if bool_decide (length parts = 3%nat) then
            setAuthStatus {| status_type := auth_chatgpt;
                             status_email := parts !! 1%nat;
                             status_plan := parts !! 2%nat;
                             status_valid := Some true |} d
          else if bool_decide (parts !! 1%nat = Some "invalid") then
            setAuthStatus {| status_type := auth_chatgpt; status_email := None;
                             status_plan := None; status_valid := Some false |} d
          else
            setAuthStatus {| status_type := auth_chatgpt; status_email := None;
                             status_plan := None; status_valid := Some true |} d
        else d
  | Rejected _ =>
      {| authStatus := authStatus d;
         dialog_error := Some "Failed to check authentication status" |}
  end.

(** [isAuthenticated] of the dialog. *)
Definition dialogIsAuthenticated (s : AuthStatus) : bool :=
  negb (bool_decide (status_type s = auth_none))
  && (negb (bool_decide (status_type s = auth_chatgpt))
      || negb (bool_decide (status_valid s = Some false))).

(** What [getStatusDisplay] shows. *)
Inductive StatusDisplay :=
| shows_not_authenticated
| shows_api_key
| shows_chatgpt_invalid
| shows_chatgpt.

Definition getStatusDisplay (s : AuthStatus) : StatusDisplay :=
  match status_type s with
  | auth_none => shows_not_authenticated
  | auth_api_key => shows_api_key
  | auth_chatgpt =>
      if negb (default false (status_valid s)) then shows_chatgpt_invalid
      else shows_chatgpt
  end.

(** ** [showDevelopmentNotice] of [tauriMock.ts]

    [hasShownNotice] is the flag of the module; the first component tells
    whether the notice is logged. *)
Definition showDevelopmentNotice (isTauriContext hasShownNotice : bool) : bool * bool :=
  if negb isTauriContext && negb hasShownNotice then (true, true)
  else (false, hasShownNotice).

(** ** The token manager

    The timers of the platform are the set of the intervals that are set and
    the next id [setInterval] returns; an id is truthy. *)
Record TokenManager := {
  refreshInterval : option Z;
  intervals : gset Z;
  nextInterval : Z;
  checksStarted : nat;
}.

Definition initialTokenManager : TokenManager :=
  {| refreshInterval := None; intervals := ∅; nextInterval := 1; checksStarted := 0 |}.

(** [stop()]. *)
Definition tokenStop (m : TokenManager) : TokenManager :=
  match refreshInterval m with
  | Some h =>
      {| refreshInterval := None; intervals := intervals m ∖ {[h]};
         nextInterval := nextInterval m; checksStarted := checksStarted m |}
  | None => m
  end.

(** [start()]: the call of [checkAndRefreshTokens] it ends with is counted. *)
Definition tokenStart (m : TokenManager) : TokenManager :=
  let m := if refreshInterval m is Some _ then tokenStop m else m in
  {| refreshInterval := Some (nextInterval m);
     intervals := intervals m ∪ {[nextInterval m]};
     nextInterval := nextInterval m + 1;
     checksStarted := S (checksStarted m) |}.

(** [checkAndRefreshTokens], given how the status command would end. *)
Definition checkAndRefreshTokens (outcome : Outcome (option string))
    (auth : AuthState) : AuthState :=
  if negb (bool_decide (auth_type auth = auth_chatgpt)) then auth
  else checkAuthStatus outcome auth.

(** [refreshNow]: its answer and the store after it. *)
Definition refreshNow (outcome : Outcome (option string)) (auth : AuthState)
    : bool * AuthState :=
  if negb (bool_decide (auth_type auth = auth_chatgpt)) then (false, auth)
  else
    let auth := checkAuthStatus outcome auth in
    (bool_decide (valid auth = Some true), auth).

(** The second effect of [useAuthInitialization] for an auth type, and its
    cleanup. *)
Definition tokenEffect (t : AuthType) (m : TokenManager) : TokenManager :=
  if bool_decide (t = auth_chatgpt) then tokenStart m else tokenStop m.

Definition tokenCleanup (m : TokenManager) : TokenManager := tokenStop m.

(** The effect over the life of the component: it runs at mount, and at
    each change of the auth type after the cleanup of the run before. *)
Definition tokenRenders (t : AuthType) (changes : list AuthType) : TokenManager :=
  fold_left (fun m t' => tokenEffect t' (tokenCleanup m)) changes
    (tokenEffect t initialTokenManager).

(** ** The model list of [settings.tsx]

    The models of the selected provider, with the local state of the page
    that edits them.  [setProviderModels] of the settings store, which is
    not among the sources, is taken to store the list it is given. *)

Record ModelsPage := {
  models : list string;
  newModelName : string;
  editingModelIdx : option nat;
  editingModelValue : string;
}.

(** What the user does on the list.  A row is rendered for each index of
    the list; the row [editingModelIdx] shows the editor with [Save] and
    [Cancel], the others show [Edit] and [Delete]. *)
Inductive PageAction :=
| type_new (s : string)
| press_add
| click_edit (idx : nat)
| type_edit (s : string)
| click_save
| click_cancel
| click_delete (idx : nat).

(** The row [idx] is rendered and shows [Edit] and [Delete]. *)
Definition showsButtons (p : ModelsPage) (idx : nat) : bool :=
  bool_decide (idx < length (models p))%nat
  && negb (bool_decide (editingModelIdx p = Some idx)).

(** The row that shows the editor, when it is rendered. *)
Definition editorRow (p : ModelsPage) : option nat :=
  match editingModelIdx p with
  | Some idx => if bool_decide (idx < length (models p))%nat then Some idx else None
  | None => None
  end.

Definition pageAct (p : ModelsPage) (action : PageAction) : ModelsPage :=
  match action with
  | type_new s =>
      {| models := models p; newModelName := s;
         editingModelIdx := editingModelIdx p;
         editingModelValue := editingModelValue p |}
  | press_add =>
      let trimmed := trim (newModelName p) in
      if negb (Js.truthy trimmed) then p
      else if bool_decide (trimmed ∈ models p) then
        {| models := models p; newModelName := "";
           editingModelIdx := editingModelIdx p;
           editingModelValue := editingModelValue p |}
      else
        {| models := models p ++ [trimmed]; newModelName := "";
           editingModelIdx := editingModelIdx p;
           editingModelValue := editingModelValue p |}
  | click_edit idx =>
      if showsButtons p idx then
        {| models := models p; newModelName := newModelName p;
           editingModelIdx := Some idx;
           editingModelValue := default "" (models p !! idx) |}
      else p
  | type_edit s =>
      match editorRow p with
      | Some _ =>
          {| models := models p; newModelName := newModelName p;
             editingModelIdx := editingModelIdx p; editingModelValue := s |}
      | None => p
      end
  | click_save =>
      match editorRow p with
      | Some idx =>
          let trimmed := trim (editingModelValue p) in
          if negb (Js.truthy trimmed) then p
          else
            {| models := <[idx := trimmed]> (models p);
               newModelName := newModelName p;
               editingModelIdx := None; editingModelValue := "" |}
      | None => p
      end
  | click_cancel =>
      match editorRow p with
      | Some _ =>
          {| models := models p; newModelName := newModelName p;
             editingModelIdx := None; editingModelValue := "" |}
      | None => p
      end
  | click_delete idx =>
      if showsButtons p idx then
        {| models := delete idx (models p); newModelName := newModelName p;
           editingModelIdx := editingModelIdx p;
           editingModelValue := editingModelValue p |}
      else p
  end.

(** * The vocabulary of the properties *)

(** A web view where [TextDecoder] throws, and the session's conversation
    exists. *)
Definition throwingEnv (sid : string) : Env :=
  {| sessionId := sid; conversations := [sid]; textDecode := fun _ => None |}.

(** Call [c1] has begun, in that web view. *)
Definition execOpen : HookState :=
  handleCodexEvent (throwingEnv "s") (amb 4)
    (ev "e1" (exec_command_begin "c1" (Some ["cat"; "f"]) None)) initialState.

(** The header [exec_command_begin] starts the buffer with:
    [headerLines.join('\n') + '\n']. *)
Definition execHeader (cmd : option (list string)) (cwd : option string) : string :=
  Js.join Js.nl
    ((if truthyOpt cwd then ["cwd: " +:+ Js.orEmpty cwd] else [])
       ++ ["$ " +:+ Js.join " " (Js.orNil cmd)]) +:+ Js.nl.

(** The text an output delta appends: the decoded chunk, or the numbers
    joined by commas when the decoder throws. *)
Definition execText (env : Env) (chunk : option (list Z)) : string :=
  match textDecode env (Js.orNil chunk) with
  | Some t => t
  | None => Js.join "," (map Js.showZ (Js.orNil chunk))
  end.

(** The stream entry and the store call of an agent message that is
    emitted. *)
Definition agentEntry (env : Env) (a : Ambient) (text : string) : StreamEntry :=
  {| messageId := sessionId env +:+ "-agent-" +:+ Js.showZ (date_now a);
     buffer := text |}.

Definition agentAppend (env : Env) (a : Ambient) (text : string) : StoreCall :=
  AddMessage (sessionId env)
    {| msg_id := sessionId env +:+ "-agent-" +:+ Js.showZ (date_now a);
       role := role_assistant; content := text; timestamp := new_date a |}.

(** The events that empty the diff set. *)
Definition clearsDiffs (m : EventMsg) : bool :=
  match m with
  | turn_started | turn_complete | turn_aborted => true
  | _ => false
  end.

(** The store call of a diff that is shown. *)
Definition diffAppend (env : Env) (a : Ambient) (raw : string) : StoreCall :=
  AddMessage (sessionId env)
    {| msg_id := sessionId env +:+ "-diff-" +:+ Js.showZ (date_now a);
       role := role_system;
       content := "```diff" +:+ Js.nl +:+ raw +:+ Js.nl +:+ "```";
       timestamp := new_date a |}.

(** The message id of an exec entry. *)
Definition execId (env : Env) (a : Ambient) (callId : string) : string :=
  sessionId env +:+ "-exec-" +:+ callId +:+ "-" +:+ Js.showZ (date_now a).

(** The bytes of an ASCII string, as the feed carries them. *)
Definition bytes (s : string) : list Z :=
  map (fun c => Z.of_N (N_of_ascii c)) (list_ascii_of_string s).

(** Text whose bytes are all below 128. *)
Definition isAscii (s : string) : Prop :=
  Forall (fun b => 0 <= b <= 127) (bytes s).

(** The handles of the callbacks pending for a key. *)
Definition pendingFor (k : FlushKey) (st : HookState) : list Z :=
  (List.filter (fun c => bool_decide (c.2 = k)) (frameCallbacks st)).*1.

(** The scheduler's invariant: the queued callbacks have distinct handles,
    all given out already, and distinct keys, and the flags hold exactly the
    queued callbacks. *)
Record flush_inv (st : HookState) : Prop := {
  inv_handles : NoDup (frameCallbacks st).*1;
  inv_keys : NoDup (frameCallbacks st).*2;
  inv_fresh : forall h k, (h, k) ∈ frameCallbacks st -> h < nextHandle st;
  inv_flags : forall w i h,
    flagsOf w st !! i = Some h <-> (h, (w, i)) ∈ frameCallbacks st;
}.

(** The part of the state the invariant reads. *)
Definition sched (st : HookState)
    : gmap string Z * gmap string Z * list (Z * FlushKey) * Z :=
  (agentFlush st, reasoningFlush st, frameCallbacks st, nextHandle st).

(** The entry a delta makes for an id that has none. *)
Definition freshEntry (env : Env) (label : string) (a : Ambient) : StreamEntry :=
  {| messageId := sessionId env +:+ label +:+ Js.showZ (date_now a); buffer := "" |}.

(** The events that request a flush. *)
Definition isDelta (m : EventMsg) : bool :=
  match m with
  | agent_message_delta _ | agent_reasoning_delta _
  | agent_reasoning_raw_content_delta _ => true
  | _ => false
  end.

(** The three delta events, their channel, the label of their message ids
    and their message. *)
Inductive DeltaTag := delta_agent | delta_reasoning | delta_reasoning_raw.

Definition deltaChannel (t : DeltaTag) : Which :=
  match t with
  | delta_agent => which_agent
  | delta_reasoning | delta_reasoning_raw => which_reasoning
  end.

Definition deltaLabel (t : DeltaTag) : string :=
  match t with
  | delta_agent => "-agent-"
  | delta_reasoning | delta_reasoning_raw => "-reasoning-"
  end.

Definition deltaMsg (t : DeltaTag) (d : string) : EventMsg :=
  match t with
  | delta_agent => agent_message_delta (Some d)
  | delta_reasoning => agent_reasoning_delta (Some d)
  | delta_reasoning_raw => agent_reasoning_raw_content_delta (Some d)
  end.

(** Delta events for one stream id, each with the clock readings it is
    handled at. *)
Definition deltaInputs (t : DeltaTag) (i : string) (ds : list (Ambient * string))
    : list Input :=
  map (fun p => InEvent p.1 (ev i (deltaMsg t p.2))) ds.

(** The deltas one after the other. *)
Definition joined (ds : list (Ambient * string)) : string :=
  foldr (fun p acc => p.2 +:+ acc) "" ds.

(** The [updateMessage] of a flush. *)
Definition flushWrite (env : Env) (e : StreamEntry) (text : string) : StoreCall :=
  UpdateMessage (sessionId env) (messageId e) (contentPatch text).

(** The lifecycle events. *)
Definition isLifecycle (m : EventMsg) : bool :=
  match m with
  | turn_started | task_started | task_complete | turn_complete | turn_aborted => true
  | _ => false
  end.

(** A turn with an agent stream, a reasoning stream, a running command and
    a diff. *)
Definition turnN : list Input :=
  [InEvent (amb 1) (ev "t1" turn_started);
   InEvent (amb 2) (ev "a1" (agent_message_delta (Some "x")));
   InEvent (amb 3) (ev "r1" (agent_reasoning_delta (Some "y")));
   InEvent (amb 4) (ev "e1" (exec_command_begin "c1" (Some ["ls"]) None));
   InEvent (amb 5) (ev "d1" (turn_diff (Some "--- a")))].

(** Open streams and a shown diff, as a turn-end event finds them. *)
Definition midStream : HookState :=
  run (browserEnv "s" ["s"])
    [InEvent (amb 1) (ev "a1" (agent_message_delta (Some "hi")));
     InEvent (amb 2) (ev "r1" (agent_reasoning_delta (Some "why")));
     InEvent (amb 3) (ev "d1" (turn_diff (Some "--- a")))]
    initialState.

(** The session a store call is made on. *)
Definition callSession (c : StoreCall) : string :=
  match c with
  | CreateConversation _ _ s => s
  | AddMessage s _ => s
  | UpdateMessage s _ _ => s
  | SetSessionLoading s _ => s
  end.

(** The (session, message id) pairs a log has appended. *)
Definition appended (calls : list StoreCall) : list (string * string) :=
  omap (fun c => match c with
                 | AddMessage s m => Some (s, msg_id m)
                 | _ => None
                 end) calls.

(** Every [updateMessage] of the log comes after an [addMessage] with its
    session and id. *)
Definition updates_follow_adds (calls : list StoreCall) : Prop :=
  forall pre s mid p post,
    calls = pre ++ UpdateMessage s mid p :: post -> (s, mid) ∈ appended pre.

(** The entries of a stream map target messages the log has appended. *)
Definition targets_appended (env : Env) (calls : list StoreCall)
    (m : gmap string StreamEntry) : Prop :=
  map_Forall (fun _ e => (sessionId env, messageId e) ∈ appended calls) m.

(** The store invariant: the log keeps to the hook's session, its updates
    follow their appends, and every stream entry targets an appended
    message. *)
Record store_inv (env : Env) (st : HookState) : Prop := {
  inv_session : Forall (fun c => callSession c = sessionId env) (storeCalls st);
  inv_updates : updates_follow_adds (storeCalls st);
  inv_agent : targets_appended env (storeCalls st) (agentStreams st);
  inv_reasoning : targets_appended env (storeCalls st) (reasoningStreams st);
  inv_exec : targets_appended env (storeCalls st) (execStreams st);
}.

(** The refs and the collaborator of the streaming path the hook had before
    the per-id maps. *)
Record legacy_idle (st : HookState) : Prop := {
  legacy_id : currentStreamingMessageId st = None;
  legacy_buffer : currentStreamingBuffer st = "";
  legacy_calls : Forall (fun c => c = ScClearAll) (controllerCalls st);
}.

(** The three fields [legacy_idle] reads. *)
Definition legacy (st : HookState) : option string * string * list ControllerCall :=
  (currentStreamingMessageId st, currentStreamingBuffer st, controllerCalls st).

(** What the callbacks of a queue write when they run: for each queued key
    whose stream has an entry, one [updateMessage] with the entry's
    buffer. *)
Definition queueWrites (env : Env) (st : HookState) (q : list (Z * FlushKey))
    : list StoreCall :=
  omap (fun c => match streamsOf c.2.1 st !! c.2.2 with
                 | Some e => Some (flushWrite env e (buffer e))
                 | None => None
                 end) q.

(** The output deltas of one call, each with the clock readings it is
    handled at. *)
Definition execDeltaInputs (i callId : string)
    (chunks : list (Ambient * option (list Z))) : list Input :=
  map (fun c => InEvent c.1 (ev i (exec_command_output_delta callId c.2))) chunks.

(** The texts of the chunks, one after the other. *)
Definition execTexts (env : Env) (chunks : list (Ambient * option (list Z))) : string :=
  foldr (fun c acc => execText env c.2 +:+ acc) "" chunks.

(** The [updateMessage] calls of the output deltas: each carries the buffer
    so far. *)
Fixpoint execWrites (env : Env) (mid buf : string)
    (chunks : list (Ambient * option (list Z))) : list StoreCall :=
  match chunks with
  | [] => []
  | c :: rest =>
      let next := buf +:+ execText env c.2 in
      UpdateMessage (sessionId env) mid (contentPatch next)
        :: execWrites env mid next rest
  end.

(** A whole command: begin, output deltas, end. *)
Definition execInputs (a : Ambient) (i callId : string) (cmd : option (list string))
    (cwd : option string) (chunks : list (Ambient * option (list Z)))
    (a' : Ambient) (code : Z) : list Input :=
  [InEvent a (ev i (exec_command_begin callId cmd cwd))]
    ++ execDeltaInputs i callId chunks
    ++ [InEvent a' (ev i (exec_command_end callId code))].

(** The two reasoning-final events and the two reasoning-delta events. *)
Definition reasoningFinalMsg (raw : bool) (t : option string) : EventMsg :=
  if raw then agent_reasoning_raw_content t else agent_reasoning t.

Definition reasoningDeltaTag (raw : bool) : DeltaTag :=
  if raw then delta_reasoning_raw else delta_reasoning.

(** The id of a reasoning message made at the clock reading of [a]:
    [`${sessionId}-reasoning-${Date.now()}`]. *)
Definition reasoningId (env : Env) (a : Ambient) : string :=
  sessionId env +:+ "-reasoning-" +:+ Js.showZ (date_now a).

(** The message a reasoning final or a first reasoning delta appends when
    the id has no entry. *)
Definition reasoningAppend (env : Env) (a : Ambient) (text : string) : StoreCall :=
  AddMessage (sessionId env)
    {| msg_id := reasoningId env a;
       role := role_assistant; content := text; timestamp := new_date a |}.

(** A field without the separator. *)
Definition colonFree (s : string) : Prop := includes ":" s = false.

(** The range of the counters. *)
Definition inRange (n : Z) : Prop := 0 <= n <= 2 ^ 53.

(** No line feed and no carriage return in [s]. *)
Fixpoint lineFree (s : string) : bool :=
  match s with
  | EmptyString => true
  | String c s' =>
      negb (bool_decide (c = "010"%char)) && negb (bool_decide (c = "013"%char))
      && lineFree s'
  end.

(** [s.endsWith('\r')]. *)
Fixpoint endsWithCR (s : string) : bool :=
  match s with
  | EmptyString => false
  | String c EmptyString => bool_decide (c = "013"%char)
  | String _ s' => endsWithCR s'
  end.

(** No carriage return in [s]. *)
Fixpoint noCR (s : string) : bool :=
  match s with
  | EmptyString => true
  | String c s' => negb (bool_decide (c = "013"%char)) && noCR s'
  end.

(** Digits only. *)
Fixpoint allDigits (s : string) : bool :=
  match s with
  | EmptyString => true
  | String c s' => isDigit c && allDigits s'
  end.

(** The content [turn_diff] appends for a diff. *)
Definition diffContent (raw : string) : string :=
  "```diff" +:+ Js.nl +:+ raw +:+ Js.nl +:+ "```".

(** A line of [raw] starts with a dollar sign and a space. *)
Definition hasDollarLine (raw : string) : bool :=
  includes (Js.nl +:+ "$ ") (Js.nl +:+ raw).

(** No line feed in [s]. *)
Fixpoint noLF (s : string) : bool :=
  match s with
  | EmptyString => true
  | String c s' => negb (bool_decide (c = "010"%char)) && noLF s'
  end.

(** The lines from the first file header on. *)
Fixpoint fromFirstHeader (lines : list string) : list string :=
  match lines with
  | [] => []
  | line :: rest => if isFileHeader line then lines else fromFirstHeader rest
  end.

(** The text [Copy diff] puts on the clipboard for a file, as lines. *)
Definition fileLines (f : FileDiff) : list string := diff_header f :: diff_hunks f.

(** A file as the loop builds it: a header line, hunks that are no header,
    and counters that count the added and the removed lines of the hunks. *)
Definition wellFormedFile (f : FileDiff) : Prop :=
  isFileHeader (diff_header f) = true
  /\ Forall (fun l => isFileHeader l = false) (diff_hunks f)
  /\ diff_add f = Z.of_nat (length (filter (fun l => isAdded l = true) (diff_hunks f)))
  /\ diff_del f = Z.of_nat (length (filter (fun l => isRemoved l = true) (diff_hunks f))).

(** The part of the store's state the dialog has too. *)
Definition statusOf (auth : AuthState) : AuthStatus :=
  {| status_type := auth_type auth; status_email := email auth;
     status_plan := plan auth; status_valid := valid auth |}.

(** The rejection is the one [safeInvoke] makes outside Tauri. *)
Definition outsideTauri (err : Thrown) : bool :=
  match thrown_message err with
  | Some m => includes "outside Tauri context" m
  | None => false
  end.

(** The dialog after a list of status checks. *)
Definition dialogChecks (outcomes : list (Outcome (option string))) : DialogState :=
  fold_left (fun d o => dialogCheckAuthStatus o d) outcomes initialDialog.

(** The calls of [showDevelopmentNotice], each with what [isTauriContext()]
    answers: whether each call logs, and the flag at the end. *)
Fixpoint notices (calls : list bool) (hasShownNotice : bool) : list bool * bool :=
  match calls with
  | [] => ([], hasShownNotice)
  | isTauri :: rest =>
      let '(logged, shown) := showDevelopmentNotice isTauri hasShownNotice in
      let '(logs, final) := notices rest shown in
      (logged :: logs, final)
  end.

(** Calls of [start] and [stop] in any order. *)
Inductive TokenCall := call_start | call_stop.

Definition tokenCall (m : TokenManager) (c : TokenCall) : TokenManager :=
  match c with
  | call_start => tokenStart m
  | call_stop => tokenStop m
  end.

(** The intervals that are set are the one the manager remembers. *)
Definition tracksInterval (m : TokenManager) : Prop :=
  intervals m = match refreshInterval m with
                | Some h => {[h]}
                | None => ∅
                end.

(** No name of the list is empty. *)
Definition namesGiven (p : ModelsPage) : Prop :=
  Forall (fun m => m <> "") (models p).

Definition isSave (action : PageAction) : bool :=
  match action with
  | click_save => true
  | _ => false
  end.

(** * Properties *)

(** Reduction that computes the record projections over the assignments
    and stops at everything else. *)
Ltac hsimpl :=
  cbn [currentStreamingMessageId currentStreamingBuffer agentStreams
       reasoningStreams agentFlush reasoningFlush execStreams shownDiffs
       controllerCalls storeCalls approvalCalls frameCallbacks nextHandle
       set_currentStreamingMessageId set_currentStreamingBuffer
       set_agentStreams set_reasoningStreams set_agentFlush set_reasoningFlush
       set_execStreams set_shownDiffs callController callStore
       onApprovalRequest set_frame streamsOf flagsOf set_streams set_flags
       setSessionLoading updateMessage msg id ev messageId buffer
       fst snd] in *.

(** ** Truthiness *)

Lemma truthy_true (s : string) : Js.truthy s = true <-> s <> EmptyString.
Proof. destruct s; simpl; split; congruence. Qed.

Lemma truthy_false (s : string) : Js.truthy s = false <-> s = EmptyString.
Proof. destruct s; simpl; split; congruence. Qed.

(** ** Calls and refs across the helpers *)

Lemma storeCalls_addMessageToStore env m st :
  storeCalls (addMessageToStore env m st) =
    storeCalls st
      ++ (if bool_decide (sessionId env ∈ conversations env) then []
          else [CreateConversation "New Chat" "agent" (sessionId env)])
      ++ [AddMessage (sessionId env)
            {| msg_id := cm_id m; role := roleOf (cm_type m);
               content := cm_content m; timestamp := cm_timestamp m |}].
Proof.
  unfold addMessageToStore. case_bool_decide; simpl; [done|].
  by rewrite <- app_assoc.
Qed.

Lemma addsOf_app xs ys : addsOf (xs ++ ys) = addsOf xs ++ addsOf ys.
Proof. apply List.filter_app. Qed.

Lemma updatesOf_app xs ys : updatesOf (xs ++ ys) = updatesOf xs ++ updatesOf ys.
Proof. apply List.filter_app. Qed.

Lemma addsOf_addMessageToStore env m st :
  addsOf (storeCalls (addMessageToStore env m st)) =
    addsOf (storeCalls st)
      ++ [AddMessage (sessionId env)
            {| msg_id := cm_id m; role := roleOf (cm_type m);
               content := cm_content m; timestamp := cm_timestamp m |}].
Proof.
  rewrite storeCalls_addMessageToStore, !addsOf_app.
  by case_bool_decide.
Qed.

Lemma updatesOf_addMessageToStore env m st :
  updatesOf (storeCalls (addMessageToStore env m st)) = updatesOf (storeCalls st).
Proof.
  rewrite storeCalls_addMessageToStore, !updatesOf_app.
  case_bool_decide; simpl; by rewrite app_nil_r.
Qed.

Lemma storeView_snoc sid calls c :
  storeView sid (calls ++ [c]) = storeCall sid (storeView sid calls) c.
Proof. unfold storeView. by rewrite fold_left_app. Qed.

(** The refs that [addMessageToStore] leaves alone: all of them. *)
Lemma addMessageToStore_refs env m st :
  let st' := addMessageToStore env m st in
  agentStreams st' = agentStreams st
  /\ reasoningStreams st' = reasoningStreams st
  /\ execStreams st' = execStreams st
  /\ agentFlush st' = agentFlush st
  /\ reasoningFlush st' = reasoningFlush st
  /\ shownDiffs st' = shownDiffs st
  /\ frameCallbacks st' = frameCallbacks st
  /\ nextHandle st' = nextHandle st.
Proof. unfold addMessageToStore. by case_bool_decide. Qed.

(** ** Reasoning finals and the loading flag *)

Lemma reasoningFinalCase_calls env a i t st :
  exists calls,
    storeCalls (reasoningFinalCase env a i t st) =
      storeCalls st ++ calls ++ [SetSessionLoading (sessionId env) false].
Proof.
  unfold reasoningFinalCase.
  destruct (reasoningStreams st !! i) as [e|]; hsimpl.
  - rewrite <- app_assoc. by eexists [_].
  - destruct (Js.truthy (Js.orEmpty t)); hsimpl.
    + rewrite storeCalls_addMessageToStore, <- !app_assoc.
      match goal with
      | |- context [?x ++ [?y] ++ [_]] => exists (x ++ [y])
      end.
      by rewrite <- !app_assoc.
    + by exists [].
Qed.

(** C10. Every reasoning-final event ([agent_reasoning] and
    [agent_reasoning_raw_content]) ends with [setSessionLoading(sessionId,
    false)]: whatever the state, whether or not the id has a stream entry and
    whatever the text, the last store call of the event sets the loading
    flag to false, and the session shows as not loading afterwards. *)
Theorem reasoning_final_sets_loading_false env a i t st (raw : bool) :
  let e := ev i (if raw then agent_reasoning_raw_content t else agent_reasoning t) in
  let st' := handleCodexEvent env a e st in
  (exists calls,
      storeCalls st' =
        storeCalls st ++ calls ++ [SetSessionLoading (sessionId env) false])
  /\ last (storeCalls st') = Some (SetSessionLoading (sessionId env) false)
  /\ loading (storeView (sessionId env) (storeCalls st')) = false.
Proof.
  intros e st'.
  assert (Hst : st' = reasoningFinalCase env a i t st).
  { subst st' e. by destruct raw. }
  destruct (reasoningFinalCase_calls env a i t st) as [calls Hc].
  rewrite Hst, Hc. split; [by exists calls|].
  rewrite !app_assoc. split.
  - apply last_snoc.
  - rewrite storeView_snoc. simpl. by rewrite bool_decide_eq_true_2.
Qed.

(** ** Exec output *)

(** C9. An exec output delta for a call id that has a stream entry appends
    the decoded chunk to the buffer; when the decoder throws, it appends the
    chunk's numbers joined by commas instead.  Either way the event is
    handled: the entry holds the longer buffer and one [updateMessage] with
    that content is issued. *)
Theorem exec_delta_decodes_or_falls_back env a i callId chunk st e :
  execStreams st !! callId = Some e ->
  let st' := handleCodexEvent env a (ev i (exec_command_output_delta callId chunk)) st in
  let appended (text : string) :=
    execStreams st' !! callId
      = Some {| messageId := messageId e; buffer := buffer e +:+ text |}
    /\ storeCalls st' =
         storeCalls st
           ++ [UpdateMessage (sessionId env) (messageId e)
                 (contentPatch (buffer e +:+ text))] in
  (forall text, textDecode env (Js.orNil chunk) = Some text -> appended text)
  /\ (textDecode env (Js.orNil chunk) = None ->
      appended (Js.join "," (map Js.showZ (Js.orNil chunk)))).
Proof.
  intros He st' appended. subst st' appended.
  unfold handleCodexEvent; simpl. rewrite He.
  split.
  - intros text Ht. rewrite Ht. simpl. by rewrite lookup_insert_eq.
  - intros Ht. rewrite Ht. simpl. by rewrite lookup_insert_eq.
Qed.

Lemma exec_delta_decodes_or_falls_back_witness :
  let st' :=
    handleCodexEvent (throwingEnv "s") (amb 5)
      (ev "e2" (exec_command_output_delta "c1" (Some [104; 105]))) execOpen in
  execStreams st' !! "c1"
    = Some {| messageId := "s-exec-c1-4"; buffer := "$ cat f" +:+ Js.nl +:+ "104,105" |}.
Proof.
  assert (Hopen : execStreams execOpen !! "c1"
                  = Some {| messageId := "s-exec-c1-4"; buffer := "$ cat f" +:+ Js.nl |})
    by (vm_compute; reflexivity).
  destruct (exec_delta_decodes_or_falls_back (throwingEnv "s") (amb 5) "e2" "c1"
              (Some [104; 105]) execOpen _ Hopen) as [_ H].
  exact (proj1 (H eq_refl)).
Defined.

(** C6 (as stated, refuted).  The first exec output delta of call id [c1],
    with no stream entry for it, creates no entry and issues no append: the
    handler leaves the state as it was. *)
Lemma exec_delta_without_entry_counterexample :
  let st' :=
    handleCodexEvent (browserEnv "s" []) (amb 5)
      (ev "e1" (exec_command_output_delta "c1" (Some [104; 105]))) initialState in
  execStreams initialState !! "c1" = None
  /\ execStreams st' !! "c1" = None
  /\ storeCalls st' = [].
Proof. vm_compute. done. Qed.

(** C6 (amended).  An exec output delta for a call id with no stream entry
    is ignored: the state is unchanged, so no entry is created and no
    transcript intent is issued.  The entry of a call id is created by
    [exec_command_begin], which appends the transcript entry and starts the
    buffer with the header lines; a delta that follows appends its decoded
    text to that buffer. *)
Theorem exec_delta_without_entry_is_ignored env a a' i callId chunk cmd cwd st :
  execStreams st !! callId = None ->
  handleCodexEvent env a (ev i (exec_command_output_delta callId chunk)) st = st
  /\ let mid :=
       sessionId env +:+ "-exec-" +:+ callId +:+ "-" +:+ Js.showZ (date_now a) in
     let st1 := handleCodexEvent env a (ev i (exec_command_begin callId cmd cwd)) st in
     let st2 :=
       handleCodexEvent env a' (ev i (exec_command_output_delta callId chunk)) st1 in
     execStreams st1 !! callId
       = Some {| messageId := mid; buffer := execHeader cmd cwd |}
     /\ addsOf (storeCalls st1)
        = addsOf (storeCalls st)
            ++ [AddMessage (sessionId env)
                  {| msg_id := mid; role := role_system;
                     content := execHeader cmd cwd; timestamp := new_date a |}]
     /\ execStreams st2 !! callId
        = Some {| messageId := mid;
                  buffer := execHeader cmd cwd +:+ execText env chunk |}.
Proof.
  intros Hnone. split.
  - unfold handleCodexEvent; hsimpl. by rewrite Hnone.
  - unfold handleCodexEvent; hsimpl.
    rewrite lookup_insert_eq; hsimpl. rewrite lookup_insert_eq.
    split; [done|]. split; [|done].
    rewrite addsOf_app, addsOf_addMessageToStore; simpl. by rewrite app_nil_r.
Qed.

Lemma exec_delta_without_entry_is_ignored_witness :
  handleCodexEvent (browserEnv "s" []) (amb 5)
    (ev "e1" (exec_command_output_delta "c1" (Some [104; 105]))) initialState
  = initialState.
Proof.
  exact (proj1 (exec_delta_without_entry_is_ignored (browserEnv "s" []) (amb 5) (amb 6)
                  "e1" "c1" (Some [104; 105]) None None initialState eq_refl)).
Defined.

(** ** Agent messages *)

Lemma orElse_empty (s : string) : Js.orElse s "" = s.
Proof. by destruct s. Qed.

(** What [agent_message] does, case by case. *)
Lemma agent_message_empty env a i m st :
  Js.orEmpty m = "" ->
  handleCodexEvent env a (ev i (agent_message m)) st = st.
Proof. intros H. unfold handleCodexEvent; hsimpl. by rewrite H. Qed.

Lemma agent_message_same env a i text st e :
  agentStreams st !! i = Some e -> buffer e = text ->
  handleCodexEvent env a (ev i (agent_message (Some text))) st = st.
Proof.
  intros He Hb. unfold handleCodexEvent; hsimpl.
  destruct (Js.truthy (Js.orEmpty (Some text))); [|done]. simpl.
  rewrite He, orElse_empty, Hb. simpl. by rewrite bool_decide_eq_false_2 by auto.
Qed.

Lemma agent_message_emit env a i text st :
  text <> "" ->
  (agentStreams st !! i = None
   \/ exists e, agentStreams st !! i = Some e /\ buffer e <> text) ->
  let st' := handleCodexEvent env a (ev i (agent_message (Some text))) st in
  agentStreams st' !! i = Some (agentEntry env a text)
  /\ addsOf (storeCalls st') = addsOf (storeCalls st) ++ [agentAppend env a text].
Proof.
  intros Ht Hst st'. subst st'. unfold handleCodexEvent; hsimpl.
  apply truthy_true in Ht. simpl Js.orEmpty. rewrite Ht. simpl negb.
  assert (Hemit :
    forall s0, s0 = set_agentStreams (<[i := agentEntry env a text]> (agentStreams st)) st ->
      agentStreams
        (addMessageToStore env
           {| cm_id := sessionId env +:+ "-agent-" +:+ Js.showZ (date_now a);
              cm_type := agent; cm_content := text;
              cm_timestamp := new_date a; cm_isStreaming := None |} s0) !! i
        = Some (agentEntry env a text)
      /\ addsOf (storeCalls (addMessageToStore env
           {| cm_id := sessionId env +:+ "-agent-" +:+ Js.showZ (date_now a);
              cm_type := agent; cm_content := text;
              cm_timestamp := new_date a; cm_isStreaming := None |} s0))
         = addsOf (storeCalls st) ++ [agentAppend env a text]).
  { intros s0 ->. rewrite addsOf_addMessageToStore.
    destruct (addMessageToStore_refs env
      {| cm_id := sessionId env +:+ "-agent-" +:+ Js.showZ (date_now a);
         cm_type := agent; cm_content := text;
         cm_timestamp := new_date a; cm_isStreaming := None |}
      (set_agentStreams (<[i := agentEntry env a text]> (agentStreams st)) st))
      as [-> _].
    hsimpl. by rewrite lookup_insert_eq. }
  destruct Hst as [Hn | (e & He & Hb)].
  - rewrite Hn. by apply Hemit.
  - rewrite He, orElse_empty. rewrite bool_decide_eq_true_2 by congruence.
    by apply Hemit.
Qed.

(** C4 (as stated, refuted).  With no stream entry for the id, an agent
    message whose text is the empty string emits nothing. *)
Lemma agent_message_empty_text_counterexample :
  let st' :=
    handleCodexEvent (browserEnv "s" []) (amb 5)
      (ev "m1" (agent_message (Some ""))) initialState in
  agentStreams initialState !! "m1" = None
  /\ addsOf (storeCalls st') = []
  /\ st' = initialState.
Proof. vm_compute. done. Qed.

(** C4 (amended).  For an id with no stream entry and a text that is not
    empty, an agent-message event emits exactly one new transcript entry,
    whose content is the text, and registers the entry for the id; an
    agent-message event with the empty text is ignored. *)
Theorem agent_message_emits_when_absent env a i text st :
  agentStreams st !! i = None ->
  let st' := handleCodexEvent env a (ev i (agent_message (Some text))) st in
  (text <> "" ->
     addsOf (storeCalls st') = addsOf (storeCalls st) ++ [agentAppend env a text]
     /\ agentStreams st' !! i = Some (agentEntry env a text))
  /\ (text = "" -> st' = st).
Proof.
  intros Hn st'. split.
  - intros Ht. destruct (agent_message_emit env a i text st Ht (or_introl Hn)). done.
  - intros ->. by apply agent_message_empty.
Qed.

Lemma agent_message_emits_when_absent_witness :
  let st' :=
    handleCodexEvent (browserEnv "s" []) (amb 5)
      (ev "m1" (agent_message (Some "hello"))) initialState in
  addsOf (storeCalls st') = [agentAppend (browserEnv "s" []) (amb 5) "hello"].
Proof.
  pose proof (agent_message_emits_when_absent (browserEnv "s" []) (amb 5) "m1" "hello"
                initialState eq_refl) as [H _].
  exact (proj1 (H ltac:(discriminate))).
Defined.

(** C3 (as stated, refuted).  Two agent messages in a row with the same id
    and the empty text leave no transcript entry at all. *)
Lemma agent_message_resend_empty_counterexample :
  let e := ev "m1" (agent_message (Some "")) in
  let st1 := handleCodexEvent (browserEnv "s" []) (amb 5) e initialState in
  let st2 := handleCodexEvent (browserEnv "s" []) (amb 6) e st1 in
  addsOf (storeCalls st2) = [].
Proof. vm_compute. done. Qed.

(** C3 (amended).  For every id and every text that is not empty, two
    agent messages in a row with that id and that text leave the stream's
    buffer equal to the text, and the second changes nothing.  Unless the
    stream already held that text (then the first is ignored too), the pair
    adds exactly one transcript entry, whose content is the text.  With the
    empty text both events are ignored. *)
Theorem agent_message_resend_idempotent env a1 a2 i text st :
  let e := ev i (agent_message (Some text)) in
  let st1 := handleCodexEvent env a1 e st in
  let st2 := handleCodexEvent env a2 e st1 in
  (text <> "" ->
     st2 = st1
     /\ (exists mid, agentStreams st2 !! i = Some {| messageId := mid; buffer := text |})
     /\ ((agentStreams st !! i = None
          \/ exists e0, agentStreams st !! i = Some e0 /\ buffer e0 <> text) ->
         addsOf (storeCalls st2) = addsOf (storeCalls st) ++ [agentAppend env a1 text])
     /\ ((exists e0, agentStreams st !! i = Some e0 /\ buffer e0 = text) ->
         st1 = st))
  /\ (text = "" -> st2 = st).
Proof.
  intros e st1 st2. split.
  - intros Ht.
    assert (Hcase :
      (agentStreams st !! i = None
       \/ exists e0, agentStreams st !! i = Some e0 /\ buffer e0 <> text)
      \/ (exists e0, agentStreams st !! i = Some e0 /\ buffer e0 = text)).
    { destruct (agentStreams st !! i) as [e0|] eqn:He0; [|by left; left].
      destruct (decide (buffer e0 = text)); [right | left; right]; eauto. }
    assert (H1 : exists mid,
               agentStreams st1 !! i = Some {| messageId := mid; buffer := text |}).
    { destruct Hcase as [Hc | (e0 & He0 & Hb)].
      - destruct (agent_message_emit env a1 i text st Ht Hc) as [H _].
        eexists. exact H.
      - subst st1 e. rewrite (agent_message_same env a1 i text st e0 He0 Hb).
        exists (messageId e0). rewrite He0. destruct e0; simpl in *; by subst. }
    assert (H2 : st2 = st1).
    { destruct H1 as [mid H1]. subst st2 e.
      by apply (agent_message_same env a2 i text st1 _ H1). }
    rewrite H2. split; [done|]. split; [done|]. split.
    + intros Hc. by destruct (agent_message_emit env a1 i text st Ht Hc).
    + intros (e0 & He0 & Hb). by apply (agent_message_same env a1 i text st e0).
  - intros ->. subst st2 st1 e. by rewrite !agent_message_empty.
Qed.

Lemma agent_message_resend_idempotent_witness :
  let e := ev "m1" (agent_message (Some "hello")) in
  let st1 := handleCodexEvent (browserEnv "s" []) (amb 5) e initialState in
  let st2 := handleCodexEvent (browserEnv "s" []) (amb 6) e st1 in
  addsOf (storeCalls st2) = [agentAppend (browserEnv "s" []) (amb 5) "hello"].
Proof.
  pose proof (agent_message_resend_idempotent (browserEnv "s" []) (amb 5) (amb 6)
                "m1" "hello" initialState) as [H _].
  destruct (H ltac:(discriminate)) as (_ & _ & Hadd & _).
  exact (Hadd (or_introl eq_refl)).
Defined.

(** ** The diff set *)

Lemma shownDiffs_addMessageToStore env m st :
  shownDiffs (addMessageToStore env m st) = shownDiffs st.
Proof. unfold addMessageToStore. by case_bool_decide. Qed.

Lemma shownDiffs_scheduleFlush w i st :
  shownDiffs (scheduleFlush w i st) = shownDiffs st.
Proof. unfold scheduleFlush. case_bool_decide; [done|]. by destruct w. Qed.

Lemma shownDiffs_flushCallback env w i st :
  shownDiffs (flushCallback env w i st) = shownDiffs st.
Proof. unfold flushCallback. destruct w; hsimpl; by case_match. Qed.

Lemma shownDiffs_deltaCase env w label a i d st :
  shownDiffs (deltaCase env w label a i d st) = shownDiffs st.
Proof.
  unfold deltaCase.
  destruct (streamsOf w st !! i) as [e|]; destruct (Js.truthy (Js.orEmpty d));
    rewrite ?shownDiffs_scheduleFlush; destruct w; hsimpl;
    by rewrite ?shownDiffs_addMessageToStore.
Qed.

Lemma shownDiffs_reasoningFinalCase env a i t st :
  shownDiffs (reasoningFinalCase env a i t st) = shownDiffs st.
Proof.
  unfold reasoningFinalCase. hsimpl.
  destruct (reasoningStreams st !! i); [done|].
  destruct (Js.truthy (Js.orEmpty t)); by rewrite ?shownDiffs_addMessageToStore.
Qed.

Lemma shownDiffs_fire env h st : shownDiffs (fire env h st) = shownDiffs st.
Proof.
  unfold fire. destruct (takeCallback h (frameCallbacks st)) as [[[w i] q]|]; [|done].
  by rewrite shownDiffs_flushCallback.
Qed.

Lemma shownDiffs_fires env hs st :
  shownDiffs (fold_left (fun st h => fire env h st) hs st) = shownDiffs st.
Proof.
  revert st. induction hs as [|h hs IH]; intros st; simpl; [done|].
  by rewrite IH, shownDiffs_fire.
Qed.

Lemma shownDiffs_cleared env a e st :
  clearsDiffs (msg e) = true -> shownDiffs (handleCodexEvent env a e st) = ∅.
Proof.
  destruct e as [i m]. destruct m; simpl; try discriminate; intros _;
    unfold handleCodexEvent; hsimpl; done.
Qed.

Lemma shownDiffs_kept env a e st :
  clearsDiffs (msg e) = false ->
  shownDiffs st ⊆ shownDiffs (handleCodexEvent env a e st).
Proof.
  destruct e as [i m]. destruct m; simpl; try discriminate; intros _;
    unfold handleCodexEvent; hsimpl;
    rewrite ?shownDiffs_deltaCase, ?shownDiffs_reasoningFinalCase;
    repeat case_match; hsimpl; rewrite ?shownDiffs_addMessageToStore; hsimpl;
    set_solver.
Qed.

Lemma turn_diff_new env a i D st :
  D <> "" -> D ∉ shownDiffs st ->
  let st' := handleCodexEvent env a (ev i (turn_diff (Some D))) st in
  addsOf (storeCalls st') = addsOf (storeCalls st) ++ [diffAppend env a D]
  /\ shownDiffs st' = {[D]} ∪ shownDiffs st.
Proof.
  intros HD Hnew st'. subst st'. unfold handleCodexEvent; hsimpl.
  apply truthy_true in HD. simpl Js.orEmpty. rewrite HD. simpl negb.
  rewrite bool_decide_eq_false_2 by done.
  by rewrite addsOf_addMessageToStore, shownDiffs_addMessageToStore.
Qed.

Lemma turn_diff_seen env a i D st :
  D ∈ shownDiffs st ->
  handleCodexEvent env a (ev i (turn_diff (Some D))) st = st.
Proof.
  intros Hin. unfold handleCodexEvent; hsimpl.
  destruct (negb _); [done|]. by rewrite bool_decide_eq_true_2.
Qed.

(** C8. For a diff text [D] that is not empty: a [turn_diff] carrying [D]
    when [D] is not in the turn's set appends the diff entry and puts [D] in
    the set; a repeat while [D] is in the set changes nothing;
    [turn_started], [turn_complete] and [turn_aborted] empty the set, so the
    next [turn_diff] with [D] is shown again.  [task_started] and
    [task_complete], the other turn-start and turn-end events, do not empty
    it: after any number of them [D] is still in the set and the next
    [turn_diff] with [D] is not shown.  No other input, event or frame
    callback, takes anything out of the set. *)
Theorem diff_dedup env (D : string) :
  D <> "" ->
  (forall a i st, D ∉ shownDiffs st ->
     let st' := handleCodexEvent env a (ev i (turn_diff (Some D))) st in
     addsOf (storeCalls st') = addsOf (storeCalls st) ++ [diffAppend env a D]
     /\ D ∈ shownDiffs st')
  /\ (forall a i st, D ∈ shownDiffs st ->
        handleCodexEvent env a (ev i (turn_diff (Some D))) st = st)
  /\ (forall a1 a2 a3 a4 i1 i2 i3 i4 boundary st,
        boundary ∈ [turn_started; turn_complete; turn_aborted] ->
        D ∉ shownDiffs st ->
        let st1 := handleCodexEvent env a1 (ev i1 (turn_diff (Some D))) st in
        let st2 := handleCodexEvent env a2 (ev i2 (turn_diff (Some D))) st1 in
        let st3 := handleCodexEvent env a3 (ev i3 boundary) st2 in
        let st4 := handleCodexEvent env a4 (ev i4 (turn_diff (Some D))) st3 in
        addsOf (storeCalls st1) = addsOf (storeCalls st) ++ [diffAppend env a1 D]
        /\ st2 = st1
        /\ shownDiffs st3 = ∅
        /\ addsOf (storeCalls st4) = addsOf (storeCalls st3) ++ [diffAppend env a4 D])
  /\ (forall a1 a4 i1 i4 (boundaries : list (Ambient * CodexEvent)) st,
        Forall (fun b => msg b.2 ∈ [task_started; task_complete]) boundaries ->
        D ∉ shownDiffs st ->
        let st1 := handleCodexEvent env a1 (ev i1 (turn_diff (Some D))) st in
        let st3 := run env (map (fun b => InEvent b.1 b.2) boundaries) st1 in
        let st4 := handleCodexEvent env a4 (ev i4 (turn_diff (Some D))) st3 in
        addsOf (storeCalls st1) = addsOf (storeCalls st) ++ [diffAppend env a1 D]
        /\ D ∈ shownDiffs st3
        /\ st4 = st3)
  /\ (forall input st,
        (forall a e, input = InEvent a e -> clearsDiffs (msg e) = false) ->
        shownDiffs st ⊆ shownDiffs (react env st input)).
Proof.
  intros HD.
  assert (Hkeep : forall input st,
            (forall a e, input = InEvent a e -> clearsDiffs (msg e) = false) ->
            shownDiffs st ⊆ shownDiffs (react env st input)).
  { intros input st Hin. destruct input as [a e | h |]; simpl.
    + apply shownDiffs_kept. by apply (Hin a e).
    + by rewrite shownDiffs_fire.
    + unfold animationFrame. by rewrite shownDiffs_fires. }
  split; [|split; [|split; [|split]]].
  - intros a i st Hnew st'.
    destruct (turn_diff_new env a i D st HD Hnew) as [Hadd Hset].
    split; [done|]. subst st'. rewrite Hset.
    by apply elem_of_union_l, elem_of_singleton.
  - intros a i st. apply turn_diff_seen.
  - intros a1 a2 a3 a4 i1 i2 i3 i4 boundary st Hb Hnew st1 st2 st3 st4.
    destruct (turn_diff_new env a1 i1 D st HD Hnew) as [H1 H1'].
    assert (H2 : st2 = st1).
    { apply turn_diff_seen. subst st1. rewrite H1'.
      by apply elem_of_union_l, elem_of_singleton. }
    assert (H3 : shownDiffs st3 = ∅).
    { apply shownDiffs_cleared. simpl.
      repeat (apply elem_of_cons in Hb as [-> | Hb]; [done|]).
      by apply elem_of_nil in Hb. }
    split; [done|]. split; [done|]. split; [done|].
    apply turn_diff_new; [done|]. rewrite H3. apply not_elem_of_empty.
  - intros a1 a4 i1 i4 boundaries st Hb Hnew st1 st3 st4.
    destruct (turn_diff_new env a1 i1 D st HD Hnew) as [H1 H1'].
    assert (Hin1 : D ∈ shownDiffs st1).
    { subst st1. rewrite H1'. by apply elem_of_union_l, elem_of_singleton. }
    assert (Hrun : forall s, D ∈ shownDiffs s ->
              D ∈ shownDiffs (run env (map (fun b => InEvent b.1 b.2) boundaries) s)).
    { clear st1 st3 st4 H1 H1' Hin1 Hnew.
      induction Hb as [|b bs Hb _ IH]; intros s Hs; [done|].
      cbn [map]. unfold run in *. cbn [fold_left]. apply IH.
      apply (Hkeep (InEvent b.1 b.2) s); [|done].
      intros a e [= <- <-].
      repeat (apply elem_of_cons in Hb as [-> | Hb]; [done|]).
      by apply elem_of_nil in Hb. }
    assert (Hin3 : D ∈ shownDiffs st3) by (by apply Hrun).
    split; [done|]. split; [done|]. by apply turn_diff_seen.
  - exact Hkeep.
Qed.

Lemma diff_dedup_witness :
  let env := browserEnv "s" ["s"] in
  let d := ev "d" (turn_diff (Some "--- a")) in
  let st1 := handleCodexEvent env (amb 1) d initialState in
  let st2 := handleCodexEvent env (amb 2) (ev "t" task_complete) st1 in
  let st3 := handleCodexEvent env (amb 3) (ev "t" task_started) st2 in
  let st4 := handleCodexEvent env (amb 4) d st3 in
  addsOf (storeCalls st1) = [diffAppend env (amb 1) "--- a"]
  /\ "--- a" ∈ shownDiffs st3
  /\ st4 = st3.
Proof.
  intros env d.
  destruct (diff_dedup env "--- a" ltac:(discriminate)) as (_ & _ & _ & H & _).
  apply (H (amb 1) (amb 4) "d" "d"
           [(amb 2, ev "t" task_complete); (amb 3, ev "t" task_started)] initialState).
  - repeat constructor.
  - apply not_elem_of_empty.
Defined.

(** ** The decoder on ASCII text *)

Lemma go_ascii bs :
  Forall (fun b => 0 <= b <= 127) bs -> Utf8.go Utf8.idle bs = bs.
Proof.
  induction 1 as [|b bs Hb _ IH]; [done|].
  cbn [Utf8.go Utf8.needed Utf8.idle]. change (0 =? 0) with true. cbn iota.
  unfold Utf8.lead. replace (b <=? 127) with true by (symmetry; apply Z.leb_le; lia).
  cbn [app]. fold Utf8.idle. by rewrite IH.
Qed.

Lemma encode_ascii bs :
  Forall (fun b => 0 <= b <= 127) bs -> concat (map Utf8.encode bs) = bs.
Proof.
  induction 1 as [|b bs Hb _ IH]; [done|].
  cbn [map concat]. unfold Utf8.encode at 1.
  replace (b <=? 127) with true by (symmetry; apply Z.leb_le; lia).
  cbn [app]. by rewrite IH.
Qed.

Lemma toUint8_ascii bs :
  Forall (fun b => 0 <= b <= 127) bs -> Utf8.toUint8 bs = bs.
Proof.
  induction 1 as [|b bs Hb _ IH]; [done|].
  unfold Utf8.toUint8 in *. cbn [map]. rewrite IH.
  by rewrite Z.mod_small by lia.
Qed.

Lemma dropBom_ascii bs :
  Forall (fun b => 0 <= b <= 127) bs -> Utf8.dropBom bs = bs.
Proof.
  intros H. destruct H as [|b bs Hb _]; [done|].
  unfold Utf8.dropBom. destruct b as [|p|p]; try done.
  do 8 (destruct p as [p|p|]; try done); lia.
Qed.

Lemma bytesToString_bytes s : Utf8.bytesToString (bytes s) = s.
Proof.
  unfold Utf8.bytesToString, bytes. rewrite map_map.
  induction s as [|c s IH]; [done|].
  cbn [list_ascii_of_string map string_of_list_ascii].
  rewrite N2Z.id, ascii_N_embedding. by rewrite IH.
Qed.

(** On the bytes of ASCII text the platform's decoder gives the text
    back. *)
Lemma decode_ascii s : isAscii s -> Utf8.decode (bytes s) = s.
Proof.
  intros H. unfold Utf8.decode.
  rewrite toUint8_ascii, dropBom_ascii, go_ascii, encode_ascii by done.
  apply bytesToString_bytes.
Qed.

(** ** The exec lifecycle *)

Lemma exec_begin_effect env a i callId cmd cwd st :
  let st' := handleCodexEvent env a (ev i (exec_command_begin callId cmd cwd)) st in
  execStreams st'
    = <[callId := {| messageId := execId env a callId; buffer := execHeader cmd cwd |}]>
        (execStreams st)
  /\ storeCalls st'
     = storeCalls st
         ++ (if bool_decide (sessionId env ∈ conversations env) then []
             else [CreateConversation "New Chat" "agent" (sessionId env)])
         ++ [AddMessage (sessionId env)
               {| msg_id := execId env a callId; role := role_system;
                  content := execHeader cmd cwd; timestamp := new_date a |};
             SetSessionLoading (sessionId env) true].
Proof.
  unfold handleCodexEvent; hsimpl.
  destruct (addMessageToStore_refs env
    {| cm_id := execId env a callId; cm_type := system;
       cm_content := execHeader cmd cwd; cm_timestamp := new_date a;
       cm_isStreaming := Some true |} st) as (_ & _ & Hexec & _).
  split.
  - unfold execId, execHeader in *. by rewrite Hexec.
  - unfold execId, execHeader in *. rewrite storeCalls_addMessageToStore.
    by rewrite <- !app_assoc.
Qed.

Lemma exec_delta_effect env a i callId chunk st e :
  execStreams st !! callId = Some e ->
  let st' := handleCodexEvent env a (ev i (exec_command_output_delta callId chunk)) st in
  execStreams st'
    = <[callId := {| messageId := messageId e;
                     buffer := buffer e +:+ execText env chunk |}]> (execStreams st)
  /\ storeCalls st'
     = storeCalls st
         ++ [UpdateMessage (sessionId env) (messageId e)
               (contentPatch (buffer e +:+ execText env chunk))].
Proof. intros He. unfold handleCodexEvent; hsimpl. by rewrite He. Qed.

Lemma exec_end_effect env a i callId code st e :
  execStreams st !! callId = Some e ->
  let st' := handleCodexEvent env a (ev i (exec_command_end callId code)) st in
  execStreams st' = delete callId (execStreams st)
  /\ storeCalls st'
     = storeCalls st
         ++ [UpdateMessage (sessionId env) (messageId e)
               (finalPatch (buffer e +:+ Js.nl +:+ "exit " +:+ Js.showZ code));
             SetSessionLoading (sessionId env) false].
Proof.
  intros He. unfold handleCodexEvent; hsimpl. rewrite He. hsimpl.
  by rewrite <- app_assoc.
Qed.

Lemma bool_decide_refl {A} `{EqDecision A} (x : A) : bool_decide (x = x) = true.
Proof. by apply bool_decide_eq_true_2. Qed.

(** C7. From the initial state, [exec_command_begin] for call [c1] with
    command [ls -la] and cwd [/tmp], two output deltas carrying the bytes of
    [file1\n] and [file2\n], then [exec_command_end] with exit code 0, leave
    one transcript entry; its content is
    [cwd: /tmp\n$ ls -la\nfile1\nfile2\n\nexit 0], its streaming flag is
    false, and the exec stream of [c1] is gone. *)
Theorem exec_lifecycle sid convs a1 a2 a3 a4 i1 i2 i3 i4 :
  let env := browserEnv sid convs in
  let st :=
    run env
      [InEvent a1 (ev i1 (exec_command_begin "c1" (Some ["ls"; "-la"]) (Some "/tmp")));
       InEvent a2 (ev i2 (exec_command_output_delta "c1"
                            (Some (bytes ("file1" +:+ Js.nl)))));
       InEvent a3 (ev i3 (exec_command_output_delta "c1"
                            (Some (bytes ("file2" +:+ Js.nl)))));
       InEvent a4 (ev i4 (exec_command_end "c1" 0))]
      initialState in
  transcript (storeView sid (storeCalls st))
    = [{| entry_id := sid +:+ "-exec-c1-" +:+ Js.showZ (date_now a1);
          entry_role := role_system;
          entry_content :=
            "cwd: /tmp" +:+ Js.nl +:+ "$ ls -la" +:+ Js.nl +:+ "file1" +:+ Js.nl
              +:+ "file2" +:+ Js.nl +:+ Js.nl +:+ "exit 0";
          entry_timestamp := new_date a1;
          entry_isStreaming := Some false |}]
  /\ length (addsOf (storeCalls st)) = 1%nat
  /\ execStreams st !! "c1" = None.
Proof.
  intros env st. subst st. unfold run. cbn [fold_left react].
  set (st1 := handleCodexEvent env a1 _ initialState).
  destruct (exec_begin_effect env a1 i1 "c1" (Some ["ls"; "-la"]) (Some "/tmp")
              initialState) as [Hs1 Hc1].
  fold st1 in Hs1, Hc1.
  set (e1 := {| messageId := execId env a1 "c1";
                buffer := execHeader (Some ["ls"; "-la"]) (Some "/tmp") |}) in *.
  assert (Hl1 : execStreams st1 !! "c1" = Some e1)
    by (rewrite Hs1; apply lookup_insert_eq).
  set (st2 := handleCodexEvent env a2 _ st1).
  destruct (exec_delta_effect env a2 i2 "c1" (Some (bytes ("file1" +:+ Js.nl)))
              st1 e1 Hl1) as [Hs2 Hc2].
  fold st2 in Hs2, Hc2.
  set (e2 := {| messageId := messageId e1; buffer := _ |}) in *.
  assert (Hl2 : execStreams st2 !! "c1" = Some e2)
    by (rewrite Hs2; apply lookup_insert_eq).
  set (st3 := handleCodexEvent env a3 _ st2).
  destruct (exec_delta_effect env a3 i3 "c1" (Some (bytes ("file2" +:+ Js.nl)))
              st2 e2 Hl2) as [Hs3 Hc3].
  fold st3 in Hs3, Hc3.
  set (e3 := {| messageId := messageId e2; buffer := _ |}) in *.
  assert (Hl3 : execStreams st3 !! "c1" = Some e3)
    by (rewrite Hs3; apply lookup_insert_eq).
  destruct (exec_end_effect env a4 i4 "c1" 0 st3 e3 Hl3) as [Hs4 Hc4].
  rewrite Hs4, Hc4, Hc3, Hc2, Hc1.
  split; [|split].
  - assert (Hbuf : buffer e3 +:+ Js.nl +:+ "exit " +:+ Js.showZ 0
                   = "cwd: /tmp" +:+ Js.nl +:+ "$ ls -la" +:+ Js.nl +:+ "file1"
                       +:+ Js.nl +:+ "file2" +:+ Js.nl +:+ Js.nl +:+ "exit 0")
      by (vm_compute; reflexivity).
    rewrite Hbuf. clear Hbuf.
    unfold storeView. rewrite !fold_left_app.
    assert (Hpre :
      fold_left (storeCall sid)
        (if bool_decide (sessionId env ∈ conversations env) then []
         else [CreateConversation "New Chat" "agent" (sessionId env)])
        (fold_left (storeCall sid) (storeCalls initialState)
           {| transcript := []; loading := false |})
      = {| transcript := []; loading := false |}) by (by case_bool_decide).
    rewrite Hpre. clear Hpre. cbn [fold_left storeCall].
    change (sessionId env) with sid.
    rewrite !bool_decide_refl.
    cbn [transcript loading map msg_id role content timestamp app
         messageId e1 e2 e3 entry_id].
    rewrite !bool_decide_refl.
    reflexivity.
  - rewrite !addsOf_app. by case_bool_decide.
  - by rewrite lookup_delete_eq.
Qed.

(** ** The flush scheduler *)

Lemma flush_inv_sched st st' : sched st' = sched st -> flush_inv st -> flush_inv st'.
Proof.
  unfold sched. intros [= Ha Hr Hq Hn] [H1 H2 H3 H4].
  split; rewrite ?Hq, ?Hn; try done.
  intros w i h. rewrite <- H4. by destruct w; simpl; rewrite ?Ha, ?Hr.
Qed.

Lemma flush_inv_initial : flush_inv initialState.
Proof.
  split; simpl.
  - constructor.
  - constructor.
  - intros h k H. by apply elem_of_nil in H.
  - intros w i h. destruct w; simpl; rewrite lookup_empty; split; [done| |done|];
      intros H; by apply elem_of_nil in H.
Qed.

Lemma sched_addMessageToStore env m st :
  sched (addMessageToStore env m st) = sched st.
Proof. unfold addMessageToStore. by case_bool_decide. Qed.

Lemma sched_reasoningFinalCase env a i t st :
  sched (reasoningFinalCase env a i t st) = sched st.
Proof.
  unfold reasoningFinalCase.
  destruct (reasoningStreams st !! i); [done|].
  destruct (Js.truthy (Js.orEmpty t)); [|done].
  match goal with
  | |- sched (setSessionLoading _ _ ?x) = _ => change (sched x = sched st)
  end.
  apply sched_addMessageToStore.
Qed.

Lemma in_queue_key (q : list (Z * FlushKey)) h k : (h, k) ∈ q -> k ∈ q.*2.
Proof. intros H. apply list_elem_of_fmap. by exists (h, k). Qed.

Lemma flush_inv_flagged st w i :
  flush_inv st -> (is_Some (flagsOf w st !! i) <-> (w, i) ∈ (frameCallbacks st).*2).
Proof.
  intros [_ _ _ H4]. split.
  - intros [h Hh]. apply H4 in Hh. by apply in_queue_key in Hh.
  - intros Hk. apply list_elem_of_fmap in Hk as ([h k] & Hk & Hin).
    simpl in Hk. subst k. exists h. by apply H4.
Qed.

Lemma flagsOf_set_flags w w' v st :
  flagsOf w (set_flags w' v st) = if decide (w = w') then v else flagsOf w st.
Proof. by destruct w, w'. Qed.

Lemma flush_inv_scheduleFlush w i st :
  flush_inv st -> flush_inv (scheduleFlush w i st).
Proof.
  intros Hinv. unfold scheduleFlush. case_bool_decide as Hflag; [done|].
  assert (Hnew : (w, i) ∉ (frameCallbacks st).*2).
  { intros Hk. apply Hflag. by apply flush_inv_flagged. }
  destruct Hinv as [H1 H2 H3 H4].
  assert (Hh : nextHandle st ∉ (frameCallbacks st).*1).
  { intros Hin. apply list_elem_of_fmap in Hin as ([h k] & Heq & Hin).
    simpl in Heq. subst h. apply H3 in Hin. lia. }
  split.
  - destruct w; hsimpl; rewrite fmap_app; apply NoDup_app;
      (split; [done|]); (split; [|apply NoDup_singleton]);
      intros x Hx Hx'; apply list_elem_of_singleton in Hx'; by subst.
  - destruct w; hsimpl; rewrite fmap_app; apply NoDup_app;
      (split; [done|]); (split; [|apply NoDup_singleton]);
      intros x Hx Hx'; apply list_elem_of_singleton in Hx'; by subst.
  - intros h k Hin.
    assert (Hin' : (h, k) ∈ frameCallbacks st ++ [(nextHandle st, (w, i))])
      by (by destruct w).
    assert (Hn : nextHandle (set_flags w
               (<[i := nextHandle st]>
                  (flagsOf w (set_frame (frameCallbacks st ++ [(nextHandle st, (w, i))])
                                (nextHandle st + 1) st)))
               (set_frame (frameCallbacks st ++ [(nextHandle st, (w, i))])
                  (nextHandle st + 1) st)) = nextHandle st + 1)
      by (by destruct w).
    rewrite Hn. apply elem_of_app in Hin' as [Hin' | Hin'].
    + apply H3 in Hin'. lia.
    + apply list_elem_of_singleton in Hin'. injection Hin' as -> _. lia.
  - intros w' j h.
    assert (Hq : frameCallbacks (set_flags w
               (<[i := nextHandle st]>
                  (flagsOf w (set_frame (frameCallbacks st ++ [(nextHandle st, (w, i))])
                                (nextHandle st + 1) st)))
               (set_frame (frameCallbacks st ++ [(nextHandle st, (w, i))])
                  (nextHandle st + 1) st))
             = frameCallbacks st ++ [(nextHandle st, (w, i))])
      by (by destruct w).
    rewrite Hq, flagsOf_set_flags, elem_of_app, list_elem_of_singleton.
    case_decide as Hw.
    + subst w'.
      assert (Hf : flagsOf w (set_frame (frameCallbacks st ++ [(nextHandle st, (w, i))])
                                (nextHandle st + 1) st) = flagsOf w st)
        by (by destruct w).
      rewrite Hf. destruct (decide (j = i)) as [-> | Hj].
      * rewrite lookup_insert_eq. split.
        -- intros [= <-]. by right.
        -- intros [Hin | [= -> ]]; [|done].
           exfalso. apply Hnew. by apply in_queue_key in Hin.
      * rewrite lookup_insert_ne by done. rewrite H4. split; [by left|].
        intros [Hin | [= _ Hij]]; [done | congruence].
    + assert (Hf : flagsOf w' (set_frame (frameCallbacks st ++ [(nextHandle st, (w, i))])
                                (nextHandle st + 1) st) = flagsOf w' st)
        by (by destruct w').
      rewrite Hf, H4. split; [by left|].
      intros [Hin | [= _ Hww _]]; [done | congruence].
Qed.

Lemma sched_scheduleFlush_congr w i st1 st2 :
  sched st1 = sched st2 -> sched (scheduleFlush w i st1) = sched (scheduleFlush w i st2).
Proof.
  unfold sched. intros [= Ha Hr Hq Hn]. unfold scheduleFlush.
  assert (Hf : flagsOf w st1 = flagsOf w st2) by (by destruct w).
  rewrite Hf, Hq, Hn. case_bool_decide.
  - congruence.
  - destruct w; hsimpl; congruence.
Qed.

Lemma scheduleFlush_others w i st :
  let st' := scheduleFlush w i st in
  agentStreams st' = agentStreams st
  /\ reasoningStreams st' = reasoningStreams st
  /\ execStreams st' = execStreams st
  /\ storeCalls st' = storeCalls st.
Proof. unfold scheduleFlush. case_bool_decide; [done|]. by destruct w. Qed.

Lemma scheduleFlush_flagged w i st : is_Some (flagsOf w (scheduleFlush w i st) !! i).
Proof.
  unfold scheduleFlush. case_bool_decide; [done|].
  rewrite flagsOf_set_flags. case_decide; [|done]. by rewrite lookup_insert_eq.
Qed.

Lemma streamsOf_set_streams w w' v st :
  streamsOf w (set_streams w' v st) = if decide (w = w') then v else streamsOf w st.
Proof. by destruct w, w'. Qed.

(** A delta that is not empty: the entry (made first when the id has none)
    gets the delta at the end of its buffer, a flush is requested, and no
    [updateMessage] is issued. *)
Lemma deltaCase_effect env w label a i d st :
  d <> "" ->
  let st' := deltaCase env w label a i (Some d) st in
  let e0 := default (freshEntry env label a) (streamsOf w st !! i) in
  streamsOf w st' !! i
    = Some {| messageId := messageId e0; buffer := buffer e0 +:+ d |}
  /\ updatesOf (storeCalls st') = updatesOf (storeCalls st)
  /\ sched st' = sched (scheduleFlush w i st).
Proof.
  intros Hd. apply truthy_true in Hd. unfold deltaCase. simpl Js.orEmpty.
  destruct (streamsOf w st !! i) as [e|] eqn:He; rewrite Hd; simpl default.
  - set (st1 := set_streams w _ st).
    destruct (scheduleFlush_others w i st1) as (Ha & Hr & _ & Hc).
    split; [|split].
    + destruct w; hsimpl; rewrite ?Ha, ?Hr; subst st1; hsimpl;
        by rewrite lookup_insert_eq.
    + rewrite Hc. by destruct w.
    + apply sched_scheduleFlush_congr. by destruct w.
  - set (m := {| cm_id := _; cm_type := agent |}).
    set (st0 := set_streams w _ st).
    set (st1 := set_streams w _ (addMessageToStore env m st0)).
    destruct (scheduleFlush_others w i st1) as (Ha & Hr & _ & Hc).
    split; [|split].
    + destruct w; hsimpl; rewrite ?Ha, ?Hr; subst st1; hsimpl;
        by rewrite lookup_insert_eq.
    + rewrite Hc.
      assert (Hc1 : storeCalls st1 = storeCalls (addMessageToStore env m st0))
        by (by destruct w).
      rewrite Hc1, updatesOf_addMessageToStore. by destruct w.
    + apply sched_scheduleFlush_congr.
      transitivity (sched (addMessageToStore env m st0)); [by destruct w|].
      rewrite sched_addMessageToStore. by destruct w.
Qed.

Lemma deltaCase_empty_sched env w label a i d st :
  Js.orEmpty d = "" -> sched (deltaCase env w label a i d st) = sched st.
Proof.
  intros Hd. unfold deltaCase. rewrite Hd. simpl Js.truthy.
  destruct (streamsOf w st !! i) as [e|]; [done|].
  rewrite sched_addMessageToStore. by destruct w.
Qed.

Lemma flush_inv_deltaCase env w label a i d st :
  flush_inv st -> flush_inv (deltaCase env w label a i d st).
Proof.
  intros Hinv. destruct (Js.orEmpty d) as [|c s] eqn:Hd.
  - eapply flush_inv_sched; [by apply deltaCase_empty_sched|done].
  - destruct d as [d|]; [|done]. simpl in Hd.
    destruct (deltaCase_effect env w label a i d st) as (_ & _ & Hs);
      [by rewrite Hd|].
    eapply flush_inv_sched; [exact Hs|]. by apply flush_inv_scheduleFlush.
Qed.

Lemma sched_handleCodexEvent env a e st :
  isDelta (msg e) = false -> sched (handleCodexEvent env a e st) = sched st.
Proof.
  destruct e as [i m]. destruct m; simpl; try discriminate; intros _;
    unfold handleCodexEvent; hsimpl; rewrite ?sched_reasoningFinalCase;
    repeat case_match; try done;
    repeat match goal with
      | |- sched (setSessionLoading _ _ ?x) = _ => change (sched x = sched st)
      | |- sched (set_execStreams _ ?x) = _ => change (sched x = sched st)
      | |- sched (set_shownDiffs _ ?x) = _ => change (sched x = sched st)
      | |- sched (set_currentStreamingBuffer _ ?x) = _ => change (sched x = sched st)
      | |- sched (set_currentStreamingMessageId _ ?x) = _ => change (sched x = sched st)
      | |- sched (callController _ ?x) = _ => change (sched x = sched st)
      end;
    by rewrite ?sched_addMessageToStore.
Qed.

Lemma flush_inv_handleCodexEvent env a e st :
  flush_inv st -> flush_inv (handleCodexEvent env a e st).
Proof.
  intros Hinv. destruct (isDelta (msg e)) eqn:Hd.
  - destruct e as [i m]. destruct m; try discriminate;
      unfold handleCodexEvent; hsimpl; by apply flush_inv_deltaCase.
  - eapply flush_inv_sched; [by apply sched_handleCodexEvent|done].
Qed.

(** *** Running a callback *)

Lemma takeCallback_split h q k q' :
  takeCallback h q = Some (k, q') ->
  exists q1 q2, q = q1 ++ (h, k) :: q2 /\ q' = q1 ++ q2 /\ h ∉ q1.*1.
Proof.
  revert k q'. induction q as [|[h' k'] q IH]; intros k q'; simpl; [done|].
  case_bool_decide as Hh.
  - intros [= <- <-]. subst h'. exists [], q. split; [done|]. split; [done|].
    simpl. apply not_elem_of_nil.
  - destruct (takeCallback h q) as [[k1 r]|] eqn:Ht; [|done].
    intros [= <- <-]. destruct (IH k1 r eq_refl) as (q1 & q2 & -> & -> & Hn).
    exists ((h', k') :: q1), q2. split; [done|]. split; [done|].
    simpl. rewrite not_elem_of_cons. done.
Qed.

Lemma takeCallback_queued h k q :
  NoDup q.*1 -> (h, k) ∈ q -> exists q', takeCallback h q = Some (k, q').
Proof.
  induction q as [|[h' k'] q IH]; simpl; intros Hnd Hin.
  - by apply elem_of_nil in Hin.
  - apply NoDup_cons in Hnd as [Hh' Hnd]. case_bool_decide as Hh.
    + subst h'. apply elem_of_cons in Hin as [[= <-] | Hin]; [by eexists|].
      exfalso. apply Hh'. apply list_elem_of_fmap. by exists (h, k).
    + apply elem_of_cons in Hin as [[= -> _] | Hin]; [done|].
      destruct (IH Hnd Hin) as [q' ->]. by eexists.
Qed.

Lemma flushCallback_effect env w i st :
  let st' := flushCallback env w i st in
  sched st' = sched (set_flags w (delete i (flagsOf w st)) st)
  /\ agentStreams st' = agentStreams st
  /\ reasoningStreams st' = reasoningStreams st
  /\ execStreams st' = execStreams st
  /\ storeCalls st'
     = storeCalls st
         ++ match streamsOf w st !! i with
            | Some e =>
                [UpdateMessage (sessionId env) (messageId e) (contentPatch (buffer e))]
            | None => []
            end.
Proof.
  unfold flushCallback.
  assert (Hs : streamsOf w (set_flags w (delete i (flagsOf w st)) st) = streamsOf w st)
    by (by destruct w).
  rewrite Hs. destruct (streamsOf w st !! i) as [e|].
  - by destruct w.
  - destruct w; hsimpl; by rewrite app_nil_r.
Qed.

Lemma flush_inv_fire env h st : flush_inv st -> flush_inv (fire env h st).
Proof.
  intros Hinv. unfold fire.
  destruct (takeCallback h (frameCallbacks st)) as [[[w i] q']|] eqn:Ht; [|done].
  apply takeCallback_split in Ht as (q1 & q2 & Hq & -> & Hq1).
  destruct (flushCallback_effect env w i (set_frame (q1 ++ q2) (nextHandle st) st))
    as (Hs & _).
  eapply flush_inv_sched; [exact Hs|]. clear Hs.
  destruct Hinv as [H1 H2 H3 H4]. rewrite Hq in H1, H2, H3.
  rewrite fmap_app, fmap_cons in H1. rewrite fmap_app, fmap_cons in H2.
  simpl in H1, H2.
  apply NoDup_app in H1 as (H1a & H1b & H1c). apply NoDup_cons in H1c as [H1c H1d].
  apply NoDup_app in H2 as (H2a & H2b & H2c). apply NoDup_cons in H2c as [H2c H2d].
  assert (Hqueue : frameCallbacks
            (set_flags w (delete i (flagsOf w (set_frame (q1 ++ q2) (nextHandle st) st)))
               (set_frame (q1 ++ q2) (nextHandle st) st)) = q1 ++ q2)
    by (by destruct w).
  assert (Hnext : nextHandle
            (set_flags w (delete i (flagsOf w (set_frame (q1 ++ q2) (nextHandle st) st)))
               (set_frame (q1 ++ q2) (nextHandle st) st)) = nextHandle st)
    by (by destruct w).
  split; rewrite ?Hqueue, ?Hnext.
  - rewrite fmap_app. apply NoDup_app. split; [done|]. split; [|done].
    intros x Hx Hx'. apply (H1b x Hx). by right.
  - rewrite fmap_app. apply NoDup_app. split; [done|]. split; [|done].
    intros x Hx Hx'. apply (H2b x Hx). by right.
  - intros h' k' Hin. apply (H3 h' k').
    apply elem_of_app in Hin as [Hin | Hin]; apply elem_of_app; [by left|].
    right. by right.
  - intros w' j h'. rewrite flagsOf_set_flags.
    assert (Hf : forall w0, flagsOf w0 (set_frame (q1 ++ q2) (nextHandle st) st)
                            = flagsOf w0 st) by (by intros []).
    assert (Hmem : (h', (w', j)) ∈ q1 ++ q2 <->
                   (h', (w', j)) ∈ frameCallbacks st /\ (w', j) <> (w, i)).
    { rewrite Hq, !elem_of_app, elem_of_cons. split.
      - intros [Hin | Hin].
        + split; [by left|]. intros Heq. apply (H2b (w, i)); [|by left].
          rewrite <- Heq. by apply in_queue_key in Hin.
        + split; [by right; right|]. intros Heq. apply H2c.
          rewrite <- Heq. by apply in_queue_key in Hin.
      - intros [[Hin | [[= _ -> ->] | Hin]] Hne]; [by left|done|by right]. }
    rewrite Hmem, <- H4. case_decide as Hw.
    + subst w'. rewrite Hf. destruct (decide (j = i)) as [-> | Hj].
      * rewrite lookup_delete_eq. split; [done|]. by intros [_ Hne].
      * rewrite lookup_delete_ne by done. split; [|by intros [? _]].
        intros Hl. split; [done|]. congruence.
    + rewrite Hf. split; [|by intros [? _]]. intros Hl. split; [done|]. congruence.
Qed.

Lemma flush_inv_fires env hs st :
  flush_inv st -> flush_inv (fold_left (fun st h => fire env h st) hs st).
Proof.
  revert st. induction hs as [|h hs IH]; intros st Hinv; simpl; [done|].
  apply IH. by apply flush_inv_fire.
Qed.

Lemma flush_inv_react env st input : flush_inv st -> flush_inv (react env st input).
Proof.
  intros Hinv. destruct input as [a e | h |]; simpl.
  - by apply flush_inv_handleCodexEvent.
  - by apply flush_inv_fire.
  - by apply flush_inv_fires.
Qed.

Lemma flush_inv_run env inputs st : flush_inv st -> flush_inv (run env inputs st).
Proof.
  revert st. induction inputs as [|input inputs IH]; intros st Hinv; simpl; [done|].
  apply IH. by apply flush_inv_react.
Qed.

(** Under the invariant a key has one pending callback when it is flagged
    and none when it is not. *)
Lemma filter_key_absent (q : list (Z * FlushKey)) k :
  k ∉ q.*2 -> List.filter (fun c => bool_decide (c.2 = k)) q = [].
Proof.
  induction q as [|[h k'] q IH]; simpl; [done|].
  rewrite not_elem_of_cons. intros [Hne Hq].
  rewrite bool_decide_eq_false_2 by congruence. by apply IH.
Qed.

Lemma filter_key_present (q : list (Z * FlushKey)) h k :
  NoDup q.*2 -> (h, k) ∈ q ->
  List.filter (fun c => bool_decide (c.2 = k)) q = [(h, k)].
Proof.
  induction q as [|[h' k'] q IH]; simpl; intros Hnd Hin.
  - by apply elem_of_nil in Hin.
  - apply NoDup_cons in Hnd as [Hk' Hnd].
    apply elem_of_cons in Hin as [[= <- <-] | Hin].
    + rewrite bool_decide_eq_true_2 by done. by rewrite filter_key_absent.
    + rewrite bool_decide_eq_false_2.
      * by apply IH.
      * intros ->. apply Hk'. by apply in_queue_key in Hin.
Qed.

Lemma pendingFor_flagged st w i h :
  flush_inv st -> flagsOf w st !! i = Some h -> pendingFor (w, i) st = [h].
Proof.
  intros [H1 H2 H3 H4] Hh. apply H4 in Hh. unfold pendingFor.
  by rewrite (filter_key_present _ h (w, i) H2 Hh).
Qed.

Lemma pendingFor_unflagged st w i :
  flush_inv st -> flagsOf w st !! i = None -> pendingFor (w, i) st = [].
Proof.
  intros Hinv Hn. unfold pendingFor. rewrite filter_key_absent; [done|].
  intros Hk. apply (flush_inv_flagged st w i Hinv) in Hk. rewrite Hn in Hk.
  by destruct Hk.
Qed.

Lemma pendingFor_at_most_one st k : flush_inv st -> (length (pendingFor k st) <= 1)%nat.
Proof.
  intros Hinv. destruct k as [w i]. destruct (flagsOf w st !! i) as [h|] eqn:Hh.
  - by rewrite (pendingFor_flagged st w i h).
  - rewrite (pendingFor_unflagged st w i); simpl; [lia|done|done].
Qed.

(** Running the callback queued for a flagged key. *)
Lemma fire_flagged env st w i h :
  flush_inv st -> flagsOf w st !! i = Some h ->
  let st' := fire env h st in
  storeCalls st'
    = storeCalls st
        ++ match streamsOf w st !! i with
           | Some e =>
               [UpdateMessage (sessionId env) (messageId e) (contentPatch (buffer e))]
           | None => []
           end
  /\ streamsOf w st' = streamsOf w st
  /\ flagsOf w st' !! i = None.
Proof.
  intros Hinv Hh. pose proof Hinv as [H1 H2 H3 H4]. apply H4 in Hh.
  destruct (takeCallback_queued h (w, i) _ H1 Hh) as [q' Hq'].
  unfold fire. rewrite Hq'.
  destruct (flushCallback_effect env w i (set_frame q' (nextHandle st) st))
    as (Hs & Ha & Hr & _ & Hc).
  split; [|split].
  - rewrite Hc. by destruct w.
  - destruct w; hsimpl; by rewrite ?Ha, ?Hr.
  - unfold sched in Hs. injection Hs as Hfa Hfr _ _.
    destruct w; hsimpl; rewrite ?Hfa, ?Hfr; hsimpl; apply lookup_delete_eq.
Qed.

(** *** Deltas between two ticks *)

Lemma append_assoc (a b c : string) : (a +:+ b) +:+ c = a +:+ b +:+ c.
Proof.
  induction a as [|x a IH]; [done|].
  change (String x ((a +:+ b) +:+ c) = String x (a +:+ b +:+ c)). by rewrite IH.
Qed.

Lemma append_empty_r (a : string) : a +:+ "" = a.
Proof.
  induction a as [|x a IH]; [done|].
  change (String x (a +:+ "") = String x a). by rewrite IH.
Qed.

Lemma handle_deltaMsg env t a i d st :
  handleCodexEvent env a (ev i (deltaMsg t d)) st
  = deltaCase env (deltaChannel t) (deltaLabel t) a i (Some d) st.
Proof. by destruct t. Qed.

Lemma run_app env xs ys st : run env (xs ++ ys) st = run env ys (run env xs st).
Proof. unfold run. apply fold_left_app. Qed.

Lemma deltas_effect env t i ds a d st :
  flush_inv st ->
  Forall (fun p => p.2 <> "") ((a, d) :: ds) ->
  let w := deltaChannel t in
  let e0 := default (freshEntry env (deltaLabel t) a) (streamsOf w st !! i) in
  let st1 := run env (deltaInputs t i ((a, d) :: ds)) st in
  flush_inv st1
  /\ streamsOf w st1 !! i
     = Some {| messageId := messageId e0;
               buffer := buffer e0 +:+ joined ((a, d) :: ds) |}
  /\ updatesOf (storeCalls st1) = updatesOf (storeCalls st)
  /\ is_Some (flagsOf w st1 !! i).
Proof.
  revert a d st. induction ds as [|[a' d'] ds IH]; intros a d st Hinv Hne w e0 st1;
    subst w e0 st1; apply Forall_cons in Hne as [Hd Hne]; simpl in Hd;
    destruct (deltaCase_effect env (deltaChannel t) (deltaLabel t) a i d st Hd)
      as (Hs & Hu & Hsch);
    pose proof (flush_inv_deltaCase env (deltaChannel t) (deltaLabel t) a i
                  (Some d) st Hinv) as Hinv1.
  - simpl. rewrite handle_deltaMsg.
    split; [done|]. split; [by rewrite append_empty_r|]. split; [done|].
    unfold sched in Hsch. injection Hsch as Hfa Hfr _ _.
    pose proof (scheduleFlush_flagged (deltaChannel t) i st) as Hfl.
    by destruct (deltaChannel t); hsimpl; rewrite ?Hfa, ?Hfr.
  - change (deltaInputs t i ((a, d) :: (a', d') :: ds))
      with ([InEvent a (ev i (deltaMsg t d))] ++ deltaInputs t i ((a', d') :: ds)).
    rewrite run_app.
    change (run env [InEvent a (ev i (deltaMsg t d))] st)
      with (handleCodexEvent env a (ev i (deltaMsg t d)) st).
    rewrite handle_deltaMsg.
    destruct (IH a' d' _ Hinv1 Hne) as (Hinv2 & Hs2 & Hu2 & Hf2).
    split; [done|]. split; [|split; [by rewrite Hu2|done]].
    rewrite Hs2, Hs. cbn [default from_option Datatypes.id messageId buffer].
    rewrite append_assoc. reflexivity.
Qed.

(** C5. In any state the hook can reach, let deltas that are not empty
    arrive for one stream id on the agent or the reasoning channel.  While
    they arrive no [updateMessage] is issued and exactly one flush callback
    is pending for the key.  When that callback runs it issues exactly one
    [updateMessage], whose content is the buffer at that time: what the
    stream held before followed by all the deltas (["abc"] for ["a"], ["b"],
    ["c"] on a new stream); after it nothing is pending for the key.  Deltas
    that arrive after the tick queue one new callback, which issues a second
    [updateMessage] with the longer buffer.  And in every reachable state a
    key has at most one pending callback. *)
Theorem delta_coalescing env inputs t i a d ds a' d' ds' :
  Forall (fun p => p.2 <> "") ((a, d) :: ds) ->
  Forall (fun p => p.2 <> "") ((a', d') :: ds') ->
  let w := deltaChannel t in
  let st := run env inputs initialState in
  let e0 := default (freshEntry env (deltaLabel t) a) (streamsOf w st !! i) in
  let text1 := buffer e0 +:+ joined ((a, d) :: ds) in
  let text2 := text1 +:+ joined ((a', d') :: ds') in
  let st1 := run env (deltaInputs t i ((a, d) :: ds)) st in
  (forall k inputs',
      (length (pendingFor k (run env inputs' initialState)) <= 1)%nat)
  /\ updatesOf (storeCalls st1) = updatesOf (storeCalls st)
  /\ exists h,
       pendingFor (w, i) st1 = [h]
       /\ let st2 := fire env h st1 in
          storeCalls st2 = storeCalls st1 ++ [flushWrite env e0 text1]
          /\ pendingFor (w, i) st2 = []
          /\ let st3 := run env (deltaInputs t i ((a', d') :: ds')) st2 in
             updatesOf (storeCalls st3)
               = updatesOf (storeCalls st) ++ [flushWrite env e0 text1]
             /\ exists h',
                  pendingFor (w, i) st3 = [h']
                  /\ storeCalls (fire env h' st3)
                     = storeCalls st3 ++ [flushWrite env e0 text2].
Proof.
  intros Hds Hds' w st e0 text1 text2 st1.
  assert (Hinv : flush_inv st) by apply flush_inv_run, flush_inv_initial.
  split.
  { intros k inputs'. apply pendingFor_at_most_one, flush_inv_run, flush_inv_initial. }
  destruct (deltas_effect env t i ds a d st Hinv Hds) as (Hinv1 & Hs1 & Hu1 & [h Hh]).
  fold w st1 in Hinv1, Hs1, Hu1, Hh. fold e0 in Hs1. fold text1 in Hs1.
  split; [done|]. exists h.
  split; [by apply pendingFor_flagged|].
  destruct (fire_flagged env st1 w i h Hinv1 Hh) as (Hc2 & Hs2 & Hf2).
  pose proof (flush_inv_fire env h st1 Hinv1) as Hinv2.
  set (st2 := fire env h st1) in *. cbn zeta.
  rewrite Hs1 in Hc2. cbn [messageId buffer] in Hc2.
  split; [done|]. split; [by apply pendingFor_unflagged|].
  destruct (deltas_effect env t i ds' a' d' st2 Hinv2 Hds')
    as (Hinv3 & Hs3 & Hu3 & [h' Hh']).
  fold w in Hs3, Hh'. set (st3 := run env _ st2) in *.
  rewrite Hs2, Hs1 in Hs3. cbn [default from_option Datatypes.id messageId buffer] in Hs3.
  split.
  { rewrite Hu3, Hc2, updatesOf_app, Hu1. done. }
  exists h'. split; [by apply pendingFor_flagged|].
  destruct (fire_flagged env st3 w i h' Hinv3 Hh') as (Hc4 & _).
  rewrite Hc4, Hs3. done.
Qed.

Lemma delta_coalescing_witness :
  let env := browserEnv "s" ["s"] in
  let st1 :=
    run env
      (deltaInputs delta_agent "m1" [(amb 1, "a"); (amb 2, "b"); (amb 3, "c")])
      initialState in
  updatesOf (storeCalls st1) = []
  /\ exists h,
       pendingFor (which_agent, "m1") st1 = [h]
       /\ storeCalls (fire env h st1)
          = storeCalls st1
              ++ [UpdateMessage "s" "s-agent-1" (contentPatch "abc")].
Proof.
  intros env st1.
  destruct (delta_coalescing env [] delta_agent "m1" (amb 1) "a"
              [(amb 2, "b"); (amb 3, "c")] (amb 4) "d" [])
    as (_ & Hu & h & Hp & Hc & _).
  - repeat constructor; discriminate.
  - repeat constructor; discriminate.
  - split; [exact Hu|]. exists h. split; [exact Hp|]. exact Hc.
Defined.

(** The same on a whole animation frame: three deltas, one frame, one
    write of ["abc"]; one more delta, one more frame, one more write. *)
Example delta_coalescing_frames :
  let env := browserEnv "s" ["s"] in
  let st :=
    run env
      (deltaInputs delta_agent "m1" [(amb 1, "a"); (amb 2, "b"); (amb 3, "c")]
         ++ [InFrame]
         ++ deltaInputs delta_agent "m1" [(amb 4, "d")]
         ++ [InFrame; InFrame])
      initialState in
  updatesOf (storeCalls st)
  = [UpdateMessage "s" "s-agent-1" (contentPatch "abc");
     UpdateMessage "s" "s-agent-1" (contentPatch "abcd")].
Proof. vm_compute. reflexivity. Qed.

(** ** The turn lifecycle and the streams *)

(** No lifecycle event reads or writes the stream maps, the flush flags or
    the queued callbacks, and none issues an [updateMessage]: they act on
    the [StreamController], on [currentStreamingMessageId], on the diff set
    and on the loading flag only. *)
Lemma lifecycle_keeps_streams env a e st :
  isLifecycle (msg e) = true ->
  let st' := handleCodexEvent env a e st in
  agentStreams st' = agentStreams st
  /\ reasoningStreams st' = reasoningStreams st
  /\ execStreams st' = execStreams st
  /\ sched st' = sched st
  /\ updatesOf (storeCalls st') = updatesOf (storeCalls st).
Proof.
  destruct e as [i m]. destruct m; simpl; try discriminate; intros _;
    unfold handleCodexEvent; hsimpl; repeat case_match; hsimpl;
    rewrite ?updatesOf_app; cbn [updatesOf List.filter isUpdate];
    rewrite ?app_nil_r; try done.
  all: repeat split; try done.
  all: match goal with
       | |- sched (set_shownDiffs _ (set_currentStreamingBuffer _
                     (set_currentStreamingMessageId _ (callController _
                        (setSessionLoading _ _ ?x))))) = _ =>
           change (sched x = sched st)
       end.
  all: apply sched_addMessageToStore.
Qed.

(** C1 (the code at the failing input).  After turn N above, a
    [turn_complete] and the [turn_started] of turn N+1, the agent, reasoning
    and exec entries of turn N are still in their maps and both flushes of
    turn N are still pending; only the diff set is empty.  The same holds
    right after the [turn_complete]. *)
Theorem turn_boundary_keeps_streams :
  let env := browserEnv "s" ["s"] in
  let idle := run env (turnN ++ [InEvent (amb 6) (ev "t2" turn_complete)]) initialState in
  let next := handleCodexEvent env (amb 7) (ev "t3" turn_started) idle in
  (agentStreams next !! "a1" = Some {| messageId := "s-agent-2"; buffer := "x" |}
   /\ reasoningStreams next !! "r1"
      = Some {| messageId := "s-reasoning-3"; buffer := "y" |}
   /\ execStreams next !! "c1"
      = Some {| messageId := "s-exec-c1-4"; buffer := "$ ls" +:+ Js.nl |}
   /\ frameCallbacks next = [(1, (which_agent, "a1")); (2, (which_reasoning, "r1"))]
   /\ agentFlush next !! "a1" = Some 1
   /\ reasoningFlush next !! "r1" = Some 2
   /\ shownDiffs next = ∅)
  /\ agentStreams idle = agentStreams next
  /\ reasoningStreams idle = reasoningStreams next
  /\ execStreams idle = execStreams next
  /\ frameCallbacks idle = frameCallbacks next.
Proof. vm_compute. repeat split; reflexivity. Qed.

(** C2 (the code at the failing input).  [task_complete] and
    [turn_complete], arriving while an agent stream and a reasoning stream
    are open, set the loading flag to false and finalize nothing: both
    entries stay in their maps, no [updateMessage] is issued, and the flush
    that follows writes content only, with no [isStreaming: false].
    [turn_complete] empties the diff set; [task_complete] leaves the diff in
    it, so that the same diff after it is still suppressed. *)
Theorem turn_end_leaves_streams_open :
  let env := browserEnv "s" ["s"] in
  let ended m := handleCodexEvent env (amb 4) (ev "t" m) midStream in
  let diffAgain m :=
    handleCodexEvent env (amb 5) (ev "d2" (turn_diff (Some "--- a"))) (ended m) in
  let unfinalized st :=
    agentStreams st !! "a1" = Some {| messageId := "s-agent-1"; buffer := "hi" |}
    /\ reasoningStreams st !! "r1"
       = Some {| messageId := "s-reasoning-2"; buffer := "why" |}
    /\ updatesOf (storeCalls st) = []
    /\ updatesOf (storeCalls (animationFrame env st))
       = [UpdateMessage "s" "s-agent-1" (contentPatch "hi");
          UpdateMessage "s" "s-reasoning-2" (contentPatch "why")]
    /\ controllerCalls st = []
    /\ loading (storeView "s" (storeCalls st)) = false in
  unfinalized (ended task_complete)
  /\ unfinalized (ended turn_complete)
  /\ shownDiffs (ended turn_complete) = ∅
  /\ shownDiffs (ended task_complete) = {["--- a"]}
  /\ diffAgain task_complete = ended task_complete.
Proof.
  intros env ended diffAgain unfinalized. split; [|split; [|split; [|split]]].
  - vm_compute. repeat split; reflexivity.
  - vm_compute. repeat split; reflexivity.
  - reflexivity.
  - vm_compute. reflexivity.
  - vm_compute. reflexivity.
Qed.

(** ** The store calls of the hook *)

Lemma appended_app xs ys : appended (xs ++ ys) = appended xs ++ appended ys.
Proof. unfold appended. apply omap_app. Qed.

Lemma updates_follow_adds_nil : updates_follow_adds [].
Proof. intros pre s mid p post H. by destruct pre. Qed.

(** Extending a log: an update that is added must name a message appended
    before it. *)
Lemma updates_follow_adds_snoc calls c :
  updates_follow_adds calls ->
  (forall s mid p, c = UpdateMessage s mid p -> (s, mid) ∈ appended calls) ->
  updates_follow_adds (calls ++ [c]).
Proof.
  intros Hinv Hc pre s mid p post Heq.
  destruct (decide (post = [])) as [-> | Hpost].
  - apply app_inj_tail in Heq as [-> ->]. by eapply Hc.
  - destruct (exists_last Hpost) as (post' & c' & ->).
    rewrite app_comm_cons, app_assoc in Heq.
    apply app_inj_tail in Heq as [-> ->]. by eapply Hinv.
Qed.

Lemma appended_snoc_mono calls c x : x ∈ appended calls -> x ∈ appended (calls ++ [c]).
Proof. rewrite appended_app, elem_of_app. by left. Qed.

Lemma targets_appended_snoc env calls c m :
  targets_appended env calls m -> targets_appended env (calls ++ [c]) m.
Proof.
  intros H. eapply map_Forall_impl; [exact H|].
  intros k e. apply appended_snoc_mono.
Qed.

Lemma store_inv_initial env : store_inv env initialState.
Proof.
  split; simpl.
  - constructor.
  - apply updates_follow_adds_nil.
  - apply map_Forall_empty.
  - apply map_Forall_empty.
  - apply map_Forall_empty.
Qed.

(** A store call keeps the invariant when it is on the session and, if it
    is an update, names an appended message. *)
Lemma store_inv_callStore env c st :
  store_inv env st ->
  callSession c = sessionId env ->
  (forall s mid p, c = UpdateMessage s mid p -> (s, mid) ∈ appended (storeCalls st)) ->
  store_inv env (callStore c st).
Proof.
  intros [H1 H2 H3 H4 H5] Hs Hu. split; hsimpl.
  - apply Forall_app. split; [done|]. by constructor.
  - by apply updates_follow_adds_snoc.
  - by apply targets_appended_snoc.
  - by apply targets_appended_snoc.
  - by apply targets_appended_snoc.
Qed.

Lemma store_inv_addMessageToStore env m st :
  store_inv env st ->
  store_inv env (addMessageToStore env m st)
  /\ (sessionId env, cm_id m) ∈ appended (storeCalls (addMessageToStore env m st)).
Proof.
  intros Hinv. unfold addMessageToStore.
  set (st1 := if bool_decide _ then st else _).
  assert (H1 : store_inv env st1).
  { subst st1. case_bool_decide; [done|]. by apply store_inv_callStore. }
  split.
  - by apply store_inv_callStore.
  - hsimpl. rewrite appended_app, elem_of_app. right. simpl. by left.
Qed.

(** The assignments that touch neither the log nor the stream maps. *)
Lemma store_inv_same env st st' :
  storeCalls st' = storeCalls st ->
  agentStreams st' = agentStreams st ->
  reasoningStreams st' = reasoningStreams st ->
  execStreams st' = execStreams st ->
  store_inv env st -> store_inv env st'.
Proof. intros Hc Ha Hr He [H1 H2 H3 H4 H5]. split; by rewrite ?Hc, ?Ha, ?Hr, ?He. Qed.

Lemma store_inv_set_streams env w v st :
  store_inv env st ->
  targets_appended env (storeCalls st) v ->
  store_inv env (set_streams w v st).
Proof. intros [H1 H2 H3 H4 H5] Hv. by destruct w; split. Qed.

Lemma store_inv_set_execStreams env v st :
  store_inv env st ->
  targets_appended env (storeCalls st) v ->
  store_inv env (set_execStreams v st).
Proof. intros [H1 H2 H3 H4 H5] Hv. by split. Qed.

Lemma store_inv_streamsOf env w st :
  store_inv env st -> targets_appended env (storeCalls st) (streamsOf w st).
Proof. intros [H1 H2 H3 H4 H5]. by destruct w. Qed.

Lemma addMessageToStore_set_streams env m w v st :
  addMessageToStore env m (set_streams w v st)
  = set_streams w v (addMessageToStore env m st).
Proof. unfold addMessageToStore. destruct w; hsimpl; by case_bool_decide. Qed.

Lemma store_inv_scheduleFlush env w i st :
  store_inv env st -> store_inv env (scheduleFlush w i st).
Proof.
  intros Hinv. destruct (scheduleFlush_others w i st) as (Ha & Hr & He & Hc).
  by eapply store_inv_same.
Qed.

Lemma storeCalls_set_streams w v st : storeCalls (set_streams w v st) = storeCalls st.
Proof. by destruct w. Qed.

Lemma store_inv_deltaCase env w label a i d st :
  store_inv env st -> store_inv env (deltaCase env w label a i d st).
Proof.
  intros Hinv. unfold deltaCase.
  destruct (streamsOf w st !! i) as [e|] eqn:He; cbv beta iota zeta.
  - destruct (Js.truthy (Js.orEmpty d)); [|done].
    apply store_inv_scheduleFlush, store_inv_set_streams; [done|].
    apply map_Forall_insert_2; [|by apply store_inv_streamsOf].
    by apply (store_inv_streamsOf env w st Hinv i e).
  - set (m := {| cm_id := _; cm_type := agent |}).
    rewrite addMessageToStore_set_streams.
    destruct (store_inv_addMessageToStore env m st Hinv) as [Hinv1 Hin].
    assert (Hs : streamsOf w (addMessageToStore env m st) = streamsOf w st).
    { destruct (addMessageToStore_refs env m st) as (Ha & Hr & _). by destruct w. }
    assert (Hinv2 : store_inv env
              (set_streams w (<[i := {| messageId := cm_id m; buffer := "" |}]>
                                (streamsOf w st)) (addMessageToStore env m st))).
    { apply store_inv_set_streams; [done|].
      apply map_Forall_insert_2; [done|]. rewrite <- Hs.
      by apply store_inv_streamsOf. }
    destruct (Js.truthy (Js.orEmpty d)); [|exact Hinv2].
    apply store_inv_scheduleFlush, store_inv_set_streams; [exact Hinv2|].
    rewrite storeCalls_set_streams.
    apply map_Forall_insert_2; [exact Hin|].
    pose proof (store_inv_streamsOf env w _ Hinv2) as H.
    by rewrite storeCalls_set_streams in H.
Qed.

Lemma store_inv_reasoningFinalCase env a i t st :
  store_inv env st -> store_inv env (reasoningFinalCase env a i t st).
Proof.
  intros Hinv. unfold reasoningFinalCase.
  apply store_inv_callStore; [|done|done].
  destruct (reasoningStreams st !! i) as [e|] eqn:He.
  - apply (store_inv_set_streams env which_reasoning).
    + apply store_inv_callStore; [done|done|].
      intros s mid p [= <- <- _]. by apply (inv_reasoning env st Hinv i e).
    + apply map_Forall_delete. hsimpl. apply targets_appended_snoc.
      by apply inv_reasoning.
  - destruct (Js.truthy (Js.orEmpty t)); [|done].
    by apply store_inv_addMessageToStore.
Qed.

Lemma store_inv_flushCallback env w i st :
  store_inv env st -> store_inv env (flushCallback env w i st).
Proof.
  intros Hinv. unfold flushCallback.
  assert (Hinv1 : store_inv env (set_flags w (delete i (flagsOf w st)) st)).
  { eapply store_inv_same; [..|exact Hinv]; by destruct w. }
  assert (Hs : streamsOf w (set_flags w (delete i (flagsOf w st)) st) = streamsOf w st)
    by (by destruct w).
  rewrite Hs. destruct (streamsOf w st !! i) as [e|] eqn:He; [|done].
  apply store_inv_callStore; [done|done|].
  intros s mid p [= <- <- _].
  assert (Hc : storeCalls (set_flags w (delete i (flagsOf w st)) st) = storeCalls st)
    by (by destruct w).
  rewrite Hc. by apply (store_inv_streamsOf env w st Hinv i e).
Qed.

Lemma store_inv_fire env h st : store_inv env st -> store_inv env (fire env h st).
Proof.
  intros Hinv. unfold fire.
  destruct (takeCallback h (frameCallbacks st)) as [[[w i] q]|]; [|done].
  apply store_inv_flushCallback. by eapply store_inv_same; [..|exact Hinv].
Qed.

Lemma store_inv_set_currentStreamingMessageId env v st :
  store_inv env st -> store_inv env (set_currentStreamingMessageId v st).
Proof. by apply store_inv_same. Qed.

Lemma store_inv_set_currentStreamingBuffer env v st :
  store_inv env st -> store_inv env (set_currentStreamingBuffer v st).
Proof. by apply store_inv_same. Qed.

Lemma store_inv_set_shownDiffs env v st :
  store_inv env st -> store_inv env (set_shownDiffs v st).
Proof. by apply store_inv_same. Qed.

Lemma store_inv_callController env c st :
  store_inv env st -> store_inv env (callController c st).
Proof. by apply store_inv_same. Qed.

Lemma store_inv_onApprovalRequest env r st :
  store_inv env st -> store_inv env (onApprovalRequest r st).
Proof. by apply store_inv_same. Qed.

Lemma store_inv_setSessionLoading env b st :
  store_inv env st -> store_inv env (setSessionLoading (sessionId env) b st).
Proof. intros H. by apply store_inv_callStore. Qed.

Lemma store_inv_add env m st :
  store_inv env st -> store_inv env (addMessageToStore env m st).
Proof. intros H. by apply store_inv_addMessageToStore. Qed.

(** An update of the message an entry targets, with the entry's map
    changed at the entry's key or not at all. *)
Lemma store_inv_updateMessage env mid p st :
  store_inv env st ->
  (sessionId env, mid) ∈ appended (storeCalls st) ->
  store_inv env (updateMessage (sessionId env) mid p st).
Proof.
  intros H Hin. apply store_inv_callStore; [done|done|].
  by intros s mid' p' [= <- <- _].
Qed.

Ltac inv_peel :=
  repeat first
    [ assumption
    | apply store_inv_setSessionLoading
    | apply store_inv_set_shownDiffs
    | apply store_inv_set_currentStreamingBuffer
    | apply store_inv_set_currentStreamingMessageId
    | apply store_inv_callController
    | apply store_inv_onApprovalRequest
    | apply store_inv_add ].

Lemma store_inv_handleCodexEvent env a e st :
  store_inv env st -> store_inv env (handleCodexEvent env a e st).
Proof.
  intros Hinv. destruct e as [i m]. unfold handleCodexEvent. hsimpl.
  destruct m;
    try done;
    try (by apply store_inv_deltaCase);
    try (by apply store_inv_reasoningFinalCase);
    try (by inv_peel);
    try (by case_match; inv_peel).
  - (* agent_message *)
    destruct (negb _); [done|].
    set (m := {| cm_id := _; cm_type := agent |}).
    assert (Hemit : store_inv env
      (addMessageToStore env m
         (set_agentStreams
            (<[i := {| messageId := cm_id m; buffer := cm_content m |}]>
               (agentStreams st)) st))).
    { rewrite (addMessageToStore_set_streams env m which_agent).
      destruct (store_inv_addMessageToStore env m st Hinv) as [Hinv1 Hin].
      apply (store_inv_set_streams env which_agent); [done|].
      apply map_Forall_insert_2; [done|].
      destruct (addMessageToStore_refs env m st) as (Ha & _).
      rewrite <- Ha. by apply inv_agent. }
    destruct (agentStreams st !! i) as [e|]; [|exact Hemit].
    case_bool_decide; [exact Hemit|done].
  - (* agent_reasoning_section_break *)
    destruct (reasoningStreams st !! i) as [e|] eqn:He; [|done].
    apply store_inv_updateMessage.
    + apply (store_inv_set_streams env which_reasoning); [done|].
      apply map_Forall_insert_2; [|by apply inv_reasoning].
      by apply (inv_reasoning env st Hinv i e).
    + by apply (inv_reasoning env st Hinv i e).
  - (* turn_diff *)
    destruct (negb _); [done|]. case_bool_decide; [done|]. inv_peel.
  - (* exec_command_begin *)
    set (m := {| cm_id := _; cm_type := system |}).
    destruct (store_inv_addMessageToStore env m st Hinv) as [Hinv1 Hin].
    apply store_inv_setSessionLoading, store_inv_set_execStreams; [done|].
    apply map_Forall_insert_2; [exact Hin|]. by apply inv_exec.
  - (* exec_command_output_delta *)
    destruct (execStreams st !! call_id) as [e|] eqn:He; [|done].
    apply store_inv_updateMessage.
    + apply store_inv_set_execStreams; [done|].
      apply map_Forall_insert_2; [|by apply inv_exec].
      by apply (inv_exec env st Hinv call_id e).
    + by apply (inv_exec env st Hinv call_id e).
  - (* exec_command_end *)
    apply store_inv_setSessionLoading.
    destruct (execStreams st !! call_id) as [e|] eqn:He; [|done].
    apply store_inv_set_execStreams.
    + apply store_inv_updateMessage; [done|].
      by apply (inv_exec env st Hinv call_id e).
    + apply map_Forall_delete. hsimpl. apply targets_appended_snoc.
      by apply inv_exec.
Qed.

Lemma store_inv_fires env hs st :
  store_inv env st -> store_inv env (fold_left (fun st h => fire env h st) hs st).
Proof.
  revert st. induction hs as [|h hs IH]; intros st Hinv; simpl; [done|].
  apply IH. by apply store_inv_fire.
Qed.

Lemma store_inv_run env inputs st :
  store_inv env st -> store_inv env (run env inputs st).
Proof.
  revert st. induction inputs as [|input inputs IH]; intros st Hinv; simpl; [done|].
  apply IH. destruct input as [a e | h |]; simpl.
  - by apply store_inv_handleCodexEvent.
  - by apply store_inv_fire.
  - by apply store_inv_fires.
Qed.


Lemma appended_session (s : string) (calls : list StoreCall) (x : string * string) :
  Forall (fun c => callSession c = s) calls -> x ∈ appended calls -> x.1 = s.
Proof.
  intros Hall. unfold appended. rewrite list_elem_of_omap.
  intros (c & Hc & Hx). rewrite Forall_forall in Hall. specialize (Hall c Hc).
  destruct c; try discriminate Hx. injection Hx as <-. exact Hall.
Qed.

(** X2. While the session id of the hook stays the same: whatever the feed
    and the frames, every [updateMessage] of the hook comes after an
    [addMessage] of the hook with the same session and message id, and every
    entry of the three stream maps targets a message the hook has appended.
    The refs of the hook outlive a change of the session id, and the
    property does not: when a command has begun under one session id and an
    output delta for its call id is handled under another, the hook issues an
    [updateMessage] on the new session for a message that was appended on the
    old session only. *)
Theorem updates_target_appended_messages env inputs :
  let st := run env inputs initialState in
  (updates_follow_adds (storeCalls st)
   /\ targets_appended env (storeCalls st) (agentStreams st)
   /\ targets_appended env (storeCalls st) (reasoningStreams st)
   /\ targets_appended env (storeCalls st) (execStreams st))
  /\ (forall other a i callId cmd cwd a' i' chunk,
        sessionId other <> sessionId env ->
        let st1 :=
          handleCodexEvent env a (ev i (exec_command_begin callId cmd cwd)) st in
        let st2 :=
          handleCodexEvent other a'
            (ev i' (exec_command_output_delta callId chunk)) st1 in
        storeCalls st2
        = storeCalls st1
            ++ [UpdateMessage (sessionId other) (execId env a callId)
                  (contentPatch (execHeader cmd cwd +:+ execText other chunk))]
        /\ ((sessionId other, execId env a callId) ∉ appended (storeCalls st1))
        /\ (~ updates_follow_adds (storeCalls st2))).
Proof.
  intros st.
  pose proof (store_inv_run env inputs initialState (store_inv_initial env)) as Hinv.
  fold st in Hinv. split.
  - by destruct Hinv as [_ H2 H3 H4 H5].
  - intros other a i callId cmd cwd a' i' chunk Hne st1 st2.
    pose proof (store_inv_handleCodexEvent env a
                  (ev i (exec_command_begin callId cmd cwd)) st Hinv) as Hinv1.
    fold st1 in Hinv1.
    destruct (exec_begin_effect env a i callId cmd cwd st) as [Hopen _].
    fold st1 in Hopen.
    assert (He : execStreams st1 !! callId
                 = Some {| messageId := execId env a callId;
                           buffer := execHeader cmd cwd |})
      by (rewrite Hopen; apply lookup_insert_eq).
    destruct (exec_delta_effect other a' i' callId chunk st1 _ He) as [_ Hcalls].
    fold st2 in Hcalls. cbn [messageId buffer] in Hcalls.
    assert (Hnot : (sessionId other, execId env a callId) ∉ appended (storeCalls st1)).
    { intros Hin. apply Hne.
      exact (appended_session _ _ _ (inv_session _ _ Hinv1) Hin). }
    split; [exact Hcalls|]. split; [exact Hnot|].
    intros Hfollow. apply Hnot.
    apply (Hfollow (storeCalls st1) (sessionId other) (execId env a callId)
             (contentPatch (execHeader cmd cwd +:+ execText other chunk)) []).
    exact Hcalls.
Qed.

Lemma updates_target_appended_messages_witness :
  let envA := browserEnv "a" ["a"; "b"] in
  let envB := browserEnv "b" ["a"; "b"] in
  let st1 :=
    handleCodexEvent envA (amb 1)
      (ev "e1" (exec_command_begin "c1" (Some ["ls"]) None)) initialState in
  let st2 :=
    handleCodexEvent envB (amb 2)
      (ev "e2" (exec_command_output_delta "c1" (Some [111; 107]))) st1 in
  ~ updates_follow_adds (storeCalls st2).
Proof.
  intros envA envB.
  destruct (updates_target_appended_messages envA []) as [_ H].
  apply (H envB (amb 1) "e1" "c1" (Some ["ls"]) None (amb 2) "e2" (Some [111; 107])).
  discriminate.
Defined.

(** ** The legacy streaming path *)

Lemma legacy_idle_same st st' : legacy st' = legacy st -> legacy_idle st -> legacy_idle st'.
Proof. unfold legacy. intros [= H1 H2 H3] [? ? ?]. split; by rewrite ?H1, ?H2, ?H3. Qed.

Lemma legacy_addMessageToStore env m st : legacy (addMessageToStore env m st) = legacy st.
Proof. unfold addMessageToStore. by case_bool_decide. Qed.

Lemma legacy_scheduleFlush w i st : legacy (scheduleFlush w i st) = legacy st.
Proof. unfold scheduleFlush. case_bool_decide; [done|]. by destruct w. Qed.

Lemma legacy_set_streams w v st : legacy (set_streams w v st) = legacy st.
Proof. by destruct w. Qed.

Lemma legacy_deltaCase env w label a i d st :
  legacy (deltaCase env w label a i d st) = legacy st.
Proof.
  unfold deltaCase.
  destruct (streamsOf w st !! i) as [e|]; cbv beta iota zeta;
    destruct (Js.truthy (Js.orEmpty d));
    by rewrite ?legacy_scheduleFlush, ?legacy_set_streams, ?legacy_addMessageToStore,
         ?legacy_set_streams.
Qed.

Lemma legacy_reasoningFinalCase env a i t st :
  legacy (reasoningFinalCase env a i t st) = legacy st.
Proof.
  unfold reasoningFinalCase. destruct (reasoningStreams st !! i); [done|].
  destruct (Js.truthy (Js.orEmpty t)); [|done].
  change (legacy (addMessageToStore env
    {| cm_id := sessionId env +:+ "-reasoning-" +:+ Js.showZ (date_now a);
       cm_type := agent; cm_content := Js.orEmpty t;
       cm_timestamp := new_date a; cm_isStreaming := None |} st) = legacy st).
  apply legacy_addMessageToStore.
Qed.

Lemma legacy_flushCallback env w i st : legacy (flushCallback env w i st) = legacy st.
Proof. unfold flushCallback. destruct w; hsimpl; by case_match. Qed.

Lemma legacy_fire env h st : legacy (fire env h st) = legacy st.
Proof.
  unfold fire. destruct (takeCallback h (frameCallbacks st)) as [[[w i] q]|]; [|done].
  by rewrite legacy_flushCallback.
Qed.

Lemma legacy_idle_initial : legacy_idle initialState.
Proof. by split. Qed.

Lemma legacy_idle_handleCodexEvent env a e st :
  legacy_idle st -> legacy_idle (handleCodexEvent env a e st).
Proof.
  intros Hinv. pose proof Hinv as [H1 H2 H3].
  destruct e as [i m]. unfold handleCodexEvent. hsimpl.
  assert (Hclear : Forall (fun c => c = ScClearAll) (controllerCalls st ++ [ScClearAll])).
  { apply Forall_app. split; [done|]. by constructor. }
  destruct m;
    try done;
    try (eapply legacy_idle_same; [|exact Hinv];
         first [ apply legacy_deltaCase | apply legacy_reasoningFinalCase
               | apply legacy_addMessageToStore | reflexivity ]);
    try (by split).
  - (* task_complete *) rewrite H1. simpl. by split.
  - (* turn_complete *) rewrite H1. simpl. by split.
  - (* turn_aborted *)
    set (m := {| cm_id := _; cm_type := system |}).
    assert (Hc : controllerCalls (addMessageToStore env m st) = controllerCalls st)
      by exact (f_equal snd (legacy_addMessageToStore env m st)).
    split; hsimpl; [done|done|]. by rewrite Hc.
  - (* agent_message *)
    eapply legacy_idle_same; [|exact Hinv]. repeat case_match; try done.
    all: by rewrite legacy_addMessageToStore.
  - (* agent_reasoning_section_break *)
    eapply legacy_idle_same; [|exact Hinv]. by case_match.
  - (* turn_diff *)
    eapply legacy_idle_same; [|exact Hinv]. repeat case_match; try done.
    by rewrite legacy_addMessageToStore.
  - (* exec_command_output_delta *)
    eapply legacy_idle_same; [|exact Hinv]. by case_match.
  - (* exec_command_end *)
    eapply legacy_idle_same; [|exact Hinv]. by case_match.
Qed.

Lemma legacy_idle_run env inputs st : legacy_idle st -> legacy_idle (run env inputs st).
Proof.
  revert st. induction inputs as [|input inputs IH]; intros st Hinv; simpl; [done|].
  apply IH. destruct input as [a e | h |]; simpl.
  - by apply legacy_idle_handleCodexEvent.
  - eapply legacy_idle_same; [apply legacy_fire|done].
  - unfold animationFrame. generalize (map fst (frameCallbacks st)). intros hs.
    revert st Hinv. induction hs as [|h hs IHh]; intros st Hinv; simpl; [done|].
    apply IHh. eapply legacy_idle_same; [apply legacy_fire|done].
Qed.

(** X3. Whatever the feed and the frames, [currentStreamingMessageId] stays
    null and [currentStreamingBuffer] stays empty, so the guarded
    [streamController.finalize(true)] of [task_complete] and [turn_complete]
    never runs: the only call the controller ever gets is [clearAll()]. *)
Theorem controller_is_never_finalized env inputs :
  let st := run env inputs initialState in
  currentStreamingMessageId st = None
  /\ currentStreamingBuffer st = ""
  /\ Forall (fun c => c = ScClearAll) (controllerCalls st).
Proof.
  intros st. by destruct (legacy_idle_run env inputs initialState legacy_idle_initial).
Qed.

(** ** One animation frame *)

Lemma takeCallback_head h k q : takeCallback h ((h, k) :: q) = Some (k, q).
Proof. simpl. by rewrite bool_decide_eq_true_2. Qed.

Lemma queueWrites_cons env st h w i q :
  queueWrites env st ((h, (w, i)) :: q)
  = match streamsOf w st !! i with
    | Some e => [flushWrite env e (buffer e)]
    | None => []
    end ++ queueWrites env st q.
Proof. unfold queueWrites. simpl. by destruct (streamsOf w st !! i). Qed.

Lemma queueWrites_ext env st st' q :
  (forall w, streamsOf w st' = streamsOf w st) ->
  queueWrites env st' q = queueWrites env st q.
Proof.
  intros H. induction q as [|[h [w i]] q IH]; [done|].
  by rewrite !queueWrites_cons, IH, H.
Qed.

Lemma fires_queue env q st :
  frameCallbacks st = q ->
  let st' := fold_left (fun st h => fire env h st) q.*1 st in
  frameCallbacks st' = []
  /\ storeCalls st' = storeCalls st ++ queueWrites env st q
  /\ agentStreams st' = agentStreams st
  /\ reasoningStreams st' = reasoningStreams st
  /\ execStreams st' = execStreams st
  /\ shownDiffs st' = shownDiffs st.
Proof.
  revert st. induction q as [|[h [w i]] q IH]; intros st Hq.
  - simpl. by rewrite app_nil_r.
  - cbn [fmap list_fmap fst fold_left].
    change (fold_left (fun st h => fire env h st) (list_fmap _ _ fst q) (fire env h st))
      with (fold_left (fun st h => fire env h st) q.*1 (fire env h st)).
    assert (Hfire : fire env h st
                    = flushCallback env w i (set_frame q (nextHandle st) st)).
    { unfold fire. by rewrite Hq, takeCallback_head. }
    destruct (flushCallback_effect env w i (set_frame q (nextHandle st) st))
      as (Hs & Ha & Hr & He & Hc).
    rewrite <- Hfire in Hs, Ha, Hr, He, Hc.
    assert (Hq1 : frameCallbacks (fire env h st) = q).
    { unfold sched in Hs. injection Hs as _ _ Hq1 _. rewrite Hq1. by destruct w. }
    destruct (IH (fire env h st) Hq1) as (H1 & H2 & H3 & H4 & H5 & H6).
    assert (Hstreams : forall w', streamsOf w' (fire env h st) = streamsOf w' st).
    { intros []; hsimpl; [by rewrite Ha | by rewrite Hr]. }
    split; [done|]. split.
    + rewrite H2, Hc, (queueWrites_ext env st (fire env h st) q Hstreams).
      rewrite queueWrites_cons.
      assert (Hsw : streamsOf w (set_frame q (nextHandle st) st) = streamsOf w st)
        by (by destruct w).
      rewrite Hsw. unfold flushWrite.
      destruct (streamsOf w st !! i); by rewrite <- app_assoc.
    + rewrite H3, H4, H5, H6, Ha, Hr, He, Hfire, shownDiffs_flushCallback.
      done.
Qed.

(** X4. One animation frame, in any state the hook can reach: every queued
    callback runs once.  The frame issues, in queue order, one
    [updateMessage] with the current buffer for each queued key whose stream
    still has an entry, and nothing for the others; it leaves the stream maps
    and the diff set alone; after it no callback is queued and no flag is
    set, so that a second frame right after it does nothing. *)
Theorem animation_frame_drains_queue env inputs :
  let st := run env inputs initialState in
  let st' := animationFrame env st in
  frameCallbacks st' = []
  /\ agentFlush st' = ∅
  /\ reasoningFlush st' = ∅
  /\ storeCalls st' = storeCalls st ++ queueWrites env st (frameCallbacks st)
  /\ agentStreams st' = agentStreams st
  /\ reasoningStreams st' = reasoningStreams st
  /\ execStreams st' = execStreams st
  /\ shownDiffs st' = shownDiffs st
  /\ animationFrame env st' = st'.
Proof.
  intros st st'.
  destruct (fires_queue env (frameCallbacks st) st eq_refl)
    as (Hq & Hc & Ha & Hr & He & Hd).
  change (fold_left (fun st h => fire env h st) (frameCallbacks st).*1 st)
    with st' in Hq, Hc, Ha, Hr, He, Hd.
  assert (Hinv : flush_inv st').
  { apply flush_inv_fires, flush_inv_run, flush_inv_initial. }
  assert (Hflags : forall w, flagsOf w st' = ∅).
  { intros w. apply map_eq. intros i. rewrite lookup_empty.
    destruct (flagsOf w st' !! i) as [h|] eqn:Hh; [|done].
    apply (inv_flags st' Hinv) in Hh. rewrite Hq in Hh. by apply elem_of_nil in Hh. }
  split; [done|]. split; [exact (Hflags which_agent)|].
  split; [exact (Hflags which_reasoning)|].
  repeat (split; [done|]).
  unfold animationFrame at 1. by rewrite Hq.
Qed.

(** ** A whole command *)

Lemma exec_deltas_effect env i callId chunks st e :
  execStreams st !! callId = Some e ->
  let st' := run env (execDeltaInputs i callId chunks) st in
  execStreams st'
    = <[callId := {| messageId := messageId e;
                     buffer := buffer e +:+ execTexts env chunks |}]> (execStreams st)
  /\ storeCalls st' = storeCalls st ++ execWrites env (messageId e) (buffer e) chunks.
Proof.
  revert st e. induction chunks as [|[a c] chunks IH]; intros st e He.
  - simpl. rewrite append_empty_r, app_nil_r. split; [|done].
    symmetry. apply insert_id. by destruct e.
  - change (run env (execDeltaInputs i callId ((a, c) :: chunks)) st)
      with (run env (execDeltaInputs i callId chunks)
              (handleCodexEvent env a (ev i (exec_command_output_delta callId c)) st)).
    destruct (exec_delta_effect env a i callId c st e He) as [Hs Hc].
    set (st1 := handleCodexEvent env a _ st) in *.
    set (e1 := {| messageId := messageId e; buffer := buffer e +:+ execText env c |}) in *.
    assert (He1 : execStreams st1 !! callId = Some e1)
      by (rewrite Hs; apply lookup_insert_eq).
    destruct (IH st1 e1 He1) as [Hs' Hc'].
    split.
    + rewrite Hs', Hs, insert_insert_eq. cbn [messageId buffer e1 execTexts foldr snd].
      by rewrite append_assoc.
    + rewrite Hc', Hc, <- app_assoc. done.
Qed.

Lemma storeView_app sid xs ys :
  storeView sid (xs ++ ys) = fold_left (storeCall sid) ys (storeView sid xs).
Proof. unfold storeView. apply fold_left_app. Qed.

(** Replaying the writes of the output deltas on an entry that is alone in
    the transcript. *)
Lemma replay_execWrites env mid buf chunks (e : Entry) l :
  entry_id e = mid ->
  fold_left (storeCall (sessionId env)) (execWrites env mid buf chunks)
    {| transcript := [e]; loading := l |}
  = {| transcript :=
         [match chunks with
          | [] => e
          | _ :: _ =>
              {| entry_id := mid; entry_role := entry_role e;
                 entry_content := buf +:+ execTexts env chunks;
                 entry_timestamp := entry_timestamp e;
                 entry_isStreaming := entry_isStreaming e |}
          end];
       loading := l |}.
Proof.
  revert buf e. induction chunks as [|[a c] chunks IH]; intros buf e He; [done|].
  cbn [execWrites fold_left storeCall snd].
  rewrite bool_decide_refl. cbn [transcript loading map].
  rewrite bool_decide_eq_true_2 by done.
  rewrite IH by done.
  destruct chunks as [|c' chunks]; cbn [execTexts foldr snd applyPatch contentPatch
    patch_content patch_isStreaming default from_option Datatypes.id entry_id entry_role
    entry_timestamp entry_isStreaming entry_content].
  - unfold applyPatch, contentPatch. cbn [patch_content patch_isStreaming default
      from_option Datatypes.id]. by rewrite He, append_empty_r.
  - unfold applyPatch, contentPatch. cbn [patch_content patch_isStreaming default
      from_option Datatypes.id entry_id entry_role entry_timestamp entry_isStreaming
      entry_content]. by rewrite append_assoc.
Qed.

(** X5. A whole command, for every command line, working directory, list
    of output chunks and exit code, from any state: [exec_command_begin],
    the output deltas and [exec_command_end] append one message with the
    header, write the growing buffer once per chunk, and end with one write
    of header, output and [exit <code>] that clears the streaming flag,
    followed by loading false; the call id is no longer in the exec map.
    Run from the initial state, the session shows exactly one entry, with that
    content, not streaming, and is not loading. *)
Theorem exec_command_runs env a i callId cmd cwd chunks a' code st :
  let mid := execId env a callId in
  let header := execHeader cmd cwd in
  let final := header +:+ execTexts env chunks +:+ Js.nl +:+ "exit " +:+ Js.showZ code in
  let st' := run env (execInputs a i callId cmd cwd chunks a' code) st in
  execStreams st' = delete callId (execStreams st)
  /\ storeCalls st'
     = storeCalls st
         ++ (if bool_decide (sessionId env ∈ conversations env) then []
             else [CreateConversation "New Chat" "agent" (sessionId env)])
         ++ [AddMessage (sessionId env)
               {| msg_id := mid; role := role_system; content := header;
                  timestamp := new_date a |};
             SetSessionLoading (sessionId env) true]
         ++ execWrites env mid header chunks
         ++ [UpdateMessage (sessionId env) mid (finalPatch final);
             SetSessionLoading (sessionId env) false]
  /\ storeView (sessionId env)
       (storeCalls (run env (execInputs a i callId cmd cwd chunks a' code) initialState))
     = {| transcript :=
             [{| entry_id := mid; entry_role := role_system; entry_content := final;
                 entry_timestamp := new_date a; entry_isStreaming := Some false |}];
          loading := false |}.
Proof.
  intros mid header final st'. subst st'.
  assert (Hgen : forall st,
    execStreams (run env (execInputs a i callId cmd cwd chunks a' code) st)
      = delete callId (execStreams st)
    /\ storeCalls (run env (execInputs a i callId cmd cwd chunks a' code) st)
     = storeCalls st
         ++ (if bool_decide (sessionId env ∈ conversations env) then []
             else [CreateConversation "New Chat" "agent" (sessionId env)])
         ++ [AddMessage (sessionId env)
               {| msg_id := mid; role := role_system; content := header;
                  timestamp := new_date a |};
             SetSessionLoading (sessionId env) true]
         ++ execWrites env mid header chunks
         ++ [UpdateMessage (sessionId env) mid (finalPatch final);
             SetSessionLoading (sessionId env) false]).
  { clear st. intros st. unfold execInputs.
  rewrite !run_app.
  change (run env [InEvent a (ev i (exec_command_begin callId cmd cwd))] st)
    with (handleCodexEvent env a (ev i (exec_command_begin callId cmd cwd)) st).
  destruct (exec_begin_effect env a i callId cmd cwd st) as [Hs1 Hc1].
  set (st1 := handleCodexEvent env a _ st) in *.
  set (e1 := {| messageId := execId env a callId; buffer := execHeader cmd cwd |}) in *.
  assert (He1 : execStreams st1 !! callId = Some e1)
    by (rewrite Hs1; apply lookup_insert_eq).
  destruct (exec_deltas_effect env i callId chunks st1 e1 He1) as [Hs2 Hc2].
  set (st2 := run env (execDeltaInputs i callId chunks) st1) in *.
  set (e2 := {| messageId := messageId e1; buffer := buffer e1 +:+ execTexts env chunks |}) in *.
  assert (He2 : execStreams st2 !! callId = Some e2)
    by (rewrite Hs2; apply lookup_insert_eq).
  change (run env [InEvent a' (ev i (exec_command_end callId code))] st2)
    with (handleCodexEvent env a' (ev i (exec_command_end callId code)) st2).
  destruct (exec_end_effect env a' i callId code st2 e2 He2) as [Hs3 Hc3].
  assert (Hfinal : buffer e2 +:+ Js.nl +:+ "exit " +:+ Js.showZ code = final).
  { subst final header e2 e1. cbn [buffer]. by rewrite append_assoc. }
  rewrite Hfinal in Hc3.
  assert (Hcalls : storeCalls (handleCodexEvent env a' (ev i (exec_command_end callId code)) st2)
     = storeCalls st
         ++ (if bool_decide (sessionId env ∈ conversations env) then []
             else [CreateConversation "New Chat" "agent" (sessionId env)])
         ++ [AddMessage (sessionId env)
               {| msg_id := mid; role := role_system; content := header;
                  timestamp := new_date a |};
             SetSessionLoading (sessionId env) true]
         ++ execWrites env mid header chunks
         ++ [UpdateMessage (sessionId env) mid (finalPatch final);
             SetSessionLoading (sessionId env) false]).
  { rewrite Hc3, Hc2, Hc1. by rewrite <- !app_assoc. }
    split; [|exact Hcalls].
    by rewrite Hs3, Hs2, Hs1, insert_insert_eq, delete_insert_eq. }
  destruct (Hgen st) as [H1 H2]. split; [done|]. split; [done|].
  destruct (Hgen initialState) as [_ Hcalls]. rewrite Hcalls.
  cbn [storeCalls initialState app]. rewrite storeView_app.
  assert (Hpre : storeView (sessionId env)
            (if bool_decide (sessionId env ∈ conversations env) then []
             else [CreateConversation "New Chat" "agent" (sessionId env)])
          = {| transcript := []; loading := false |}) by (by case_bool_decide).
  rewrite Hpre. cbn [fold_left storeCall].
  rewrite !bool_decide_refl. cbn [transcript loading app msg_id role content timestamp].
  rewrite fold_left_app, replay_execWrites by done.
  cbn [fold_left storeCall]. rewrite !bool_decide_refl.
  cbn [transcript loading map].
  destruct chunks as [|c chunks]; cbn [entry_id]; rewrite bool_decide_refl; done.
Qed.

(** ** Reasoning streams *)

Lemma handle_reasoningFinalMsg env a i raw t st :
  handleCodexEvent env a (ev i (reasoningFinalMsg raw t)) st
  = reasoningFinalCase env a i t st.
Proof. by destruct raw. Qed.

Lemma reasoning_final_effect env a i t st :
  let st' := reasoningFinalCase env a i t st in
  reasoningStreams st' = delete i (reasoningStreams st)
  /\ agentStreams st' = agentStreams st
  /\ sched st' = sched st
  /\ storeCalls st'
     = storeCalls st
         ++ match reasoningStreams st !! i with
            | Some e =>
                [UpdateMessage (sessionId env) (messageId e)
                   (finalPatch (Js.orElse (Js.orEmpty t) (buffer e)))]
            | None =>
                if Js.truthy (Js.orEmpty t) then
                  (if bool_decide (sessionId env ∈ conversations env) then []
                   else [CreateConversation "New Chat" "agent" (sessionId env)])
                    ++ [reasoningAppend env a (Js.orEmpty t)]
                else []
            end
         ++ [SetSessionLoading (sessionId env) false].
Proof.
  split; [|split; [|split; [apply sched_reasoningFinalCase|]]];
    unfold reasoningFinalCase; hsimpl.
  - destruct (reasoningStreams st !! i) as [e|] eqn:He; [done|].
    rewrite delete_id by done.
    destruct (Js.truthy (Js.orEmpty t)); [|done].
    by destruct (addMessageToStore_refs env
      {| cm_id := sessionId env +:+ "-reasoning-" +:+ Js.showZ (date_now a);
         cm_type := agent; cm_content := Js.orEmpty t;
         cm_timestamp := new_date a; cm_isStreaming := None |} st) as (_ & -> & _).
  - destruct (reasoningStreams st !! i) as [e|]; [done|].
    destruct (Js.truthy (Js.orEmpty t)); [|done].
    by destruct (addMessageToStore_refs env
      {| cm_id := sessionId env +:+ "-reasoning-" +:+ Js.showZ (date_now a);
         cm_type := agent; cm_content := Js.orEmpty t;
         cm_timestamp := new_date a; cm_isStreaming := None |} st) as (-> & _).
  - destruct (reasoningStreams st !! i) as [e|]; hsimpl.
    + by rewrite <- app_assoc.
    + destruct (Js.truthy (Js.orEmpty t)); hsimpl; [|done].
      rewrite storeCalls_addMessageToStore. unfold reasoningAppend, reasoningId.
      by rewrite <- !app_assoc.
Qed.

(** The message a delta appends: none when the id has an entry. *)
Lemma deltaCase_adds env w label a i d st :
  addsOf (storeCalls (deltaCase env w label a i d st))
  = addsOf (storeCalls st)
      ++ match streamsOf w st !! i with
         | Some _ => []
         | None =>
             [AddMessage (sessionId env)
                {| msg_id := sessionId env +:+ label +:+ Js.showZ (date_now a);
                   role := role_assistant; content := "";
                   timestamp := new_date a |}]
         end.
Proof.
  unfold deltaCase.
  destruct (streamsOf w st !! i) as [e|]; cbv beta iota zeta;
    destruct (Js.truthy (Js.orEmpty d));
    repeat match goal with
      | |- context [storeCalls (scheduleFlush ?w ?i ?s)] =>
          destruct (scheduleFlush_others w i s) as (_ & _ & _ & ->)
      end;
    rewrite ?storeCalls_set_streams, ?addsOf_addMessageToStore,
      ?storeCalls_set_streams, ?app_nil_r; done.
Qed.

Lemma flush_inv_reasoningFinalCase env a i t st :
  flush_inv st -> flush_inv (reasoningFinalCase env a i t st).
Proof. intros H. eapply flush_inv_sched; [apply sched_reasoningFinalCase|done]. Qed.

Lemma deltaChannel_reasoning raw : deltaChannel (reasoningDeltaTag raw) = which_reasoning.
Proof. by destruct raw. Qed.

Lemma deltaLabel_reasoning raw : deltaLabel (reasoningDeltaTag raw) = "-reasoning-".
Proof. by destruct raw. Qed.

(** X6. A reasoning stream from its deltas to its final, in any state the
    hook can reach: after deltas that are not empty, the final event writes
    the committed content at once (the final text, or the buffer when the
    final text is empty) with the streaming flag cleared, sets loading to
    false and removes the entry.  The flush the deltas scheduled is still
    queued; when it runs it finds no entry and writes nothing, so the final
    text is the last write to the message. *)
Theorem reasoning_final_commits env inputs i rawd a d ds raw af ft :
  Forall (fun p => p.2 <> "") ((a, d) :: ds) ->
  let st := run env inputs initialState in
  let e0 := default (freshEntry env "-reasoning-" a) (reasoningStreams st !! i) in
  let st1 := run env (deltaInputs (reasoningDeltaTag rawd) i ((a, d) :: ds)) st in
  let st2 := handleCodexEvent env af (ev i (reasoningFinalMsg raw ft)) st1 in
  let committed := Js.orElse (Js.orEmpty ft) (buffer e0 +:+ joined ((a, d) :: ds)) in
  storeCalls st2
    = storeCalls st1
        ++ [UpdateMessage (sessionId env) (messageId e0) (finalPatch committed);
            SetSessionLoading (sessionId env) false]
  /\ reasoningStreams st2 !! i = None
  /\ exists h,
       pendingFor (which_reasoning, i) st2 = [h]
       /\ storeCalls (fire env h st2) = storeCalls st2
       /\ pendingFor (which_reasoning, i) (fire env h st2) = [].
Proof.
  intros Hds st e0 st1 st2 committed.
  assert (Hinv : flush_inv st) by apply flush_inv_run, flush_inv_initial.
  destruct (deltas_effect env (reasoningDeltaTag rawd) i ds a d st Hinv Hds)
    as (Hinv1 & Hs1 & _ & [h Hh]).
  rewrite deltaChannel_reasoning, deltaLabel_reasoning in Hs1.
  rewrite deltaChannel_reasoning in Hh.
  fold st st1 in Hinv1, Hs1, Hh. cbn [streamsOf] in Hs1. fold e0 in Hs1.
  cbn [flagsOf] in Hh.
  subst st2. rewrite handle_reasoningFinalMsg.
  destruct (reasoning_final_effect env af i ft st1) as (Hr2 & _ & Hsch & Hc2).
  pose proof (flush_inv_reasoningFinalCase env af i ft st1 Hinv1) as Hinv2.
  set (st2 := reasoningFinalCase env af i ft st1) in *.
  rewrite Hs1 in Hc2. cbn [messageId buffer] in Hc2.
  assert (Hgone : reasoningStreams st2 !! i = None)
    by (rewrite Hr2; apply lookup_delete_eq).
  assert (Hh2 : flagsOf which_reasoning st2 !! i = Some h).
  { cbn [flagsOf].
    assert (Hfr : reasoningFlush st2 = reasoningFlush st1)
      by exact (f_equal (fun x => x.1.1.2) Hsch).
    by rewrite Hfr. }
  split; [done|]. split; [done|]. exists h.
  split; [by apply pendingFor_flagged|].
  destruct (fire_flagged env st2 which_reasoning i h Hinv2 Hh2) as (Hc3 & _ & Hf3).
  cbn [streamsOf] in Hc3. rewrite Hgone, app_nil_r in Hc3.
  split; [done|].
  apply pendingFor_unflagged; [by apply flush_inv_fire|done].
Qed.

Lemma reasoning_final_commits_witness :
  let env := browserEnv "s" ["s"] in
  let st1 :=
    run env (deltaInputs delta_reasoning "r1" [(amb 1, "Think"); (amb 2, "ing")])
      initialState in
  let st2 := handleCodexEvent env (amb 3) (ev "r1" (agent_reasoning (Some "Thinking."))) st1 in
  storeCalls st2
  = storeCalls st1
      ++ [UpdateMessage "s" "s-reasoning-1" (finalPatch "Thinking.");
          SetSessionLoading "s" false].
Proof.
  intros env st1 st2.
  refine (proj1 (reasoning_final_commits env [] "r1" false (amb 1) "Think"
                   [(amb 2, "ing")] false (amb 3) (Some "Thinking.") _)).
  repeat constructor; discriminate.
Defined.

Lemma showZ_inj (x y : Z) : Js.showZ x = Js.showZ y -> x = y.
Proof.
  assert (H : forall z, Z.of_int <$> NilZero.int_of_string (Js.showZ z) = Some z).
  { intros z. unfold Js.showZ. rewrite NilZero.isi.
    - cbn. by rewrite DecimalZ.of_to.
    - intros E. pose proof (DecimalZ.of_to z) as Hz. rewrite E in Hz.
      cbn in Hz. subst z. discriminate E.
    - intros E. pose proof (DecimalZ.of_to z) as Hz. rewrite E in Hz.
      cbn in Hz. subst z. discriminate E. }
  intros E. pose proof (H x) as Hx. rewrite E, H in Hx. by injection Hx.
Qed.

Lemma append_inv_head (p a b : string) : p +:+ a = p +:+ b -> a = b.
Proof.
  induction p as [|c p IH]; [done|].
  change (String c (p +:+ a) = String c (p +:+ b) -> a = b).
  intros [= E]. by apply IH.
Qed.

(** The id of a reasoning message tells the clock reading it was made
    with. *)
Lemma reasoningId_inj env (a a' : Ambient) :
  reasoningId env a = reasoningId env a' <-> date_now a = date_now a'.
Proof.
  unfold reasoningId. split; [|by intros ->].
  intros E%append_inv_head%append_inv_head. by apply showZ_inj.
Qed.

(** X7. Finalizing retires the stream id, in any state: after a
    reasoning-final event the id has no entry, whether it had one or not.
    With no entry, a final text that is not empty is appended as one new
    message and an empty one appends nothing.  A delta that follows for the
    same id does not extend the finalized text: it opens a new entry whose
    buffer holds that delta only, and appends a message whose id is built
    from the clock reading of the delta.  That id is the id of a reasoning
    message made at another event exactly when [Date.now()] gave the same
    value at both events: the new message is distinct from the one the final
    appended when the two events read different clock values, and carries
    the same id when they read the same value. *)
Theorem reasoning_final_retires_id env a i raw ft a' rawd d st :
  d <> "" ->
  let st1 := handleCodexEvent env a (ev i (reasoningFinalMsg raw ft)) st in
  let st2 := handleCodexEvent env a' (ev i (deltaMsg (reasoningDeltaTag rawd) d)) st1 in
  reasoningStreams st1 !! i = None
  /\ (reasoningStreams st !! i = None ->
      addsOf (storeCalls st1)
      = addsOf (storeCalls st)
          ++ (if Js.truthy (Js.orEmpty ft) then [reasoningAppend env a (Js.orEmpty ft)]
              else []))
  /\ reasoningStreams st2 !! i
     = Some {| messageId := reasoningId env a'; buffer := d |}
  /\ addsOf (storeCalls st2)
     = addsOf (storeCalls st1) ++ [reasoningAppend env a' ""]
  /\ (forall a0, reasoningId env a0 = reasoningId env a' <-> date_now a0 = date_now a').
Proof.
  intros Hd st1 st2. subst st1 st2.
  rewrite handle_reasoningFinalMsg, handle_deltaMsg,
    deltaChannel_reasoning, deltaLabel_reasoning.
  destruct (reasoning_final_effect env a i ft st) as (Hr & _ & _ & Hc).
  set (st1 := reasoningFinalCase env a i ft st) in *.
  assert (Hgone : reasoningStreams st1 !! i = None)
    by (rewrite Hr; apply lookup_delete_eq).
  split; [done|]. split; [|split; [|split]].
  - intros Hnone. rewrite Hc, Hnone, !addsOf_app.
    destruct (Js.truthy (Js.orEmpty ft)); [|by rewrite !app_nil_r].
    case_bool_decide; simpl; by rewrite ?app_nil_r.
  - destruct (deltaCase_effect env which_reasoning "-reasoning-" a' i d st1 Hd)
      as (Hs2 & _ & _).
    cbn [streamsOf] in Hs2. rewrite Hgone in Hs2. exact Hs2.
  - rewrite deltaCase_adds. cbn [streamsOf]. by rewrite Hgone.
  - intros a0. apply reasoningId_inj.
Qed.

Lemma reasoning_final_retires_id_witness :
  let env := browserEnv "s" ["s"] in
  let st1 := handleCodexEvent env (amb 1) (ev "r1" (agent_reasoning (Some "Done."))) initialState in
  let st2 := handleCodexEvent env (amb 2) (ev "r1" (agent_reasoning_delta (Some "more"))) st1 in
  reasoningStreams st2 !! "r1" = Some {| messageId := "s-reasoning-2"; buffer := "more" |}.
Proof.
  intros env st1 st2.
  destruct (reasoning_final_retires_id env (amb 1) "r1" false (Some "Done.") (amb 2)
              false "more" initialState ltac:(discriminate)) as (_ & _ & H & _).
  exact H.
Defined.

(** ** An agent message after deltas *)

(** X8. An agent message after streamed deltas, in any state the hook can
    reach.  When its text is what the stream holds (the backend restating
    the streamed text) or is empty, it is ignored.  When it differs, a new
    message is appended and the id now targets it; the flush the deltas
    scheduled then writes the message's text to the new message, so the
    streamed buffer is never written to the message the deltas opened. *)
Theorem agent_message_after_deltas env inputs i a d ds am text :
  Forall (fun p => p.2 <> "") ((a, d) :: ds) ->
  let st := run env inputs initialState in
  let e0 := default (freshEntry env "-agent-" a) (agentStreams st !! i) in
  let streamed := buffer e0 +:+ joined ((a, d) :: ds) in
  let st1 := run env (deltaInputs delta_agent i ((a, d) :: ds)) st in
  let st2 := handleCodexEvent env am (ev i (agent_message (Some text))) st1 in
  (text = streamed \/ text = "" -> st2 = st1)
  /\ (text <> streamed -> text <> "" ->
      addsOf (storeCalls st2) = addsOf (storeCalls st1) ++ [agentAppend env am text]
      /\ agentStreams st2 !! i = Some (agentEntry env am text)
      /\ exists h,
           pendingFor (which_agent, i) st2 = [h]
           /\ storeCalls (fire env h st2)
              = storeCalls st2
                  ++ [UpdateMessage (sessionId env)
                        (sessionId env +:+ "-agent-" +:+ Js.showZ (date_now am))
                        (contentPatch text)]).
Proof.
  intros Hds st e0 streamed st1 st2.
  assert (Hinv : flush_inv st) by apply flush_inv_run, flush_inv_initial.
  destruct (deltas_effect env delta_agent i ds a d st Hinv Hds)
    as (Hinv1 & Hs1 & _ & [h Hh]).
  cbn [deltaChannel deltaLabel streamsOf flagsOf] in Hs1, Hh.
  fold st st1 in Hinv1, Hs1, Hh. fold e0 in Hs1. fold streamed in Hs1.
  split.
  - intros [-> | ->].
    + by apply (agent_message_same env am i streamed st1 _ Hs1).
    + by apply agent_message_empty.
  - intros Hne Hne'.
    assert (Hcase : agentStreams st1 !! i = None
                    \/ exists e, agentStreams st1 !! i = Some e /\ buffer e <> text).
    { right. eexists. split; [exact Hs1|]. cbn [buffer]. congruence. }
    destruct (agent_message_emit env am i text st1 Hne' Hcase) as [Hs2 Hadd].
    fold st2 in Hs2, Hadd. split; [done|]. split; [done|].
    assert (Hsch : sched st2 = sched st1) by (by apply sched_handleCodexEvent).
    assert (Hinv2 : flush_inv st2) by (by apply flush_inv_handleCodexEvent).
    assert (Hh2 : flagsOf which_agent st2 !! i = Some h).
    { cbn [flagsOf].
      assert (Hfa : agentFlush st2 = agentFlush st1)
        by exact (f_equal (fun x => x.1.1.1) Hsch).
      by rewrite Hfa. }
    exists h. split; [by apply pendingFor_flagged|].
    destruct (fire_flagged env st2 which_agent i h Hinv2 Hh2) as (Hc3 & _).
    cbn [streamsOf] in Hc3. by rewrite Hs2 in Hc3.
Qed.

Lemma agent_message_after_deltas_witness :
  let env := browserEnv "s" ["s"] in
  let st1 :=
    run env (deltaInputs delta_agent "m1" [(amb 1, "Hel"); (amb 2, "lo")]) initialState in
  handleCodexEvent env (amb 3) (ev "m1" (agent_message (Some "Hello"))) st1 = st1.
Proof.
  intros env st1.
  refine (proj1 (agent_message_after_deltas env [] "m1" (amb 1) "Hel" [(amb 2, "lo")]
                   (amb 3) "Hello" _) (or_introl eq_refl)).
  repeat constructor; discriminate.
Defined.

(** ** The listener *)

Lemma prefix_append (p s : string) : String.prefix p (p +:+ s) = true.
Proof.
  induction p as [|c p IH]; [by destruct s|].
  change (String.prefix (String c p) (String c (p +:+ s)) = true).
  cbn [String.prefix]. destruct (ascii_dec c c); [exact IH|done].
Qed.

Lemma sliceFrom_append (p s : string) : sliceFrom (String.length p) (p +:+ s) = s.
Proof. induction p as [|c p IH]; [done|]. exact IH. Qed.

Lemma replaceFirst_prefix (pat rep s : string) :
  replaceFirst pat rep (pat +:+ s) = rep +:+ s.
Proof.
  destruct (pat +:+ s) as [|c r] eqn:Heq.
  - cbn [replaceFirst]. rewrite <- Heq at 1. rewrite prefix_append.
    rewrite <- Heq. by rewrite sliceFrom_append.
  - cbn [replaceFirst]. rewrite <- Heq at 1. rewrite prefix_append.
    rewrite <- Heq. by rewrite sliceFrom_append.
Qed.

(** X9. The session filter of the listener.  Only a [session_configured]
    event can be dropped, and it is dropped exactly when its session id is
    not empty and differs from the hook's session id with its first
    [codex-event-] removed; for a hook session [codex-event-<own>] that is
    [<own>].  Since the handler only logs that event, the state after the
    listener is always the state after [handleCodexEvent]; and with an empty
    session id no event is handled at all. *)
Theorem session_filter env a event st :
  (namesOtherSession env event = true <->
     exists s, msg event = session_configured s
               /\ s <> "" /\ s <> ourSessionId env)
  /\ (forall own, sessionId env = "codex-event-" +:+ own -> ourSessionId env = own)
  /\ onCodexEvent env a event st = handleCodexEvent env a event st
  /\ (sessionId env = "" -> deliver env a event st = st).
Proof.
  split; [|split; [|split]].
  - unfold namesOtherSession, getEventSessionId. destruct (msg event) eqn:Hm;
      try (split; [done|]; by intros (s & [=] & _)).
    rewrite andb_true_iff, truthy_true, bool_decide_eq_true. split.
    + intros [H1 H2]. by eexists.
    + by intros (s & [= ->] & H1 & H2).
  - intros own Hs. unfold ourSessionId. rewrite Hs.
    by rewrite replaceFirst_prefix.
  - unfold onCodexEvent. destruct (namesOtherSession env event) eqn:Hn; [|done].
    unfold namesOtherSession, getEventSessionId in Hn.
    destruct event as [i m]. by destruct m.
  - intros Hs. unfold deliver. by rewrite Hs.
Qed.

Lemma session_filter_witness :
  ourSessionId (browserEnv "codex-event-abc" []) = "abc".
Proof.
  destruct (session_filter (browserEnv "codex-event-abc" []) (amb 1)
              (ev "e" (session_configured "abc")) initialState) as (_ & H & _).
  exact (H "abc" eq_refl).
Defined.

(** ** The auth store and the UI store *)


(** *** Strings *)

Lemma includes_append (p a b : string) : includes p (a +:+ p +:+ b) = true.
Proof.
  induction a as [|c a IH].
  - change (includes p (p +:+ b) = true).
    destruct (p +:+ b) as [|c r] eqn:Heq; cbn [includes];
      rewrite <- Heq, prefix_append; done.
  - change (includes p (String c (a +:+ p +:+ b)) = true).
    cbn [includes]. rewrite IH. apply orb_true_r.
Qed.

Lemma includes_cons_false (p : string) c s :
  includes p (String c s) = false -> includes p s = false.
Proof. cbn [includes]. by intros [_ H]%orb_false_iff. Qed.

Lemma colonFree_cons c s : colonFree (String c s) -> c <> ":"%char /\ colonFree s.
Proof.
  unfold colonFree. cbn [includes String.prefix].
  destruct (ascii_dec ":" c) as [<- | Hne].
  - by destruct s.
  - intros H. split; [congruence|]. by destruct (includes ":" s).
Qed.

(** Splitting what was joined: a field without the separator comes back
    whole. *)
Lemma splitOn_field (a b : string) :
  colonFree a -> splitOn ":" (a +:+ ":" +:+ b) = a :: splitOn ":" b.
Proof.
  induction a as [|c a IH]; intros Ha.
  - done.
  - apply colonFree_cons in Ha as [Hc Ha].
    change (splitOn ":" (String c (a +:+ ":" +:+ b)) = String c a :: splitOn ":" b).
    cbn [splitOn]. rewrite bool_decide_eq_false_2 by done. by rewrite IH.
Qed.

Lemma splitOn_whole (a : string) : colonFree a -> splitOn ":" a = [a].
Proof.
  induction a as [|c a IH]; intros Ha; [done|].
  apply colonFree_cons in Ha as [Hc Ha].
  cbn [splitOn]. rewrite bool_decide_eq_false_2 by done. by rewrite IH.
Qed.

Lemma splitOn_nonempty sep s : splitOn sep s <> [].
Proof.
  destruct s as [|c s]; [done|]. cbn [splitOn].
  case_bool_decide; [done|]. by destruct (splitOn sep s).
Qed.

(** *** The auth store *)

(** X10. A ChatGPT status read back: for an email and a plan without a
    colon, the status [chatgpt:<email>:<plan>] makes the store, whatever it
    held, a valid ChatGPT login with that email and that plan, not loading
    and with no error, and the user counts as authenticated; this holds for
    every first field, [invalid] included. *)
Theorem check_auth_status_chatgpt (e p : string) auth :
  colonFree e -> colonFree p ->
  let auth' := checkAuthStatus (Resolved (Some ("chatgpt:" +:+ e +:+ ":" +:+ p))) auth in
  auth' = {| auth_type := auth_chatgpt; email := Some e; plan := Some p;
             valid := Some true; isLoading := false; auth_error := None |}
  /\ isAuthenticated auth' = true.
Proof.
  intros He Hp auth'. subst auth'. unfold checkAuthStatus.
  assert (Hparts : splitOn ":" ("chatgpt:" +:+ e +:+ ":" +:+ p) = ["chatgpt"; e; p]).
  { change ("chatgpt:" +:+ e +:+ ":" +:+ p) with ("chatgpt" +:+ ":" +:+ e +:+ ":" +:+ p).
    rewrite (splitOn_field "chatgpt" (e +:+ ":" +:+ p)) by done.
    by rewrite (splitOn_field e p), (splitOn_whole p). }
  assert (Hstart : startsWith "chatgpt:" ("chatgpt:" +:+ e +:+ ":" +:+ p) = true)
    by apply prefix_append.
  cbn [truthyOpt Js.orEmpty default from_option Datatypes.id].
  change (Js.truthy ("chatgpt:" +:+ e +:+ ":" +:+ p)) with true. cbn [negb].
  rewrite bool_decide_eq_false_2 by discriminate.
  rewrite Hstart, Hparts. done.
Qed.

Lemma check_auth_status_chatgpt_witness :
  isAuthenticated
    (checkAuthStatus (Resolved (Some "chatgpt:ada@example.org:plus")) initialAuth) = true.
Proof.
  exact (proj2 (check_auth_status_chatgpt "ada@example.org" "plus" initialAuth
                  eq_refl eq_refl)).
Defined.



Lemma includes_outsideTauriMessage command :
  includes "outside Tauri context" (outsideTauriMessage command) = true.
Proof.
  unfold outsideTauriMessage.
  change (" called outside Tauri context. Run 'bun tauri dev' for full functionality.")
    with (" called " +:+ "outside Tauri context"
            +:+ ". Run 'bun tauri dev' for full functionality.").
  transitivity
    (includes "outside Tauri context"
       (("Tauri command " +:+ dquote +:+ command +:+ dquote +:+ " called ")
          +:+ "outside Tauri context"
          +:+ ". Run 'bun tauri dev' for full functionality.")).
  - f_equal. by rewrite !append_assoc.
  - apply includes_append.
Qed.

(** X12. Outside Tauri: whatever [invoke] rejects with and whatever the
    command, when [isTauriContext()] is false, or when the message mentions
    [IPC] or [tauri], [safeInvoke] rejects with the outside-Tauri text; and
    [checkAuthStatus] on that rejection sets, whatever the store held, the
    type [none] with the browser-mode error, not loading: the user does not
    count as authenticated. *)
Theorem check_auth_status_outside_tauri
    (isTauri : bool) (command : string) (err : Thrown) auth :
  let message :=
    match thrown_message err with
    | Some m => if Js.truthy m then m else thrown_string err
    | None => thrown_string err
    end in
  includes "IPC" message || includes "tauri" message || negb isTauri = true ->
  let rejected : Outcome (option string) := safeInvoke isTauri command (Rejected err) in
  rejected
  = Rejected {| thrown_message := Some (outsideTauriMessage command);
                thrown_string := "Error: " +:+ outsideTauriMessage command |}
  /\ checkAuthStatus rejected auth
     = freshAuth auth_none None None None (Some browserModeError)
  /\ isAuthenticated (checkAuthStatus rejected auth) = false.
Proof.
  intros message Hcond rejected.
  assert (Hrej : rejected
    = Rejected {| thrown_message := Some (outsideTauriMessage command);
                  thrown_string := "Error: " +:+ outsideTauriMessage command |}).
  { subst rejected. unfold safeInvoke. fold message. by rewrite Hcond. }
  split; [done|]. rewrite Hrej. unfold checkAuthStatus.
  cbn [thrown_message]. by rewrite includes_outsideTauriMessage.
Qed.

Lemma check_auth_status_outside_tauri_witness :
  isAuthenticated
    (checkAuthStatus
       (safeInvoke false "get_auth_status"
          (Rejected {| thrown_message := Some "window.__TAURI__ is undefined";
                       thrown_string := "TypeError: window.__TAURI__ is undefined" |}))
       initialAuth) = false.
Proof.
  exact (proj2 (proj2 (check_auth_status_outside_tauri false "get_auth_status"
    {| thrown_message := Some "window.__TAURI__ is undefined";
       thrown_string := "TypeError: window.__TAURI__ is undefined" |}
    initialAuth eq_refl))).
Defined.

(** X13. A command that fails inside Tauri never changes who is logged
    in: after a rejected [logout], a rejected [loginWithApiKey], or a
    rejected [checkAuthStatus] whose message does not mention
    [outside Tauri context], the type, email, plan and validity are what they
    were (so is the answer of [useIsAuthenticated]), loading is off and the
    error is set. *)
Theorem failed_command_keeps_login (err : Thrown) (status : Outcome (option string)) auth :
  match thrown_message err with
  | Some m => includes "outside Tauri context" m
  | None => false
  end = false ->
  let kept auth' (text : string) :=
    auth' = withStatus false (Some text) auth
    /\ isAuthenticated auth' = isAuthenticated auth in
  kept (logout (Rejected err : Outcome unit) auth) "Failed to logout"
  /\ kept (loginWithApiKey (Rejected err : Outcome unit) status auth)
       "Failed to save API key"
  /\ kept (checkAuthStatus (Rejected err) auth)
       ("Failed to check authentication status: " +:+ showMessage (thrown_message err)).
Proof.
  intros Hm kept. subst kept. cbv beta.
  split; [done|]. split; [done|].
  unfold checkAuthStatus. by rewrite Hm.
Qed.

Lemma failed_command_keeps_login_witness :
  isAuthenticated
    (logout (Rejected {| thrown_message := Some "disk full";
                         thrown_string := "Error: disk full" |} : Outcome unit)
       (freshAuth auth_api_key None None None None)) = true.
Proof.
  destruct (failed_command_keeps_login
    {| thrown_message := Some "disk full"; thrown_string := "Error: disk full" |}
    (Resolved None) (freshAuth auth_api_key None None None None) eq_refl)
    as ([_ H] & _).
  exact H.
Defined.

(** *** The UI store *)

Lemma plusOne_inRange n : inRange n -> inRange (plusOne n).
Proof.
  unfold inRange, plusOne. intros H. destruct (n <? 2 ^ 53) eqn:Hlt; [|done].
  apply Z.ltb_lt in Hlt. lia.
Qed.

Lemma minusOne_inRange n : inRange n -> inRange (minusOne n).
Proof. unfold inRange, minusOne. lia. Qed.

Lemma minusOne_plusOne n : inRange n -> n < 2 ^ 53 -> minusOne (plusOne n) = n.
Proof.
  unfold inRange, minusOne, plusOne. intros H Hlt.
  apply Z.ltb_lt in Hlt as Hb. rewrite Hb. lia.
Qed.

Lemma uiAct_inRange s action :
  inRange (activeExecs s) /\ inRange (activePatches s) ->
  inRange (activeExecs (uiAct s action)) /\ inRange (activePatches (uiAct s action)).
Proof.
  intros [He Hp]. destruct action; simpl; split;
    auto using plusOne_inRange, minusOne_inRange.
Qed.

(** X14. The counters of the UI store.  Whatever actions are dispatched
    from the initial state, [activeExecs] and [activePatches] are never
    negative (and stay in the range where the arithmetic is exact).
    [decExec] on a count of 0 leaves 0, so an end with no begin is absorbed;
    below the top of the range [decExec] undoes [incExec]; the same holds for
    the patch counter, and no action on one counter moves the other. *)
Theorem ui_counters_never_negative actions :
  let s := uiRun actions initialUi in
  (inRange (activeExecs s) /\ inRange (activePatches s))
  /\ (activeExecs s = 0 -> activeExecs (uiAct s decExec) = 0)
  /\ (activePatches s = 0 -> activePatches (uiAct s decPatch) = 0)
  /\ (activeExecs s < 2 ^ 53 ->
      activeExecs (uiAct (uiAct s incExec) decExec) = activeExecs s)
  /\ (activePatches s < 2 ^ 53 ->
      activePatches (uiAct (uiAct s incPatch) decPatch) = activePatches s)
  /\ activePatches (uiAct s incExec) = activePatches s
  /\ activePatches (uiAct s decExec) = activePatches s
  /\ activeExecs (uiAct s incPatch) = activeExecs s
  /\ activeExecs (uiAct s decPatch) = activeExecs s.
Proof.
  intros s.
  assert (Hr : inRange (activeExecs s) /\ inRange (activePatches s)).
  { subst s. unfold uiRun.
    assert (H0 : inRange (activeExecs initialUi) /\ inRange (activePatches initialUi))
      by (unfold inRange; simpl; lia).
    revert H0. generalize initialUi.
    induction actions as [|action actions IH]; intros s0 H0; simpl; [done|].
    apply IH. by apply uiAct_inRange. }
  destruct Hr as [He Hp].
  split; [done|]. simpl.
  split; [by intros ->|]. split; [by intros ->|].
  split; [by apply minusOne_plusOne|]. split; [by apply minusOne_plusOne|]. done.
Qed.

(** ** The chat components *)

(** *** Strings of the components *)

Lemma list_ascii_of_string_append (a b : string) :
  list_ascii_of_string (a +:+ b) = list_ascii_of_string a ++ list_ascii_of_string b.
Proof.
  induction a as [|c a IH]; [done|].
  change (c :: list_ascii_of_string (a +:+ b)
          = c :: list_ascii_of_string a ++ list_ascii_of_string b).
  by rewrite IH.
Qed.

Lemma string_of_list_ascii_append (l k : list ascii) :
  string_of_list_ascii (l ++ k) = string_of_list_ascii l +:+ string_of_list_ascii k.
Proof.
  induction l as [|c l IH]; [done|].
  change (String c (string_of_list_ascii (l ++ k))
          = String c (string_of_list_ascii l +:+ string_of_list_ascii k)).
  by rewrite IH.
Qed.

Lemma reverseString_append (a b : string) :
  reverseString (a +:+ b) = reverseString b +:+ reverseString a.
Proof.
  unfold reverseString.
  by rewrite list_ascii_of_string_append, rev_app_distr, string_of_list_ascii_append.
Qed.

Lemma reverseString_involutive (s : string) : reverseString (reverseString s) = s.
Proof.
  unfold reverseString.
  by rewrite list_ascii_of_string_of_list_ascii, rev_involutive,
    string_of_list_ascii_of_string.
Qed.

Lemma trimStart_id (s : string) : widthOf whiteSpace s = 0%nat -> trimStart s = s.
Proof. unfold trimStart. destruct s as [|c s]; [done|]. cbn [skipOf]. by intros ->. Qed.

Lemma trimEnd_id (s : string) :
  widthOf whiteSpaceReversed (reverseString s) = 0%nat -> trimEnd s = s.
Proof.
  unfold trimEnd. intros H. destruct (reverseString s) as [|c r] eqn:Hr.
  - cbn [skipOf]. by rewrite <- Hr, reverseString_involutive.
  - cbn [skipOf]. rewrite H. by rewrite <- Hr, reverseString_involutive.
Qed.

Lemma widthOf_digit (d : ascii) (s : string) :
  isDigit d = true -> widthOf whiteSpace (String d s) = 0%nat.
Proof.
  destruct d as [[] [] [] [] [] [] [] []]; intros H; try discriminate H; reflexivity.
Qed.

Lemma widthOf_reversed_digit (d : ascii) (s : string) :
  isDigit d = true -> widthOf whiteSpaceReversed (String d s) = 0%nat.
Proof.
  destruct d as [[] [] [] [] [] [] [] []]; intros H; try discriminate H; reflexivity.
Qed.

Lemma digit_line (d : ascii) :
  isDigit d = true -> d <> "010"%char /\ d <> "013"%char /\ d <> "-"%char.
Proof.
  destruct d as [[] [] [] [] [] [] [] []]; intros H; try discriminate H; done.
Qed.

Lemma takeDigits_all (ds : string) : allDigits ds = true -> takeDigits ds = ds.
Proof.
  induction ds as [|c ds IH]; [done|]. cbn [allDigits takeDigits].
  intros [Hc Hd]%andb_true_iff. by rewrite Hc, IH.
Qed.

Lemma lineFree_digits (ds : string) : allDigits ds = true -> lineFree ds = true.
Proof.
  induction ds as [|c ds IH]; [done|]. cbn [allDigits lineFree].
  intros [Hc Hd]%andb_true_iff. destruct (digit_line c Hc) as (H1 & H2 & _).
  rewrite !bool_decide_eq_false_2 by done. by rewrite IH.
Qed.

Lemma lineFree_append (a b : string) :
  lineFree (a +:+ b) = lineFree a && lineFree b.
Proof.
  induction a as [|c a IH]; [done|].
  change (lineFree (String c (a +:+ b)) = lineFree (String c a) && lineFree b).
  cbn [lineFree]. rewrite IH. by rewrite !andb_assoc.
Qed.

(** The last character of a string of digits. *)
Lemma digits_last (ds : string) :
  allDigits ds = true -> ds <> "" ->
  exists p d, ds = p +:+ String d "" /\ isDigit d = true.
Proof.
  induction ds as [|c ds IH]; [done|]. cbn [allDigits].
  intros [Hc Hd]%andb_true_iff _. destruct ds as [|c' ds].
  - by exists "", c.
  - destruct (IH Hd) as (p & d & -> & Hdig); [done|].
    by exists (String c p), d.
Qed.

Lemma string_of_uint_digits (d : Decimal.uint) :
  allDigits (NilEmpty.string_of_uint d) = true.
Proof. induction d; done. Qed.

(** The shape of [`${n}`]: an optional minus sign and one digit or more. *)
Lemma showZ_shape (z : Z) :
  exists sign ds,
    Js.showZ z = sign +:+ ds /\ (sign = "" \/ sign = "-")
    /\ allDigits ds = true /\ ds <> "".
Proof.
  unfold Js.showZ.
  assert (Hu : forall d, allDigits (NilZero.string_of_uint d) = true
                         /\ NilZero.string_of_uint d <> "").
  { intros d. split.
    - destruct d; try done; apply (string_of_uint_digits (_ _)).
    - by destruct d. }
  destruct (Z.to_int z) as [d|d]; cbn [NilZero.string_of_int].
  - exists "", (NilZero.string_of_uint d). split; [done|]. split; [by left|]. apply Hu.
  - exists "-", (NilZero.string_of_uint d). split; [done|]. split; [by right|]. apply Hu.
Qed.

Lemma parseInt10_showZ (z : Z) : parseInt10 (Js.showZ z) = Some z.
Proof.
  unfold parseInt10, Js.showZ. rewrite NilZero.isi.
  - cbn. by rewrite DecimalZ.of_to.
  - intros H. pose proof (DecimalZ.of_to z) as Hz. rewrite H in Hz.
    cbn in Hz. subst z. discriminate H.
  - intros H. pose proof (DecimalZ.of_to z) as Hz. rewrite H in Hz.
    cbn in Hz. subst z. discriminate H.
Qed.



Lemma splitLines_nonempty (s : string) : splitLines s <> [].
Proof.
  destruct s as [|c s]; [done|]. cbn [splitLines].
  assert (H : match splitLines s with
              | [] => [String c ""] | x :: r => String c x :: r end <> [])
    by (by destruct (splitLines s)).
  case_bool_decide; [done|]. case_bool_decide; [|done].
  destruct s as [|c' s]; [done|]. by case_bool_decide.
Qed.

Lemma splitLines_whole (a : string) : lineFree a = true -> splitLines a = [a].
Proof.
  induction a as [|c a IH]; [done|]. cbn [lineFree].
  intros [[H1%negb_true_iff H2%negb_true_iff]%andb_true_iff Ha]%andb_true_iff.
  cbn [splitLines]. rewrite H1, H2. by rewrite IH.
Qed.

Lemma splitLines_line (a b : string) :
  lineFree a = true -> splitLines (a +:+ Js.nl +:+ b) = a :: splitLines b.
Proof.
  induction a as [|c a IH].
  - intros _. change (splitLines (String "010" b) = "" :: splitLines b).
    cbn [splitLines]. by rewrite bool_decide_eq_true_2.
  - cbn [lineFree].
    intros [[H1%negb_true_iff H2%negb_true_iff]%andb_true_iff Ha]%andb_true_iff.
    change (splitLines (String c (a +:+ Js.nl +:+ b)) = String c a :: splitLines b).
    cbn [splitLines]. rewrite H1, H2. by rewrite IH.
Qed.

Lemma endsWithCR_cons c c' s :
  endsWithCR (String c (String c' s)) = endsWithCR (String c' s).
Proof. done. Qed.

Lemma splitLines_last_bounded (n : nat) (t e : string) :
  (String.length t <= n)%nat -> lineFree e = true -> endsWithCR t = false ->
  splitLines (t +:+ Js.nl +:+ e) = splitLines t ++ [e].
Proof.
  revert t. induction n as [|n IH]; intros t Hn He Ht.
  - destruct t; [|cbn in Hn; lia].
    change (splitLines (String "010" e) = [""; e]).
    cbn [splitLines]. rewrite bool_decide_eq_true_2 by done.
    by rewrite splitLines_whole.
  - destruct t as [|c t].
    { change (splitLines (String "010" e) = [""; e]).
      cbn [splitLines]. rewrite bool_decide_eq_true_2 by done.
      by rewrite splitLines_whole. }
    cbn [String.length] in Hn.
    assert (Hline : endsWithCR t = false ->
      match splitLines (t +:+ Js.nl +:+ e) with
      | [] => [String c ""] | x :: r => String c x :: r
      end
      = match splitLines t with
        | [] => [String c ""] | x :: r => String c x :: r
        end ++ [e]).
    { intros Ht'. rewrite IH by (done || lia).
      pose proof (splitLines_nonempty t). by destruct (splitLines t). }
    change (splitLines (String c (t +:+ Js.nl +:+ e)) = splitLines (String c t) ++ [e]).
    cbn [splitLines]. case_bool_decide as Hlf.
    { subst c. destruct t as [|c' t].
      - change (splitLines (String "010" e)) with (splitLines ("" +:+ Js.nl +:+ e)).
        rewrite IH by (done || cbn; lia). done.
      - rewrite endsWithCR_cons in Ht. rewrite IH by (done || lia). done. }
    case_bool_decide as Hcr.
    + subst c. destruct t as [|c' t]; [done|].
      rewrite endsWithCR_cons in Ht.
      change (String c' t +:+ Js.nl +:+ e) with (String c' (t +:+ Js.nl +:+ e)).
      cbv zeta. destruct (decide (c' = "010"%char)) as [Hlf'|Hlf'];
        [rewrite !(bool_decide_eq_true_2 _ Hlf')|rewrite !(bool_decide_eq_false_2 _ Hlf')].
      * subst c'. cbn [String.length] in Hn. destruct t as [|c'' t].
        -- change (splitLines ("" +:+ Js.nl +:+ e)) with (splitLines (String "010" e)).
           cbn [splitLines]. rewrite bool_decide_eq_true_2 by done.
           by rewrite splitLines_whole.
        -- rewrite endsWithCR_cons in Ht. rewrite IH by (done || lia). done.
      * change (String c' (t +:+ Js.nl +:+ e)) with (String c' t +:+ Js.nl +:+ e).
        by apply Hline.
    + destruct t as [|c' t].
      * change (splitLines ("" +:+ Js.nl +:+ e)) with (splitLines (String "010" e)).
        cbn [splitLines]. rewrite bool_decide_eq_true_2 by done.
        by rewrite splitLines_whole.
      * rewrite endsWithCR_cons in Ht. by apply Hline.
Qed.

Lemma splitLines_last (t e : string) :
  lineFree e = true -> endsWithCR t = false ->
  splitLines (t +:+ Js.nl +:+ e) = splitLines t ++ [e].
Proof. by apply (splitLines_last_bounded (String.length t)). Qed.

Lemma join_cons (sep x y : string) (r : list string) :
  Js.join sep (x :: y :: r) = x +:+ sep +:+ Js.join sep (y :: r).
Proof. done. Qed.

(** Without carriage returns, joining the lines gives the text back. *)
Lemma join_splitLines (t : string) : noCR t = true -> Js.join Js.nl (splitLines t) = t.
Proof.
  induction t as [|c t IH]; [done|]. cbn [noCR].
  intros [Hc%negb_true_iff Ht]%andb_true_iff. specialize (IH Ht).
  cbn [splitLines]. cbv zeta. rewrite Hc. clear Hc.
  destruct (decide (c = "010"%char)) as [Hlf|Hlf];
    [rewrite (bool_decide_eq_true_2 _ Hlf)|rewrite (bool_decide_eq_false_2 _ Hlf)].
  - subst c. pose proof (splitLines_nonempty t).
    destruct (splitLines t) as [|y r] eqn:Hs; [done|].
    rewrite join_cons, IH. done.
  - pose proof (splitLines_nonempty t).
    destruct (splitLines t) as [|y r] eqn:Hs; [done|].
    destruct r as [|y' r].
    + cbn in IH |- *. by rewrite IH.
    + rewrite join_cons in IH. rewrite join_cons, <- IH. done.
Qed.

(** *** [parseExecContent] *)

Lemma matchExit_line (sign ds : string) :
  sign = "" \/ sign = "-" -> allDigits ds = true -> ds <> "" ->
  matchExit ("exit " +:+ sign +:+ ds) = Some (sign +:+ ds).
Proof.
  intros Hsign Hd Hne. destruct ds as [|d ds]; [done|].
  pose proof (takeDigits_all _ Hd) as Htake.
  cbn [allDigits] in Hd. apply andb_true_iff in Hd as [Hdig Hd].
  pose proof (widthOf_digit d ds Hdig) as Hw.
  destruct (digit_line d Hdig) as (_ & _ & Hminus).
  unfold matchExit, trimStart. destruct Hsign as [-> | ->].
  - change ("exit " +:+ "" +:+ String d ds)
      with ("exit" +:+ String " " (String d ds)).
    unfold startsWith at 1. rewrite prefix_append.
    rewrite (sliceFrom_append "exit").
    change (widthOf whiteSpace (String " " (String d ds))) with 1%nat.
    cbn [skipOf].
    change (widthOf whiteSpace (String " " (String d ds))) with 1%nat.
    rewrite Hw. unfold startsWith. cbn [String.prefix].
    destruct (ascii_dec "-" d) as [Heq|_]; [by subst d|].
    cbn [String.length sliceFrom]. rewrite Htake. done.
  - change ("exit " +:+ "-" +:+ String d ds)
      with ("exit" +:+ String " " (String "-" (String d ds))).
    unfold startsWith at 1. rewrite prefix_append.
    rewrite (sliceFrom_append "exit").
    change (widthOf whiteSpace (String " " (String "-" (String d ds)))) with 1%nat.
    cbn [skipOf].
    change (widthOf whiteSpace (String " " (String "-" (String d ds)))) with 1%nat.
    change (widthOf whiteSpace (String "-" (String d ds))) with 0%nat.
    unfold startsWith. cbn [String.prefix].
    destruct (ascii_dec "-" "-") as [_|Hne']; [|done].
    cbn [String.length sliceFrom]. rewrite Htake. done.
Qed.

(** What the hook writes as the last line of a command is read back. *)
Lemma exit_line (code : Z) :
  let e := "exit " +:+ Js.showZ code in
  lineFree e = true /\ trim e = e /\ Js.truthy e = true
  /\ matchExit e = Some (Js.showZ code).
Proof.
  intros e. subst e.
  destruct (showZ_shape code) as (sign & ds & Heq & Hsign & Hd & Hne).
  rewrite Heq. split; [|split; [|split]].
  - rewrite !lineFree_append, (lineFree_digits _ Hd).
    by destruct Hsign as [-> | ->].
  - unfold trim. rewrite trimStart_id by done. apply trimEnd_id.
    destruct (digits_last _ Hd Hne) as (p & d & -> & Hdig).
    rewrite <- !append_assoc, reverseString_append.
    change (reverseString (String d "")) with (String d "").
    apply (widthOf_reversed_digit d _ Hdig).
  - done.
  - by apply matchExit_line.
Qed.

Lemma exitScan_last (startIdx : nat) (L : list string) (e m : string) :
  (startIdx <= length L)%nat -> trim e = e -> Js.truthy e = true ->
  matchExit e = Some m ->
  exitScan startIdx (length (L ++ [e])) (L ++ [e]) = (parseInt10 m, L).
Proof.
  intros Hle Htrim Hne Hm. rewrite length_app, Nat.add_1_r. cbn [exitScan].
  apply Nat.ltb_ge in Hle as Hlt. rewrite Hlt.
  rewrite list_lookup_middle by done. cbn [default from_option Datatypes.id].
  rewrite Htrim, Hne. cbn [negb]. rewrite Hm.
  by rewrite delete_middle, app_nil_r.
Qed.

Lemma exitScan_blank (startIdx : nat) (L : list string) :
  exitScan startIdx (length (L ++ [""])) (L ++ [""])
  = exitScan startIdx (length L) (L ++ [""]).
Proof.
  rewrite length_app, Nat.add_1_r. cbn [exitScan].
  destruct (length L <? startIdx)%nat eqn:Hlt.
  - destruct (length L) as [|i] eqn:HL; [done|]. cbn [exitScan].
    apply Nat.ltb_lt in Hlt. assert (Hi : (i <? startIdx)%nat = true)
      by (apply Nat.ltb_lt; lia). by rewrite Hi.
  - by rewrite list_lookup_middle.
Qed.

Lemma parseExecContent_lines (h : list string) (cwd : option string) (c : string)
    (rest : list string) (exitCode : option Z) (kept : list string) :
  h = (if truthyOpt cwd then ["cwd: " +:+ Js.orEmpty cwd] else []) ++ ["$ " +:+ c] ->
  exitScan (length h) (length (h ++ rest)) (h ++ rest) = (exitCode, h ++ kept) ->
  forall content, splitLines content = h ++ rest ->
  parseExecContent content
  = {| parsed_cwd := if truthyOpt cwd then Some (Js.orEmpty cwd) else None;
       parsed_cmdLine := Some c;
       parsed_output := Js.join Js.nl kept;
       parsed_exitCode := exitCode |}.
Proof.
  intros -> Hscan content Hlines. unfold parseExecContent. rewrite Hlines.
  destruct (truthyOpt cwd).
  - cbn [app length lookup list_lookup] in *. unfold startsWith.
    rewrite prefix_append, (sliceFrom_append "cwd: ").
    cbn [lookup list_lookup]. rewrite prefix_append, (sliceFrom_append "$ ").
    rewrite Hscan. done.
  - cbn [app length lookup list_lookup] in *. unfold startsWith.
    change (String.prefix "cwd: " ("$ " +:+ c)) with false.
    cbn [lookup list_lookup]. rewrite prefix_append, (sliceFrom_append "$ ").
    rewrite Hscan. done.
Qed.

(** X15. What the hook writes for a command is what [ExecBlock] reads.
    For a working directory and a command line without line breaks:
    the header alone parses to that directory (none when it is empty), that
    command line, no output and no exit code, which is shown as running; the
    finished content, header, output and [exit <code>], parses to the same
    directory and command line, the exit code [code], and the output with
    its lines joined by line feeds, provided the output does not end in a
    carriage return.  An output without carriage returns comes back
    unchanged. *)
Theorem exec_content_parses (cmd : option (list string)) (cwd : option string)
    (texts : string) (code : Z) :
  lineFree (Js.orEmpty cwd) = true ->
  lineFree (Js.join " " (Js.orNil cmd)) = true ->
  endsWithCR texts = false ->
  let header := execHeader cmd cwd in
  let shown := if truthyOpt cwd then Some (Js.orEmpty cwd) else None in
  parseExecContent header
  = {| parsed_cwd := shown; parsed_cmdLine := Some (Js.join " " (Js.orNil cmd));
       parsed_output := ""; parsed_exitCode := None |}
  /\ parseExecContent (header +:+ texts +:+ Js.nl +:+ "exit " +:+ Js.showZ code)
     = {| parsed_cwd := shown; parsed_cmdLine := Some (Js.join " " (Js.orNil cmd));
          parsed_output := Js.join Js.nl (splitLines texts);
          parsed_exitCode := Some code |}
  /\ (noCR texts = true -> Js.join Js.nl (splitLines texts) = texts).
Proof.
  intros Hcwd Hcmd Htexts header shown.
  set (c := Js.join " " (Js.orNil cmd)) in *.
  set (h := (if truthyOpt cwd then ["cwd: " +:+ Js.orEmpty cwd] else [])
              ++ ["$ " +:+ c]).
  assert (Hh : forall r, splitLines (header +:+ r) = h ++ splitLines r).
  { intros r. subst header h. unfold execHeader. fold c.
    destruct (truthyOpt cwd); cbn [app Js.join String.concat].
    - rewrite !append_assoc. rewrite <- (append_assoc "cwd: " (Js.orEmpty cwd)).
      rewrite splitLines_line by (rewrite lineFree_append; by rewrite Hcwd).
      rewrite <- (append_assoc "$ " c).
      rewrite splitLines_line by (rewrite lineFree_append; by rewrite Hcmd).
      done.
    - rewrite !append_assoc. rewrite <- (append_assoc "$ " c).
      rewrite splitLines_line by (rewrite lineFree_append; by rewrite Hcmd).
      done. }
  assert (Hlen : (length h <= length (h ++ splitLines texts))%nat)
    by (rewrite length_app; lia).
  destruct (exit_line code) as (He1 & He2 & He3 & He4).
  split; [|split].
  - apply (parseExecContent_lines h cwd c [""] None [""]); [done| |].
    + rewrite exitScan_blank.
      destruct (length h) as [|i] eqn:HL; [done|]. cbn [exitScan].
      assert (Hi : (i <? S i)%nat = true) by (apply Nat.ltb_lt; lia).
      by rewrite Hi.
    + rewrite <- (append_empty_r header). by rewrite Hh.
  - apply (parseExecContent_lines h cwd c (splitLines texts ++ ["exit " +:+ Js.showZ code])
             (Some code) (splitLines texts)); [done| |].
    + rewrite !app_assoc.
      rewrite (exitScan_last _ _ _ (Js.showZ code)) by (done || rewrite length_app; lia).
      by rewrite parseInt10_showZ.
    + rewrite Hh. by rewrite splitLines_last.
  - apply join_splitLines.
Qed.

Lemma exec_content_parses_witness :
  parseExecContent
    (execHeader (Some ["ls"; "-la"]) (Some "/tmp") +:+ "a.txt" +:+ Js.nl +:+ "b.txt"
       +:+ Js.nl +:+ "exit " +:+ Js.showZ 2)
  = {| parsed_cwd := Some "/tmp"; parsed_cmdLine := Some "ls -la";
       parsed_output := Js.join Js.nl ["a.txt"; "b.txt"]; parsed_exitCode := Some 2 |}.
Proof.
  exact (proj1 (proj2 (exec_content_parses (Some ["ls"; "-la"]) (Some "/tmp")
    ("a.txt" +:+ Js.nl +:+ "b.txt") 2 eq_refl eq_refl eq_refl))).
Defined.

(** *** The dispatch of a message *)

Lemma closesFence_end (a : string) : closesFence (a +:+ "```") = true.
Proof.
  induction a as [|c a IH]; [done|].
  change (closesFence (String c (a +:+ "```")) = true).
  cbn [closesFence]. rewrite IH. apply orb_true_r.
Qed.

Lemma includes_fence_suffix (s : string) :
  includes (Js.nl +:+ "$ ") (s +:+ Js.nl +:+ "```") = includes (Js.nl +:+ "$ ") s.
Proof.
  induction s as [|c s IH]; [reflexivity|].
  change (includes (Js.nl +:+ "$ ") (String c (s +:+ Js.nl +:+ "```"))
          = includes (Js.nl +:+ "$ ") (String c s)).
  cbn [includes]. rewrite IH. f_equal.
  change (Js.nl +:+ "$ ") with (String "010" (String "$" (String " " ""))).
  cbn [String.prefix]. destruct (ascii_dec "010" c) as [_|_]; [|done].
  destruct s as [|c2 s]; [reflexivity|].
  change (String c2 s +:+ Js.nl +:+ "```") with (String c2 (s +:+ Js.nl +:+ "```")).
  cbn [String.prefix]. destruct (ascii_dec "$" c2) as [_|_]; [|done].
  destruct s as [|c3 s]; [reflexivity|].
  change (String c3 s +:+ Js.nl +:+ "```") with (String c3 (s +:+ Js.nl +:+ "```")).
  cbn [String.prefix]. destruct (ascii_dec " " c3) as [_|_]; [|done].
  transitivity true; [exact (prefix_append "" _)|symmetry; exact (prefix_append "" _)].
Qed.

Lemma trim_fenced (a : string) : trim ("```" +:+ a +:+ "```") = "```" +:+ a +:+ "```".
Proof.
  unfold trim. rewrite trimStart_id by done. apply trimEnd_id.
  rewrite <- append_assoc, reverseString_append. done.
Qed.

(** X16. A command message is always rendered by [ExecBlock].  Whatever
    the command line and the working directory, a system message whose
    content starts with the header [exec_command_begin] writes, whatever
    follows the header, is dispatched to the exec block, both as a codex
    message and as the message [addMessageToStore] hands to the store: it is
    never hidden, and never rendered as markdown, as a diff or as an
    environment context. *)
Theorem command_message_is_exec_block (cmd : option (list string)) (cwd : option string)
    (rest i : string) (ts : Z) (streaming : option bool) :
  let text := execHeader cmd cwd +:+ rest in
  messageBlock
    (normalizeMessage
       (codexMessage {| cm_id := i; cm_type := system; cm_content := text;
                        cm_timestamp := ts; cm_isStreaming := streaming |}))
  = block_exec
  /\ messageBlock
       (normalizeMessage
          (chatMessage {| msg_id := i; role := role_system; content := text;
                          timestamp := ts |}))
     = block_exec.
Proof.
  intros text.
  assert (H : Js.truthy text = true /\ isEnvironmentContext text = false
              /\ isExecLike role_system text = true).
  { subst text. unfold execHeader, isExecLike, isEnvironmentContext, startsWith.
    destruct (truthyOpt cwd); cbn [app Js.join String.concat]; rewrite !append_assoc.
    - split; [done|]. split; [done|]. by rewrite prefix_append.
    - split; [done|]. split; [done|]. rewrite (prefix_append "$ "). apply orb_true_r. }
  destruct H as (H1 & H2 & H3).
  unfold messageBlock, normalizeMessage.
  cbn [nm_content nm_role cm_content cm_type content role].
  by rewrite H1, H2, H3.
Qed.

(** X17. A diff message is rendered by [DiffBlock], unless a line of the
    diff starts with a dollar sign and a space: then the content matches the
    test for commands, which comes first, and the diff is rendered by
    [ExecBlock].  This holds for every diff text, for the content
    [turn_diff] builds from it in a system message; with another role the
    block is always the diff block. *)
Theorem diff_message_block (raw i : string) (r : Role) (ts : Z) :
  messageBlock
    (normalizeMessage
       (chatMessage {| msg_id := i; role := r; content := diffContent raw;
                       timestamp := ts |}))
  = match r with
    | role_system => if hasDollarLine raw then block_exec else block_diff
    | _ => block_diff
    end.
Proof.
  unfold messageBlock, normalizeMessage. cbn [nm_content nm_role content role].
  assert (Hexec : isExecLike r (diffContent raw)
                  = match r with role_system => hasDollarLine raw | _ => false end).
  { destruct r; try done. unfold isExecLike, hasDollarLine, diffContent, startsWith.
    change (String.prefix "cwd: " ("```diff" +:+ Js.nl +:+ raw +:+ Js.nl +:+ "```"))
      with false.
    change (String.prefix "$ " ("```diff" +:+ Js.nl +:+ raw +:+ Js.nl +:+ "```"))
      with false.
    rewrite !orb_false_r. cbn [orb].
    transitivity (includes (Js.nl +:+ "$ ") ((Js.nl +:+ raw) +:+ Js.nl +:+ "```")).
    - rewrite append_assoc. done.
    - apply includes_fence_suffix. }
  assert (Hdiff : isDiffBlock (diffContent raw) = true).
  { unfold isDiffBlock.
    assert (Hshape : diffContent raw
                     = "```" +:+ ("diff" +:+ Js.nl +:+ raw +:+ Js.nl) +:+ "```")
      by (unfold diffContent; by rewrite !append_assoc).
    rewrite Hshape at 1. rewrite trim_fenced, <- Hshape.
    assert (Hopen : diffContent raw = "```diff" +:+ (Js.nl +:+ raw +:+ Js.nl) +:+ "```")
      by (unfold diffContent; by rewrite !append_assoc).
    unfold fencedDiff, opensFence, startsWith. rewrite Hopen at 1 2.
    rewrite prefix_append, (sliceFrom_append "```diff"), closesFence_end. done. }
  rewrite Hexec, Hdiff.
  change (Js.truthy (diffContent raw)) with true.
  change (isEnvironmentContext (diffContent raw)) with false.
  by destruct r.
Qed.

(** *** [parseUnifiedDiff] *)

Lemma pushCurrent_header files current line :
  pushCurrent (pushCurrent (files, current),
               Some {| diff_header := line; diff_hunks := []; diff_add := 0; diff_del := 0 |})
  = pushCurrent (files, current)
      ++ [{| diff_header := line; diff_hunks := []; diff_add := 0; diff_del := 0 |}].
Proof. done. Qed.

Lemma fileLines_loop (lines : list string) files current :
  concat (fileLines <$> pushCurrent (fold_left diffLine lines (files, current)))
  = concat (fileLines <$> pushCurrent (files, current))
      ++ match current with
         | Some _ => lines
         | None => fromFirstHeader lines
         end.
Proof.
  revert files current. induction lines as [|line rest IH]; intros files current.
  - cbn [fold_left fromFirstHeader]. destruct current; by rewrite app_nil_r.
  - cbn [fold_left fromFirstHeader]. unfold diffLine at 2.
    destruct (isFileHeader line) eqn:Hh.
    + rewrite IH. change (match current with Some c => files ++ [c] | None => files end)
        with (pushCurrent (files, current)).
      rewrite pushCurrent_header, fmap_app, concat_app. cbn [fmap list_fmap concat fileLines
        diff_header diff_hunks app]. rewrite <- app_assoc. by destruct current.
    + destruct current as [c|].
      * rewrite IH. unfold pushCurrent. cbn [fst snd].
        rewrite !fmap_app, !concat_app, <- !app_assoc. f_equal.
        cbn [fmap list_fmap concat fileLines diff_header diff_hunks].
        rewrite !app_nil_r. unfold fileLines. cbn [diff_header diff_hunks app].
        by rewrite <- app_assoc.
      * by rewrite IH.
Qed.

Lemma wellFormedFile_loop (lines : list string) files current :
  Forall wellFormedFile (pushCurrent (files, current)) ->
  Forall wellFormedFile (pushCurrent (fold_left diffLine lines (files, current))).
Proof.
  revert files current. induction lines as [|line rest IH]; intros files current Hwf;
    [done|].
  cbn [fold_left]. unfold diffLine at 2. destruct (isFileHeader line) eqn:Hh.
  - apply IH. change (match current with Some c => files ++ [c] | None => files end)
      with (pushCurrent (files, current)).
    rewrite pushCurrent_header. apply Forall_app. split; [done|].
    apply Forall_singleton. by repeat split.
  - destruct current as [c|]; [|by apply IH].
    apply IH. unfold pushCurrent in *. cbn [fst snd] in *.
    apply Forall_app in Hwf as [Hfiles Hc]. apply Forall_app. split; [done|].
    apply Forall_singleton. apply Forall_singleton in Hc as (H1 & H2 & H3 & H4).
    unfold wellFormedFile. cbn [diff_header diff_hunks diff_add diff_del].
    split; [done|]. split; [apply Forall_app; split; [done|by apply Forall_singleton]|].
    rewrite !filter_app, !length_app, !Nat2Z.inj_add, <- H3, <- H4.
    split.
    + destruct (isAdded line) eqn:Ha.
      * by rewrite filter_cons_True by done.
      * rewrite filter_cons_False by (by rewrite Ha). cbn. lia.
    + destruct (isRemoved line) eqn:Hr.
      * by rewrite filter_cons_True by done.
      * rewrite filter_cons_False by (by rewrite Hr). cbn. lia.
Qed.

Lemma length_loop (lines : list string) files current :
  length (pushCurrent (fold_left diffLine lines (files, current)))
  = (length (pushCurrent (files, current))
     + length (filter (fun l => isFileHeader l = true) lines))%nat.
Proof.
  revert files current. induction lines as [|line rest IH]; intros files current.
  - cbn. lia.
  - cbn [fold_left]. unfold diffLine at 2. destruct (isFileHeader line) eqn:Hh.
    + rewrite IH. change (match current with Some c => files ++ [c] | None => files end)
        with (pushCurrent (files, current)).
      rewrite pushCurrent_header, length_app, filter_cons_True by done. cbn. lia.
    + rewrite filter_cons_False by (by rewrite Hh).
      destruct current as [c|]; rewrite IH; unfold pushCurrent; cbn [fst snd];
        rewrite ?length_app; cbn; lia.
Qed.

Lemma prefix_includes (p s : string) : String.prefix p s = true -> includes p s = true.
Proof. intros H. destruct s; cbn [includes]; by rewrite H. Qed.

Lemma prefix_append_l (p q s : string) :
  String.prefix (p +:+ q) s = true -> String.prefix p s = true.
Proof.
  revert s. induction p as [|c p IH]; intros s; [intros _; by destruct s|].
  change (String.prefix (String c (p +:+ q)) s = true
          -> String.prefix (String c p) s = true).
  destruct s as [|c' s]; [done|]. cbn [String.prefix].
  destruct (ascii_dec c c'); [apply IH|done].
Qed.

Lemma no_fence_here (s : string) :
  includes "```" s = false ->
  startsWith "```diff" s = false /\ fenceHere s = false.
Proof.
  intros H.
  assert (Hp : String.prefix "```" s = false).
  { destruct (String.prefix "```" s) eqn:E; [|done].
    apply prefix_includes in E. congruence. }
  split.
  - unfold startsWith. destruct (String.prefix "```diff" s) eqn:E; [|done].
    apply (prefix_append_l "```" "diff") in E. congruence.
  - unfold fenceHere, startsWith. by rewrite Hp.
Qed.

Lemma removeOpenFence_none (s : string) (atStart : bool) (b1 b2 : ascii) :
  includes "```" s = false -> removeOpenFence atStart b1 b2 s = s.
Proof.
  revert atStart b1 b2. induction s as [|c s IH]; intros atStart b1 b2 H.
  - cbn [removeOpenFence]. by rewrite andb_false_r.
  - destruct (no_fence_here _ H) as [Ho _]. cbn [removeOpenFence].
    rewrite Ho, andb_false_r. rewrite IH; [done|].
    by apply includes_cons_false in H.
Qed.

Lemma removeCloseFence_none (s : string) :
  includes "```" s = false -> removeCloseFence s = s.
Proof.
  induction s as [|c s IH]; intros H; [done|].
  destruct (no_fence_here _ H) as [_ Hc].
  apply includes_cons_false in H as Hs. destruct (no_fence_here _ Hs) as [_ Hc'].
  cbn [removeCloseFence sliceFrom]. rewrite Hc, Hc', andb_false_r.
  by rewrite IH.
Qed.

(** X18. What [parseUnifiedDiff] keeps.  Before its loop the function
    trims the text, removes the first opening fence that starts a line and
    removes the first three backquotes that end a line; the loop reads the
    lines of what is left.  For every text, of these lines the ones before
    the first [diff --git] line are dropped and no other: the files, each as
    its header followed by its hunks, are the lines from the first header
    on, in order.  There is one file for each header line, none when there is
    no header.  In each file the header is a [diff --git] line, no hunk is,
    [add] counts the hunks that start with [+] but not with [+++] and [del]
    those that start with [-] but not with [---].  When the trimmed text
    holds no three backquotes in a row, nothing is removed before the loop:
    the lines read are the lines of the trimmed text, so the files are the
    lines of the trimmed text from its first header on. *)
Theorem parse_unified_diff_keeps_lines (raw : string) :
  let files := parseUnifiedDiff raw in
  concat (fileLines <$> files) = fromFirstHeader (diffLines raw)
  /\ length files
     = length (filter (fun l => isFileHeader l = true) (diffLines raw))
  /\ Forall wellFormedFile files
  /\ (includes "```" (trim raw) = false ->
      diffLines raw = splitLines (trim raw)
      /\ concat (fileLines <$> files) = fromFirstHeader (splitLines (trim raw))).
Proof.
  intros files. subst files. unfold parseUnifiedDiff, parseDiffLines.
  split; [|split; [|split]].
  - by rewrite fileLines_loop.
  - by rewrite length_loop.
  - by apply wellFormedFile_loop.
  - intros H.
    assert (Hl : diffLines raw = splitLines (trim raw)).
    { unfold diffLines. rewrite removeOpenFence_none by done.
      by rewrite removeCloseFence_none. }
    split; [done|]. by rewrite fileLines_loop, Hl.
Qed.

Lemma parse_unified_diff_keeps_lines_witness :
  concat (fileLines <$>
            parseUnifiedDiff ("note" +:+ Js.nl +:+ "diff --git a/x b/x" +:+ Js.nl
                                +:+ "-old" +:+ Js.nl +:+ "+new" +:+ Js.nl))
  = ["diff --git a/x b/x"; "-old"; "+new"].
Proof.
  exact (proj2 (proj2 (proj2 (proj2 (parse_unified_diff_keeps_lines
    ("note" +:+ Js.nl +:+ "diff --git a/x b/x" +:+ Js.nl
       +:+ "-old" +:+ Js.nl +:+ "+new" +:+ Js.nl)))) eq_refl)).
Defined.

(** *** The diff message read by [DiffBlock] *)

Lemma prefix_empty (s : string) : String.prefix "" s = true.
Proof. by destruct s. Qed.

Lemma prefix_before_nl (w r x y : string) :
  noLF w = true ->
  String.prefix w (r +:+ Js.nl +:+ x) = String.prefix w (r +:+ Js.nl +:+ y).
Proof.
  revert r. induction w as [|a w IH]; intros r Hw.
  - by rewrite !prefix_empty.
  - cbn [noLF] in Hw. apply andb_true_iff in Hw as [Ha%negb_true_iff Hw].
    apply bool_decide_eq_false in Ha. destruct r as [|c r].
    + change ("" +:+ Js.nl +:+ x) with (String "010" x).
      change ("" +:+ Js.nl +:+ y) with (String "010" y).
      cbn [String.prefix]. by destruct (ascii_dec a "010").
    + change (String c r +:+ Js.nl +:+ x) with (String c (r +:+ Js.nl +:+ x)).
      change (String c r +:+ Js.nl +:+ y) with (String c (r +:+ Js.nl +:+ y)).
      cbn [String.prefix]. destruct (ascii_dec a c); [by apply IH|done].
Qed.

Lemma prefix_nl_before_nl (r x y : string) :
  String.prefix Js.nl (r +:+ Js.nl +:+ x) = String.prefix Js.nl (r +:+ Js.nl +:+ y).
Proof.
  destruct r as [|c r].
  { transitivity true; [exact (prefix_append Js.nl x)|].
    symmetry. exact (prefix_append Js.nl y). }
  change (String c r +:+ Js.nl +:+ x) with (String c (r +:+ Js.nl +:+ x)).
  change (String c r +:+ Js.nl +:+ y) with (String c (r +:+ Js.nl +:+ y)).
  change Js.nl with (String "010" "").
  cbn [String.prefix]. destruct (ascii_dec "010" c); [|done].
  by rewrite !prefix_empty.
Qed.

Lemma atLineEnd_before_nl (r x y : string) :
  atLineEnd (r +:+ Js.nl +:+ x) = atLineEnd (r +:+ Js.nl +:+ y).
Proof.
  unfold atLineEnd. f_equal.
  - by destruct r.
  - unfold lineTerminator. cbn [widthOf].
    change (String "010" "") with Js.nl.
    rewrite (prefix_nl_before_nl r x y).
    rewrite (prefix_before_nl (String "013" "") r x y) by done.
    rewrite (prefix_before_nl (String "226" (String "128" (String "168" ""))) r x y)
      by done.
    rewrite (prefix_before_nl (String "226" (String "128" (String "169" ""))) r x y)
      by done.
    done.
Qed.

Lemma fenceHere_before_nl (r x y : string) :
  fenceHere (r +:+ Js.nl +:+ x) = fenceHere (r +:+ Js.nl +:+ y).
Proof.
  unfold fenceHere, startsWith. rewrite (prefix_before_nl "```" r x y) by done.
  destruct (String.prefix "```" (r +:+ Js.nl +:+ y)) eqn:Hp; [|done].
  cbn [andb].
  assert (Hr : exists r3, r = "```" +:+ r3).
  { destruct r as [|c1 r]; [done|].
    change (String c1 r +:+ Js.nl +:+ y) with (String c1 (r +:+ Js.nl +:+ y)) in Hp.
    cbn [String.prefix] in Hp. destruct (ascii_dec "`" c1) as [<-|]; [|done].
    destruct r as [|c2 r]; [done|].
    change (String c2 r +:+ Js.nl +:+ y) with (String c2 (r +:+ Js.nl +:+ y)) in Hp.
    cbn [String.prefix] in Hp. destruct (ascii_dec "`" c2) as [<-|]; [|done].
    destruct r as [|c3 r]; [done|].
    change (String c3 r +:+ Js.nl +:+ y) with (String c3 (r +:+ Js.nl +:+ y)) in Hp.
    cbn [String.prefix] in Hp. destruct (ascii_dec "`" c3) as [<-|]; [|done].
    by exists r. }
  destruct Hr as [r3 ->]. rewrite !append_assoc, !(sliceFrom_append "```").
  apply atLineEnd_before_nl.
Qed.

Lemma closesFence_here (s : string) : closesFence s = false -> fenceHere s = false.
Proof. destruct s; cbn [closesFence]; by intros [H _]%orb_false_iff. Qed.

Lemma removeCloseFence_closing (raw : string) :
  closesFence (raw +:+ Js.nl) = false ->
  removeCloseFence (raw +:+ Js.nl +:+ "```") = raw.
Proof.
  induction raw as [|c raw IH]; intros H; [reflexivity|].
  change (closesFence (String c (raw +:+ Js.nl)) = false) in H.
  cbn [closesFence] in H. apply orb_false_iff in H as [Hhere Hrest].
  change (removeCloseFence (String c (raw +:+ Js.nl +:+ "```")) = String c raw).
  cbn [removeCloseFence sliceFrom].
  assert (H1 : fenceHere (raw +:+ Js.nl +:+ "```") = false).
  { rewrite (fenceHere_before_nl raw "```" ""). by apply closesFence_here. }
  assert (H2 : fenceHere (String c (raw +:+ Js.nl +:+ "```")) = false).
  { change (fenceHere (String c raw +:+ Js.nl +:+ "```") = false).
    rewrite (fenceHere_before_nl (String c raw) "```" ""). exact Hhere. }
  rewrite H1, H2, andb_false_r. by rewrite IH.
Qed.

Lemma removeOpenFence_here (b1 b2 : ascii) (s : string) :
  removeOpenFence true b1 b2 ("```diff" +:+ Js.nl +:+ s) = s.
Proof.
  assert (H : forall t, startsWith "```diff" t = true ->
            removeOpenFence true b1 b2 t
            = if startsWith Js.nl (sliceFrom 7 t) then sliceFrom 1 (sliceFrom 7 t)
              else sliceFrom 7 t).
  { intros t Ht. destruct t; [done|]. cbn [removeOpenFence]. by rewrite Ht. }
  rewrite H by apply prefix_append.
  rewrite (sliceFrom_append "```diff"). unfold startsWith.
  by rewrite prefix_append, (sliceFrom_append Js.nl).
Qed.

(** X19. The diff [turn_diff] shows is the diff [DiffBlock] reads, unless
    the diff holds a closing fence of its own.  When three backquotes are
    nowhere in the diff text followed by a line terminator or by the end of
    the text, the component strips exactly the two fences the hook added:
    the lines it parses are the lines of the diff text. *)
Theorem diff_message_parses (raw : string) :
  closesFence (raw +:+ Js.nl) = false ->
  diffLines (diffContent raw) = splitLines raw
  /\ parseUnifiedDiff (diffContent raw) = parseDiffLines (splitLines raw).
Proof.
  intros H.
  assert (Hlines : diffLines (diffContent raw) = splitLines raw).
  { unfold diffLines.
    assert (Hshape : diffContent raw
                     = "```" +:+ ("diff" +:+ Js.nl +:+ raw +:+ Js.nl) +:+ "```")
      by (unfold diffContent; by rewrite !append_assoc).
    rewrite Hshape, trim_fenced, <- Hshape. unfold diffContent.
    by rewrite removeOpenFence_here, removeCloseFence_closing. }
  split; [done|]. unfold parseUnifiedDiff. by rewrite Hlines.
Qed.

Lemma diff_message_parses_witness :
  parseUnifiedDiff
    (diffContent ("diff --git a/x b/x" +:+ Js.nl +:+ "-old" +:+ Js.nl +:+ "+new"))
  = [{| diff_header := "diff --git a/x b/x"; diff_hunks := ["-old"; "+new"];
        diff_add := 1; diff_del := 1 |}].
Proof.
  exact (proj2 (diff_message_parses
    ("diff --git a/x b/x" +:+ Js.nl +:+ "-old" +:+ Js.nl +:+ "+new") eq_refl)).
Defined.

(** ** The auth dialog and the token manager *)

(** X20. The dialog and the store read the status alike.  When the two
    hold the same status, they hold the same status after any status the
    command resolves to, handled or not, and after a rejection inside Tauri;
    the two tests for being authenticated agree on it.  After a rejection
    outside Tauri they differ unless the status was none: the store drops
    the login, the dialog keeps showing it. *)
Theorem dialog_agrees_with_store (auth : AuthState) (d : DialogState) :
  statusOf auth = authStatus d ->
  (forall outcome,
     match outcome with Rejected err => outsideTauri err = false | _ => True end ->
     let auth' := checkAuthStatus outcome auth in
     let d' := dialogCheckAuthStatus outcome d in
     statusOf auth' = authStatus d'
     /\ isAuthenticated auth' = dialogIsAuthenticated (authStatus d'))
  /\ (forall err, outsideTauri err = true ->
        auth_type (checkAuthStatus (Rejected err) auth) = auth_none
        /\ authStatus (dialogCheckAuthStatus (Rejected err) d) = authStatus d).
Proof.
  intros Hsame. split.
  - intros outcome Hin auth' d'.
    assert (H : statusOf auth' = authStatus d').
    { subst auth' d'. destruct outcome as [status|err].
      - unfold checkAuthStatus, dialogCheckAuthStatus.
        destruct (negb (truthyOpt status)); [done|].
        destruct (bool_decide (Js.orEmpty status = "api_key")); [done|].
        destruct (startsWith "chatgpt:" (Js.orEmpty status)); [|done].
        destruct (bool_decide (length (splitOn ":" (Js.orEmpty status)) = 3%nat)); [done|].
        by destruct (bool_decide (splitOn ":" (Js.orEmpty status) !! 1%nat = Some "invalid")).
      - unfold checkAuthStatus, dialogCheckAuthStatus. unfold outsideTauri in Hin.
        by rewrite Hin. }
    split; [done|]. rewrite <- H. by destruct auth'.
  - intros err Hout. unfold checkAuthStatus, dialogCheckAuthStatus.
    unfold outsideTauri in Hout. by rewrite Hout.
Qed.

Lemma dialog_agrees_with_store_witness :
  statusOf (checkAuthStatus (Resolved (Some "chatgpt:ada@example.org:plus")) initialAuth)
  = authStatus
      (dialogCheckAuthStatus (Resolved (Some "chatgpt:ada@example.org:plus")) initialDialog).
Proof.
  exact (proj1 (proj1 (dialog_agrees_with_store initialAuth initialDialog eq_refl)
                  (Resolved (Some "chatgpt:ada@example.org:plus")) I)).
Defined.

Lemma dialogCheck_valid (o : Outcome (option string)) (d : DialogState) :
  (status_type (authStatus d) = auth_chatgpt -> is_Some (status_valid (authStatus d))) ->
  status_type (authStatus (dialogCheckAuthStatus o d)) = auth_chatgpt ->
  is_Some (status_valid (authStatus (dialogCheckAuthStatus o d))).
Proof.
  intros Hd. destruct o as [status|err]; [|done].
  unfold dialogCheckAuthStatus.
  destruct (negb (truthyOpt status)); [done|].
  destruct (bool_decide (Js.orEmpty status = "api_key")); [done|].
  destruct (startsWith "chatgpt:" (Js.orEmpty status)); [|done].
  destruct (bool_decide (length (splitOn ":" (Js.orEmpty status)) = 3%nat)); [by eexists|].
  destruct (bool_decide (splitOn ":" (Js.orEmpty status) !! 1%nat = Some "invalid"));
    by eexists.
Qed.

(** X21. What the dialog shows matches its test.  Whatever the status
    checks since the dialog was mounted and however each ended, a ChatGPT
    status always carries a validity, so the display [ChatGPT (Invalid)],
    which tests [!valid], is shown exactly when the status is a ChatGPT
    status that does not count as authenticated, which tests
    [valid !== false]; and [Not authenticated] is shown exactly for the
    status none. *)
Theorem dialog_display_matches_test (outcomes : list (Outcome (option string))) :
  let s := authStatus (dialogChecks outcomes) in
  (status_type s = auth_chatgpt -> is_Some (status_valid s))
  /\ (getStatusDisplay s = shows_chatgpt_invalid
      <-> status_type s = auth_chatgpt /\ dialogIsAuthenticated s = false)
  /\ (getStatusDisplay s = shows_not_authenticated <-> status_type s = auth_none)
  /\ (dialogIsAuthenticated s = true
      <-> getStatusDisplay s = shows_api_key \/ getStatusDisplay s = shows_chatgpt).
Proof.
  intros s.
  assert (Hvalid : status_type s = auth_chatgpt -> is_Some (status_valid s)).
  { subst s. unfold dialogChecks.
    assert (H0 : status_type (authStatus initialDialog) = auth_chatgpt ->
                 is_Some (status_valid (authStatus initialDialog))) by done.
    revert H0. generalize initialDialog.
    induction outcomes as [|o outcomes IH]; intros d Hd; [done|].
    cbn [fold_left]. apply IH. by apply dialogCheck_valid. }
  split; [done|]. clearbody s.
  unfold getStatusDisplay, dialogIsAuthenticated.
  destruct s as [t e p v]; cbn [status_type status_valid] in *.
  destruct t; cbn.
  - repeat split; try done; try (by intros [? ?]); by intros [?|?].
  - repeat split; try done; try (by intros [? ?]); by left.
  - destruct Hvalid as [b ->]; [done|]. destruct b; cbn.
    + repeat split; try done; try (by intros [? ?]); by right.
    + repeat split; try done; by intros [?|?].
Qed.

(** X22. The development notice is logged once per session.  Over any
    calls of [showDevelopmentNotice], from the flag unset: the notice is
    logged by the first call made outside Tauri and by no other call, and
    the flag at the end tells whether there was such a call. *)
Theorem development_notice_once (before after : list bool) (calls : list bool) :
  (Forall (fun isTauri => isTauri = true) calls ->
     notices calls false = (replicate (length calls) false, false))
  /\ (Forall (fun isTauri => isTauri = true) before ->
        notices (before ++ false :: after) false
        = (replicate (length before) false ++ true :: replicate (length after) false,
           true)).
Proof.
  assert (Hshown : forall l, notices l true = (replicate (length l) false, true)).
  { induction l as [|b l IH]; [done|]. cbn [notices length replicate].
    unfold showDevelopmentNotice. rewrite andb_false_r. by rewrite IH. }
  assert (Htauri : forall l, Forall (fun isTauri => isTauri = true) l ->
            forall rest, notices (l ++ rest) false
              = ((replicate (length l) false ++ (notices rest false).1),
                 (notices rest false).2)).
  { induction 1 as [|b l -> _ IH]; intros rest.
    - cbn [app length replicate]. by destruct (notices rest false).
    - cbn [app notices length replicate]. unfold showDevelopmentNotice. cbn [negb andb].
      by rewrite IH. }
  split.
  - intros H. rewrite <- (app_nil_r calls) at 1. by rewrite Htauri, app_nil_r.
  - intros H. rewrite Htauri by done. cbn [notices]. unfold showDevelopmentNotice.
    cbn [negb andb]. by rewrite Hshown.
Qed.

Lemma development_notice_once_witness :
  notices [true; false; false; true; false] false
  = ([false; true; false; false; false], true).
Proof.
  exact (proj2 (development_notice_once [true] [false; true; false] [])
           (Forall_cons_2 _ _ _ eq_refl (Forall_nil_2 _))).
Defined.

Lemma tracksInterval_stop (m : TokenManager) :
  tracksInterval m -> tracksInterval (tokenStop m) /\ intervals (tokenStop m) = ∅
                      /\ refreshInterval (tokenStop m) = None.
Proof.
  unfold tracksInterval, tokenStop. destruct (refreshInterval m) as [h|] eqn:Hr.
  - intros ->. cbn. by rewrite difference_diag_L.
  - rewrite Hr. by intros ->.
Qed.

Lemma tracksInterval_start (m : TokenManager) :
  tracksInterval m ->
  tracksInterval (tokenStart m)
  /\ refreshInterval (tokenStart m) = Some (nextInterval m)
  /\ intervals (tokenStart m) = {[nextInterval m]}.
Proof.
  intros H. destruct (tracksInterval_stop m H) as (_ & Hempty & _).
  unfold tracksInterval, tokenStart in *.
  destruct (refreshInterval m) as [h|] eqn:Hr.
  - assert (Hn : nextInterval (tokenStop m) = nextInterval m)
      by (unfold tokenStop; by rewrite Hr).
    cbn. rewrite Hempty, Hn. by rewrite (left_id_L ∅ (∪)).
  - cbn. rewrite H. by rewrite (left_id_L ∅ (∪)).
Qed.

(** X23. The token manager never leaks an interval.  Whatever calls of
    [start] and [stop] are made, in any order, the intervals that are set
    are exactly the one the manager remembers: one at most.  After [stop]
    none is set; after [start] one is set, with a new id, whether or not one
    was set before. *)
Theorem token_manager_keeps_one_interval (calls : list TokenCall) :
  let m := fold_left tokenCall calls initialTokenManager in
  tracksInterval m
  /\ intervals (tokenStop m) = ∅
  /\ intervals (tokenStart m) = {[nextInterval m]}
  /\ refreshInterval (tokenStart m) = Some (nextInterval m).
Proof.
  intros m.
  assert (H : tracksInterval m).
  { subst m. assert (H0 : tracksInterval initialTokenManager) by done.
    revert H0. generalize initialTokenManager.
    induction calls as [|c calls IH]; intros m0 H0; [done|].
    cbn [fold_left]. apply IH. destruct c; cbn [tokenCall].
    - by apply tracksInterval_start.
    - by apply tracksInterval_stop. }
  split; [done|]. split; [by apply tracksInterval_stop|].
  destruct (tracksInterval_start m H) as (_ & H1 & H2). done.
Qed.

Lemma tokenEffect_tracks (t : AuthType) (m : TokenManager) :
  tracksInterval m ->
  tracksInterval (tokenEffect t (tokenCleanup m))
  /\ (is_Some (refreshInterval (tokenEffect t (tokenCleanup m))) <-> t = auth_chatgpt).
Proof.
  intros H. unfold tokenEffect, tokenCleanup.
  destruct (tracksInterval_stop m H) as (H1 & _ & H2).
  case_bool_decide as Ht.
  - destruct (tracksInterval_start _ H1) as (H3 & H4 & _). rewrite H4.
    split; [done|]. split; [done|]. by eexists.
  - destruct (tracksInterval_stop _ H1) as (H3 & _ & H4). rewrite H4.
    split; [done|]. split; [by intros [? ?]|done].
Qed.

(** X24. The refresh interval follows the auth type.  Over the life of
    the component that runs [useAuthInitialization], whatever the auth type
    at mount and whatever its changes, an interval is set exactly when the
    current auth type is ChatGPT, it is the only one, and the cleanup at
    unmount leaves none. *)
Theorem token_interval_follows_auth_type (t : AuthType) (changes : list AuthType) :
  let m := tokenRenders t changes in
  let current := default t (last changes) in
  tracksInterval m
  /\ (is_Some (refreshInterval m) <-> current = auth_chatgpt)
  /\ intervals (tokenCleanup m) = ∅.
Proof.
  intros m current.
  assert (H : tracksInterval m
              /\ (is_Some (refreshInterval m) <-> current = auth_chatgpt)).
  { subst m current. unfold tokenRenders.
    assert (H0 : tracksInterval (tokenEffect t initialTokenManager)
                 /\ (is_Some (refreshInterval (tokenEffect t initialTokenManager))
                     <-> t = auth_chatgpt))
      by (by apply (tokenEffect_tracks t initialTokenManager)).
    revert H0. generalize (tokenEffect t initialTokenManager). revert t.
    induction changes as [|c changes IH]; intros t m0 H0; [done|].
    cbn [fold_left]. rewrite last_cons.
    specialize (IH c (tokenEffect c (tokenCleanup m0))
                  (tokenEffect_tracks c m0 (proj1 H0))).
    by destruct (last changes). }
  destruct H as [H1 H2]. split; [done|]. split; [done|].
  by apply tracksInterval_stop.
Qed.

(** X25. What [refreshNow] answers.  It answers false and leaves the
    store alone unless the store holds a ChatGPT status, and so does
    [checkAndRefreshTokens].  When it answers true the store holds a valid
    ChatGPT status, which counts as authenticated.  After a check that fails
    inside Tauri the store keeps its status, so the answer is true exactly
    when the status was valid before the check. *)
Theorem refresh_now_answer (outcome : Outcome (option string)) (auth : AuthState) :
  (auth_type auth <> auth_chatgpt ->
     refreshNow outcome auth = (false, auth)
     /\ checkAndRefreshTokens outcome auth = auth)
  /\ ((refreshNow outcome auth).1 = true ->
      let auth' := (refreshNow outcome auth).2 in
      auth_type auth' = auth_chatgpt /\ valid auth' = Some true
      /\ isAuthenticated auth' = true)
  /\ (forall err, auth_type auth = auth_chatgpt -> outsideTauri err = false ->
        (refreshNow (Rejected err) auth).1 = bool_decide (valid auth = Some true)).
Proof.
  split; [|split].
  - intros Ht. unfold refreshNow, checkAndRefreshTokens.
    by rewrite bool_decide_eq_false_2.
  - unfold refreshNow. case_bool_decide as Ht; cbn [negb fst snd]; [|done].
    intros Hv%bool_decide_eq_true.
    assert (Htype : auth_type (checkAuthStatus outcome auth) = auth_chatgpt).
    { revert Hv. unfold checkAuthStatus. destruct outcome as [status|err].
      - destruct (negb (truthyOpt status)); [done|].
        destruct (bool_decide (Js.orEmpty status = "api_key")); [done|].
        destruct (startsWith "chatgpt:" (Js.orEmpty status)); [|done].
        destruct (bool_decide (length (splitOn ":" (Js.orEmpty status)) = 3%nat));
          [done|].
        by destruct (bool_decide (splitOn ":" (Js.orEmpty status) !! 1%nat
                                  = Some "invalid")).
      - by destruct (match thrown_message err with
                     | Some m => includes "outside Tauri context" m
                     | None => false
                     end). }
    split; [done|]. split; [done|].
    unfold isAuthenticated. rewrite Htype, Hv. done.
  - intros err Ht Hout. unfold refreshNow, checkAuthStatus.
    rewrite bool_decide_eq_true_2 by done. cbn [negb fst].
    unfold outsideTauri in Hout. by rewrite Hout.
Qed.

(** ** The settings page *)

Lemma pageAct_namesGiven (p : ModelsPage) (action : PageAction) :
  namesGiven p -> namesGiven (pageAct p action).
Proof.
  unfold namesGiven. intros H. destruct action; cbn [pageAct]; try done.
  - destruct (Js.truthy (trim (newModelName p))) eqn:Ht; cbn [negb]; [|done].
    case_bool_decide; [done|]. cbn [models].
    apply Forall_app. split; [done|]. apply Forall_singleton. by apply truthy_true.
  - by destruct (showsButtons p idx).
  - by destruct (editorRow p).
  - destruct (editorRow p) as [idx|]; [|done].
    destruct (Js.truthy (trim (editingModelValue p))) eqn:Ht; cbn [negb]; [|done].
    cbn [models]. apply Forall_insert; [done|]. by apply truthy_true.
  - by destruct (editorRow p).
  - destruct (showsButtons p idx); [|done]. cbn [models]. by apply Forall_delete.
Qed.

Lemma pageAct_NoDup (p : ModelsPage) (action : PageAction) :
  isSave action = false -> NoDup (models p) -> NoDup (models (pageAct p action)).
Proof.
  intros Hs H. destruct action; cbn [pageAct]; try done.
  - destruct (Js.truthy (trim (newModelName p))); cbn [negb]; [|done].
    case_bool_decide as Hin; [done|]. cbn [models].
    apply NoDup_app. split; [done|]. split; [|apply NoDup_singleton].
    intros x Hx ->%list_elem_of_singleton. done.
  - by destruct (showsButtons p idx).
  - by destruct (editorRow p).
  - by destruct (editorRow p).
  - destruct (showsButtons p idx); [|done]. cbn [models].
    exact (sublist_NoDup _ _ H (sublist_delete _ _)).
Qed.

(** X26. The names of the model list.  From a list without an empty name
    and whatever the user does, no name of the list is ever empty.  As long
    as the user does not save an edit, a list without duplicates stays
    without duplicates: adding a name that is already there (after trimming)
    only clears the input.  Saving an edit does not look at the other names:
    it keeps the length of the list and puts the trimmed text in the row,
    whatever the other rows hold. *)
Theorem model_names_stay_given (actions : list PageAction) (p : ModelsPage) :
  namesGiven p ->
  let p' := fold_left pageAct actions p in
  namesGiven p'
  /\ (forallb (fun a => negb (isSave a)) actions = true -> NoDup (models p) ->
      NoDup (models p'))
  /\ (forall idx, editorRow p' = Some idx -> Js.truthy (trim (editingModelValue p')) = true ->
        models (pageAct p' click_save) = <[idx := trim (editingModelValue p')]> (models p')
        /\ length (models (pageAct p' click_save)) = length (models p')).
Proof.
  intros Hp p'. subst p'. split; [|split].
  - revert p Hp. induction actions as [|a actions IH]; intros p Hp; [done|].
    cbn [fold_left]. apply IH. by apply pageAct_namesGiven.
  - clear Hp. revert p. induction actions as [|a actions IH]; intros p Hs Hn; [done|].
    cbn [forallb] in Hs. apply andb_true_iff in Hs as [Ha%negb_true_iff Hs].
    cbn [fold_left]. apply IH; [done|]. by apply pageAct_NoDup.
  - intros idx Hrow Ht. cbn [pageAct]. rewrite Hrow, Ht. cbn [negb models].
    split; [done|]. by rewrite length_insert.
Qed.

Lemma model_names_stay_given_witness :
  NoDup
    (models
       (fold_left pageAct
          [type_new " gpt-5 "; press_add; type_new "gpt-5"; press_add; click_delete 0%nat]
          {| models := ["o3"]; newModelName := ""; editingModelIdx := None;
             editingModelValue := "" |})).
Proof.
  refine (proj1 (proj2 (model_names_stay_given
    [type_new " gpt-5 "; press_add; type_new "gpt-5"; press_add; click_delete 0%nat]
    {| models := ["o3"]; newModelName := ""; editingModelIdx := None;
       editingModelValue := "" |} _)) eq_refl _).
  - repeat constructor; discriminate.
  - apply NoDup_singleton.
Defined.
